(** * genkitx-weaviate: the client wrapper, the indexer, the retriever and
      the plugin root, embedded shallowly.

    Sources followed: [src/client.ts] (class [WeaviateClientWrapper]),
    [src/retriever.ts], [src/indexer.ts] and [src/index.ts] (the plugin).

    Everything the package consumes from outside (the Weaviate client, the
    Genkit embedder, [uuidv4], the [JSON] builtin) is an interface here: the
    programs are written against it and the theorems hold for every
    behaviour of it. *)

From Stdlib Require Import String Ascii List ZArith QArith Bool Lia.
From Stdlib Require Import DecimalFacts DecimalPos DecimalN.
From stdpp Require Import base list.
Import ListNotations.
Local Open Scope string_scope.
Local Open Scope list_scope.

(** ** JavaScript values *)

(** A JS number that can appear in JSON text or as a distance score is a
    finite double, hence a rational. *)
Definition number := Q.

(** Values that [JSON.parse] can return and that metadata is made of.
    Arrays are objects too and may carry named own properties next to
    their elements ([arr._distance = d] is legal JS). Objects keep their
    properties in insertion order. *)
#[warnings="-register-all"]
Inductive json : Type :=
| JNull
| JBool (b : bool)
| JNum (n : number)
| JStr (s : string)
| JArr (elems : list json) (props : list (string * json))
| JObj (props : list (string * json)).

(** The type [Record<string, unknown>]. *)
Definition object := list (string * json).

(** The type [Record<string, string>]: the properties of a collection
    whose schema is all [TEXT]. *)
Definition text_properties := list (string * string).

(** Thrown values. *)
Inductive exn : Type :=
| Error (message : string)
| TypeError (message : string)
| Rejection (reason : string).

(** Outcome of an evaluation that may throw / of a settled promise. *)
Inductive Result (A : Type) : Type :=
| Ok (a : A)
| Err (e : exn).
Arguments Ok {A} a.
Arguments Err {A} e.

(** JS [ToBoolean]. *)
Definition str_truthy (s : string) : bool :=
  match s with EmptyString => false | String _ _ => true end.

Definition num_truthy (n : number) : bool := negb (Qeq_bool n 0).

Definition truthy (v : json) : bool :=
  match v with
  | JNull => false
  | JBool b => b
  | JNum n => num_truthy n
  | JStr s => str_truthy s
  | JArr _ _ => true
  | JObj _ => true
  end.

(** [o[k]]: own property lookup. *)
Fixpoint obj_get {V : Type} (k : string) (o : list (string * V)) : option V :=
  match o with
  | [] => None
  | (k', v) :: o' => if String.eqb k k' then Some v else obj_get k o'
  end.

(** [o[k] = v]: overwrite in place when the key exists, append otherwise. *)
Fixpoint obj_set {V : Type} (k : string) (v : V) (o : list (string * V))
  : list (string * V) :=
  match o with
  | [] => [(k, v)]
  | (k', v') :: o' =>
      if String.eqb k k' then (k, v) :: o' else (k', v') :: obj_set k v o'
  end.

(** The object without key [k] (used to compare "up to" a key). *)
Fixpoint obj_remove {V : Type} (k : string) (o : list (string * V))
  : list (string * V) :=
  match o with
  | [] => []
  | (k', v') :: o' =>
      if String.eqb k k' then obj_remove k o' else (k', v') :: obj_remove k o'
  end.

(** [target.k = v] in strict-mode code (ES modules are strict): objects and
    arrays take the property, [null] throws, and a primitive makes the
    assignment throw a [TypeError]. *)
Definition set_property (target : json) (k : string) (v : json) : Result json :=
  match target with
  | JObj o => Ok (JObj (obj_set k v o))
  | JArr l o => Ok (JArr l (obj_set k v o))
  | JNull => Err (TypeError "Cannot set properties of null")
  | JBool _ | JNum _ | JStr _ =>
      Err (TypeError ("Cannot create property '" ++ k ++ "'"))
  end.

(** [v.k], for reading the result back. *)
Definition get_property (v : json) (k : string) : option json :=
  match v with
  | JObj o => obj_get k o
  | JArr _ o => obj_get k o
  | _ => None
  end.

(** ** The [JSON] builtin, as an interface *)

(** [JSON_parse] returns [None] where [JSON.parse] throws a [SyntaxError].
    [serializable] singles out the values that survive a round trip (in JS:
    plain data without duplicate keys, non-finite numbers or array
    properties). *)
Class JSONCodec : Type := {
  JSON_stringify : json -> string;
  JSON_parse : string -> option json;
  serializable : json -> Prop
}.

(** What the development relies on from ECMAScript's [JSON]: a serializable
    value is read back as it was; the text of a value is never empty; the
    text of an object is read back as an object; the empty object is
    serializable and written [{}]. *)
Class JSONLaws (codec : JSONCodec) : Prop := {
  parse_stringify :
    forall v, serializable v -> JSON_parse (JSON_stringify v) = Some v;
  stringify_nonempty : forall v, JSON_stringify v <> EmptyString;
  parse_stringify_object :
    forall o, exists o', JSON_parse (JSON_stringify (JObj o)) = Some (JObj o');
  stringify_empty_object : JSON_stringify (JObj []) = "{}";
  serializable_empty_object : serializable (JObj [])
}.

(** ** The outside world: requests the package makes *)

(** [src/client.ts], interface [WeaviateClientParams]. *)
Record WeaviateClientParams : Type := {
  host : string;
  port : option Z;
  grpcPort : option Z;
  secure : option bool;
  apiKey : option string;
  headers : option text_properties;
  timeout : option Z
}.

(** [src/client.ts], interface [CollectionConfig]. *)
Record PropertySpec : Type := {
  ps_name : string;
  ps_dataType : string;
  ps_description : option string
}.

Record CollectionConfig : Type := {
  name : string;
  description : option string;
  properties : option (list PropertySpec)
}.

(** The connected client of [weaviate-client]: an opaque handle. *)
Inductive WeaviateClient : Type := ClientHandle (n : nat).

(** [new ApiKey(k)]. *)
Inductive ApiKey : Type := MkApiKey (key : string).

Record ConnectionOptions : Type := {
  co_headers : option text_properties;
  co_authCredentials : option ApiKey
}.

(** [weaviate.configure.dataType.*] and [weaviate.configure.vectorizer.*]. *)
Inductive DataType : Type := TEXT | INT | NUMBER | BOOLEAN | DATE.

Inductive Vectorizer : Type :=
| VectorizerNone
| VectorizerModule (module : string).

Record PropertyCreate : Type := {
  pc_name : string;
  pc_dataType : DataType;
  pc_description : string
}.

(** The argument of [client.collections.create]. *)
Record CollectionCreate : Type := {
  cc_name : string;
  cc_description : option string;
  cc_vectorizers : Vectorizer;
  cc_properties : list PropertyCreate
}.

(** An element of the array given to [WeaviateClientWrapper.insertObjects]. *)
Record StoreObject : Type := {
  so_properties : text_properties;
  so_vector : list number;
  so_id : option string
}.

(** An element of the array given to [collection.data.insertMany]. *)
Record InsertObject : Type := {
  io_id : option string;
  io_properties : text_properties;
  io_vectors : list number
}.

(** The opaque [FilterValue] of [weaviate-client]. *)
Inductive FilterValue : Type := Filter (repr : string).

(** The options object of [collection.query.nearVector]. *)
Record NearVectorOptions : Type := {
  nv_limit : number;
  nv_returnMetadata : list string;
  nv_distance : option number;
  nv_filters : option FilterValue
}.

(** A result object of a query: [WeaviateObject]. *)
Record ReturnMetadata : Type := { distance : option number }.

Record WeaviateObject : Type := {
  wo_uuid : string;
  wo_properties : text_properties;
  wo_metadata : option ReturnMetadata
}.

(** [src/client.ts], interface [SearchResult]. *)
Record SearchResult : Type := {
  objects : list WeaviateObject;
  total : option number
}.

(** Genkit's [Document], seen through the accessors the package reads. *)
Record Document : Type := {
  data : string;
  dataType : option string;
  metadata : option object
}.

(** Genkit's [Embedding]. *)
Record Embedding : Type := { embedding : list number }.

(** [EmbedderArgument]: a registered name, or a reference/action object. *)
Inductive EmbedderArgument : Type :=
| EmbedderName (n : string)
| EmbedderRef (n : string).

(** Every asynchronous request to a collaborator, indexed by what it
    resolves to. *)
Inductive Call : Type -> Type :=
| ConnectToWeaviateCloud (h : string) (o : ConnectionOptions)
  : Call WeaviateClient
| ConnectToLocal (h : string) (p g : Z) (o : ConnectionOptions)
  : Call WeaviateClient
| ConfigGet (c : WeaviateClient) (collection : string) : Call string
| CollectionsCreate (c : WeaviateClient) (cfg : CollectionCreate) : Call unit
| InsertMany (c : WeaviateClient) (collection : string)
    (objs : list InsertObject) : Call unit
| NearVector (c : WeaviateClient) (collection : string) (vector : list number)
    (opts : NearVectorOptions) : Call (list WeaviateObject)
| DeleteById (c : WeaviateClient) (collection : string) (id : string)
  : Call unit
| CollectionsDelete (c : WeaviateClient) (collection : string) : Call unit
| AggregateOverAll (c : WeaviateClient) (collection : string) : Call number
| Embed (e : EmbedderArgument) (content : Document) (options : option object)
  : Call (list Embedding).

(** A request with its result type packed. *)
Inductive Request : Type :=
| Req {T : Type} (c : Call T).

Definition is_connect (r : Request) : bool :=
  match r with
  | Req (ConnectToWeaviateCloud _ _) => true
  | Req (ConnectToLocal _ _ _ _) => true
  | Req _ => false
  end.

(** ** Asynchronous programs *)

(** The body of an [async] function, cut at its [await]s:
    - [Return a] and [Throw e] end it;
    - [AwaitInit k] is [await this.initPromise] followed by reads of
      [this.client] (written once, before that promise fulfils);
    - [Await c k] issues request [c] and resumes with its settlement. *)
Inductive Prog (A : Type) : Type :=
| Return (a : A)
| Throw (e : exn)
| AwaitInit (k : Result WeaviateClient -> Prog A)
| Await {T : Type} (c : Call T) (k : Result T -> Prog A).
Arguments Return {A} a.
Arguments Throw {A} e.
Arguments AwaitInit {A} k.
Arguments Await {A T} c k.

Fixpoint bind {A B : Type} (p : Prog A) (f : A -> Prog B) : Prog B :=
  match p with
  | Return a => f a
  | Throw e => Throw e
  | AwaitInit k => AwaitInit (fun r => bind (k r) f)
  | Await c k => Await c (fun r => bind (k r) f)
  end.

(** [try { p } catch { h }]. *)
Fixpoint try_catch {A : Type} (p : Prog A) (h : exn -> Prog A) : Prog A :=
  match p with
  | Return a => Return a
  | Throw e => h e
  | AwaitInit k => AwaitInit (fun r => try_catch (k r) h)
  | Await c k => Await c (fun r => try_catch (k r) h)
  end.

(** [await c]: a rejection is rethrown at the [await]. *)
Definition await {T : Type} (c : Call T) : Prog T :=
  Await c (fun r => match r with Ok t => Return t | Err e => Throw e end).

Declare Scope prog_scope.
Delimit Scope prog_scope with prog.
Notation "x <- p ;; q" := (bind p (fun x => q))
  (at level 100, p at next level, right associativity) : prog_scope.
Notation "p ;;; q" := (bind p (fun _ => q))
  (at level 100, right associativity) : prog_scope.
Local Open Scope prog_scope.

(** An environment answers the [n]-th request of a run. *)
Definition Env : Type := nat -> forall T : Type, Call T -> Result T.

(** Run a program alone, with [this.initPromise] already settled as
    [init]: the requests it issues, in order, and its settlement. *)
Fixpoint exec {A : Type} (env : Env) (init : Result WeaviateClient)
  (p : Prog A) (n : nat) : list Request * Result A :=
  match p with
  | Return a => ([], Ok a)
  | Throw e => ([], Err e)
  | AwaitInit k => exec env init (k init) n
  | Await c k =>
      let '(reqs, r) := exec env init (k (env n _ c)) (S n) in
      (Req c :: reqs, r)
  end.

(** ** [WeaviateClientWrapper] ([src/client.ts]) *)

(** [x ?? d]. *)
Definition nullish {A : Type} (x : option A) (d : A) : A :=
  match x with Some a => a | None => d end.

(** Truthiness of an optional string ([undefined] and the empty string are
    falsy). *)
Definition opt_truthy (x : option string) : bool :=
  match x with Some s => str_truthy s | None => false end.

(** [x || ''] on an optional string. *)
Definition or_empty (x : option string) : string :=
  match x with Some s => s | None => EmptyString end.

(** The [connectionOptions] object built by [initialize]. *)
Definition connectionOptions (params : WeaviateClientParams)
  : ConnectionOptions :=
  {| co_headers := headers params;
     co_authCredentials :=
       match apiKey params with
       | Some key => if str_truthy key then Some (MkApiKey key) else None
       | None => None
       end |}.

(** [initialize()]: one connection request, cloud or local. The program
    settles with the client it stored in [this.client]. *)
Definition initialize (params : WeaviateClientParams) : Prog WeaviateClient :=
  if opt_truthy (apiKey params) then
    await (ConnectToWeaviateCloud (host params) (connectionOptions params))
  else
    let port := nullish (port params) 8080%Z in
    let grpcPort := nullish (grpcPort params) 50051%Z in
    await (ConnectToLocal (host params) port grpcPort
             (connectionOptions params)).

(** [ensureInitialized()]: [await this.initPromise]. *)
Definition ensureInitialized : Prog WeaviateClient :=
  AwaitInit (fun r => match r with Ok c => Return c | Err e => Throw e end).

Definition getClient : Prog WeaviateClient := ensureInitialized.

Definition collectionExists (collectionName : string) : Prog bool :=
  client <- ensureInitialized ;;
  try_catch
    (_ <- await (ConfigGet client collectionName) ;; Return true)
    (fun _ => Return false).

(** The literal passed to [client.collections.create]. *)
Definition create_request (config : CollectionConfig) : CollectionCreate :=
  {| cc_name := name config;
     cc_description := description config;
     cc_vectorizers := VectorizerNone;
     cc_properties :=
       [ {| pc_name := "content"; pc_dataType := TEXT;
            pc_description := "Document content" |};
         {| pc_name := "metadata"; pc_dataType := TEXT;
            pc_description := "Document metadata as JSON string" |} ] |}.

Definition createCollection (config : CollectionConfig) : Prog unit :=
  client <- ensureInitialized ;;
  exists_ <- collectionExists (name config) ;;
  if (exists_ : bool) then Return tt
  else await (CollectionsCreate client (create_request config)).

(** The arrow function mapped over [objects] in [insertObjects]. *)
Definition insert_payload (obj : StoreObject) : InsertObject :=
  {| io_id := if opt_truthy (so_id obj) then so_id obj else None;
     io_properties := so_properties obj;
     io_vectors := so_vector obj |}.

Definition insertObjects (collectionName : string) (objs : list StoreObject)
  : Prog unit :=
  client <- ensureInitialized ;;
  await (InsertMany client collectionName (map insert_payload objs)).

(** The [options] parameter of [search]. *)
Record SearchOptions : Type := {
  s_distance : option number;
  s_filters : option FilterValue
}.

Definition search (collectionName : string) (vector : list number)
  (limit : option number) (options : option SearchOptions)
  : Prog SearchResult :=
  let limit := nullish limit 10%Q in
  client <- ensureInitialized ;;
  objs <- await (NearVector client collectionName vector
                   {| nv_limit := limit;
                      nv_returnMetadata := ["distance"];
                      nv_distance :=
                        match options with
                        | Some o => s_distance o
                        | None => None
                        end;
                      nv_filters :=
                        match options with
                        | Some o => s_filters o
                        | None => None
                        end |}) ;;
  Return {| objects := objs;
            total := Some (inject_Z (Z.of_nat (length objs))) |}.

(** The [for (const id of ids)] loop of [deleteObjects]. *)
Fixpoint delete_each (client : WeaviateClient) (collectionName : string)
  (ids : list string) : Prog unit :=
  match ids with
  | [] => Return tt
  | id :: ids' =>
      await (DeleteById client collectionName id) ;;;
      delete_each client collectionName ids'
  end.

Definition deleteObjects (collectionName : string) (ids : list string)
  : Prog unit :=
  client <- ensureInitialized ;;
  delete_each client collectionName ids.

Definition deleteCollection (collectionName : string) : Prog unit :=
  client <- ensureInitialized ;;
  await (CollectionsDelete client collectionName).

Record CollectionStats : Type := {
  stats_objectCount : number;
  stats_name : string
}.

Definition getCollectionStats (collectionName : string)
  : Prog CollectionStats :=
  client <- ensureInitialized ;;
  config_name <- await (ConfigGet client collectionName) ;;
  totalCount <- await (AggregateOverAll client collectionName) ;;
  Return {| stats_name := config_name; stats_objectCount := totalCount |}.

(** [close()] awaits nothing. *)
Definition close : Prog unit := Return tt.

(** The public methods, as invocations. *)
Inductive Operation : Type :=
| OpGetClient
| OpCollectionExists (collectionName : string)
| OpCreateCollection (config : CollectionConfig)
| OpInsertObjects (collectionName : string) (objs : list StoreObject)
| OpSearch (collectionName : string) (vector : list number)
    (limit : option number) (options : option SearchOptions)
| OpDeleteObjects (collectionName : string) (ids : list string)
| OpDeleteCollection (collectionName : string)
| OpGetCollectionStats (collectionName : string)
| OpClose.

(** What a method's promise fulfils with. *)
Inductive Value : Type :=
| VUnit
| VBool (b : bool)
| VClient (c : WeaviateClient)
| VSearch (r : SearchResult)
| VStats (s : CollectionStats).

Definition fmap {A B : Type} (f : A -> B) (p : Prog A) : Prog B :=
  x <- p ;; Return (f x).

Definition body (op : Operation) : Prog Value :=
  match op with
  | OpGetClient => fmap VClient getClient
  | OpCollectionExists n => fmap VBool (collectionExists n)
  | OpCreateCollection c => fmap (fun _ => VUnit) (createCollection c)
  | OpInsertObjects n objs => fmap (fun _ => VUnit) (insertObjects n objs)
  | OpSearch n v l o => fmap VSearch (search n v l o)
  | OpDeleteObjects n ids => fmap (fun _ => VUnit) (deleteObjects n ids)
  | OpDeleteCollection n => fmap (fun _ => VUnit) (deleteCollection n)
  | OpGetCollectionStats n => fmap VStats (getCollectionStats n)
  | OpClose => fmap (fun _ => VUnit) close
  end.

(** The methods that start with [await this.ensureInitialized()]. *)
Definition awaits_init (op : Operation) : bool :=
  match op with OpClose => false | _ => true end.

(** ** The wrapper on the event loop *)

(** An invoked method with what is left of its body. *)
Record Task : Type := {
  t_op : Operation;
  t_state : Prog Value
}.

(** A wrapper instance with everything it has in flight:
    - [requests]: every request issued so far, oldest first;
    - [initPromise]: the call [this.initialize()] stored by the constructor,
      pending while it is at its [Await];
    - [tasks]: the method calls made on the instance. *)
Record World : Type := {
  requests : list Request;
  initPromise : Prog WeaviateClient;
  tasks : list Task
}.

(** Calling an [async] function runs it up to its first [await]: when that
    is a request, the request goes out during the call. *)
Definition issues {A : Type} (p : Prog A) : list Request :=
  match p with
  | Await c _ => [Req c]
  | _ => []
  end.

(** The settlement of a promise, [None] while pending. *)
Definition settled {A : Type} (p : Prog A) : option (Result A) :=
  match p with
  | Return a => Some (Ok a)
  | Throw e => Some (Err e)
  | _ => None
  end.

(** [new WeaviateClientWrapper(params)]:
    [this.initPromise = this.initialize()]. *)
Definition construct (params : WeaviateClientParams) : World :=
  {| requests := issues (initialize params);
     initPromise := initialize params;
     tasks := [] |}.

(** The instance after a method call. *)
Definition invoke (op : Operation) (w : World) : World :=
  {| requests := requests w ++ issues (body op);
     initPromise := initPromise w;
     tasks := tasks w ++ [ {| t_op := op; t_state := body op |} ] |}.

(** The instance after [initialize] went on as [p]. *)
Definition set_init (p : Prog WeaviateClient) (w : World) : World :=
  {| requests := requests w ++ issues p;
     initPromise := p;
     tasks := tasks w |}.

(** The instance after task [i] went on as [p]. *)
Definition set_task (i : nat) (t : Task) (p : Prog Value) (w : World) : World :=
  {| requests := requests w ++ issues p;
     initPromise := initPromise w;
     tasks := <[i := {| t_op := t_op t; t_state := p |}]> (tasks w) |}.

(** One turn of the event loop: a method is called; the connection
    request settles; a method waiting on [this.initPromise] resumes with
    its settlement; a request of a method settles. *)
Inductive step : World -> World -> Prop :=
| step_invoke (w : World) (op : Operation) :
    step w (invoke op w)
| step_connected (w : World) (T : Type) (c : Call T)
    (k : Result T -> Prog WeaviateClient) (r : Result T) :
    initPromise w = Await c k ->
    step w (set_init (k r) w)
| step_resume (w : World) (i : nat) (t : Task)
    (k : Result WeaviateClient -> Prog Value) (r : Result WeaviateClient) :
    tasks w !! i = Some t ->
    t_state t = AwaitInit k ->
    settled (initPromise w) = Some r ->
    step w (set_task i t (k r) w)
| step_response (w : World) (i : nat) (t : Task) (T : Type) (c : Call T)
    (k : Result T -> Prog Value) (r : Result T) :
    tasks w !! i = Some t ->
    t_state t = Await c k ->
    step w (set_task i t (k r) w).

(** Reachable from a fresh instance. *)
Inductive reachable (params : WeaviateClientParams) : World -> Prop :=
| reach_construct : reachable params (construct params)
| reach_step (w w' : World) :
    reachable params w -> step w w' -> reachable params w'.

(** [runs_to init p q]: [q] is what is left of [p] after some of its awaits
    were answered, [this.initPromise] being settled as [init]. *)
Inductive runs_to {A : Type} (init : Result WeaviateClient)
  : Prog A -> Prog A -> Prop :=
| runs_here (p : Prog A) : runs_to init p p
| runs_init (k : Result WeaviateClient -> Prog A) (q : Prog A) :
    runs_to init (k init) q -> runs_to init (AwaitInit k) q
| runs_await (T : Type) (c : Call T) (k : Result T -> Prog A)
    (r : Result T) (q : Prog A) :
    runs_to init (k r) q -> runs_to init (Await c k) q.

(** The client a request is addressed to. *)
Definition request_client (r : Request) : option WeaviateClient :=
  match r with
  | Req (ConfigGet c _) => Some c
  | Req (CollectionsCreate c _) => Some c
  | Req (InsertMany c _ _) => Some c
  | Req (NearVector c _ _ _) => Some c
  | Req (DeleteById c _ _) => Some c
  | Req (CollectionsDelete c _) => Some c
  | Req (AggregateOverAll c _) => Some c
  | Req _ => None
  end.

(** Every request of the program goes to the client [this.initPromise]
    fulfilled with; the program has none when it was rejected. *)
Fixpoint on_connection {A : Type} (init : Result WeaviateClient) (p : Prog A)
  : Prop :=
  match p with
  | Return _ => True
  | Throw _ => True
  | AwaitInit k => on_connection init (k init)
  | Await c k =>
      match init with
      | Ok client => request_client (Req c) = Some client
      | Err _ => False
      end /\ forall r, on_connection init (k r)
  end.

(** No connection request anywhere in a program. *)
Fixpoint connect_free {A : Type} (p : Prog A) : Prop :=
  match p with
  | Return _ => True
  | Throw _ => True
  | AwaitInit k => forall r, connect_free (k r)
  | Await c k => is_connect (Req c) = false /\ forall r, connect_free (k r)
  end.

(** ** Retriever ([src/retriever.ts]) and indexer ([src/indexer.ts]) *)

(** [WeaviateRetrieverOptionsSchema]. *)
Record WeaviateRetrieverOptions : Type := {
  ro_k : option number;
  ro_distance : option number;
  ro_filters : option FilterValue
}.

(** The three arguments handed to [Document.fromData]; [fd_metadata] is
    [None] for [undefined]. *)
Record FromData : Type := {
  fd_data : string;
  fd_dataType : string;
  fd_metadata : option json
}.

(** [WeaviateIndexerOptionsSchema]. *)
Record IndexerCollectionConfig : Type := {
  ic_description : option string;
  ic_properties : option (list PropertySpec)
}.

Record WeaviateIndexerOptions : Type := {
  createCollectionIfMissing : option bool;
  collectionConfig : option IndexerCollectionConfig
}.

(** [obj.metadata?.distance]. *)
Definition reported_distance (obj : WeaviateObject) : option number :=
  match wo_metadata obj with
  | Some m => distance m
  | None => None
  end.

(** [xs.map(f)] for an [f] that may throw. *)
Fixpoint map_result {A B : Type} (f : A -> Result B) (xs : list A)
  : Result (list B) :=
  match xs with
  | [] => Ok []
  | x :: xs' =>
      match f x with
      | Err e => Err e
      | Ok y =>
          match map_result f xs' with
          | Err e => Err e
          | Ok ys => Ok (y :: ys)
          end
      end
  end.

Section Pipelines.

Context {codec : JSONCodec}.

(** Genkit's [doc.getEmbeddingDocuments(embeddings)]. *)
Variable getEmbeddingDocuments : Document -> list Embedding -> list Document.

(** The identifier returned by the [n]-th call of [uuidv4()]. *)
Variable uuidv4 : nat -> string.

(** The [let metadata] block of the retriever: parse the stored text when
    it is truthy, wrap it when it does not parse. *)
Definition parse_metadata (properties : text_properties) : option json :=
  match obj_get "metadata" properties with
  | Some stored =>
      if str_truthy stored then
        match JSON_parse stored with
        | Some v => Some v
        | None => Some (JObj [("metadata", JStr stored)])
        end
      else None
  | None => None
  end.

(** The arrow function mapped over [results.objects]. *)
Definition to_document (obj : WeaviateObject) : Result FromData :=
  let properties := wo_properties obj in
  let contentText := or_empty (obj_get "content" properties) in
  let contentType := or_empty (obj_get "contentType" properties) in
  let metadata := parse_metadata properties in
  let inject :=
    match reported_distance obj, metadata with
    | Some d, Some m =>
        if truthy m then
          match set_property m "_distance" (JNum d) with
          | Ok m' => Ok (Some m')
          | Err e => Err e
          end
        else Ok metadata
    | _, _ => Ok metadata
    end in
  match inject with
  | Ok metadata' =>
      Ok {| fd_data := contentText; fd_dataType := contentType;
            fd_metadata := metadata' |}
  | Err e => Err e
  end.

(** The handler given to [ai.defineRetriever]. Genkit hands it [undefined]
    for [options] when the caller gave none ([None] here). The arguments
    of [client.search] are evaluated in order before the call:
    [queryEmbeddings[0].embedding] throws on an empty array, then
    [options.k] throws on [undefined]. *)
Definition weaviateRetriever (collectionName : string)
  (embedder : EmbedderArgument) (embedderOptions : option object)
  (content : Document) (options : option WeaviateRetrieverOptions)
  : Prog (list FromData) :=
  queryEmbeddings <- await (Embed embedder content embedderOptions) ;;
  match queryEmbeddings with
  | [] => Throw (TypeError "Cannot read properties of undefined")
  | first :: _ =>
      match options with
      | None => Throw (TypeError "Cannot read properties of undefined")
      | Some options =>
          results <- search collectionName (embedding first)
                       (Some (nullish (ro_k options) 10%Q))
                       (Some {| s_distance := ro_distance options;
                                s_filters := ro_filters options |}) ;;
          match map_result to_document (objects results) with
          | Ok documents => Return documents
          | Err e => Throw e
          end
      end
  end.

(** The object literal built for one embedding of one document. *)
Definition store_object (id : string) (embeddingDoc : Document)
  (docEmbedding : Embedding) : StoreObject :=
  {| so_id := Some id;
     so_properties :=
       [ ("content", data embeddingDoc);
         ("contentType", or_empty (dataType embeddingDoc));
         ("metadata",
           JSON_stringify (JObj (nullish (metadata embeddingDoc) []))) ];
     so_vector := embedding docEmbedding |}.

(** [docEmbeddings.map((docEmbedding, j) => ...)]: [j] is the index reached,
    [n] the number of identifiers drawn so far; [embeddingDocs[j]] being
    [undefined] makes the property read throw. *)
Fixpoint chunk_objects (n : nat) (embeddingDocs : list Document) (j : nat)
  (docEmbeddings : list Embedding) : Result (list StoreObject) :=
  match docEmbeddings with
  | [] => Ok []
  | docEmbedding :: rest =>
      match embeddingDocs !! j with
      | None => Err (TypeError "Cannot read properties of undefined")
      | Some embeddingDoc =>
          match chunk_objects (S n) embeddingDocs (S j) rest with
          | Err e => Err e
          | Ok objs =>
              Ok (store_object (uuidv4 n) embeddingDoc docEmbedding :: objs)
          end
      end
  end.

(** [embeddings.map((value, i) => ...)], before [.flat()]. *)
Fixpoint document_objects (n : nat) (docs : list Document) (i : nat)
  (embeddings : list (list Embedding)) : Result (list (list StoreObject)) :=
  match embeddings with
  | [] => Ok []
  | value :: rest =>
      match docs !! i with
      | None => Err (TypeError "Cannot read properties of undefined")
      | Some doc =>
          match chunk_objects n (getEmbeddingDocuments doc value) 0 value with
          | Err e => Err e
          | Ok objs =>
              match document_objects (n + length value) docs (S i) rest with
              | Err e => Err e
              | Ok objss => Ok (objs :: objss)
              end
          end
      end
  end.

(** The [objects] array of the indexer. *)
Definition indexer_objects (docs : list Document)
  (embeddings : list (list Embedding)) : Result (list StoreObject) :=
  match document_objects 0 docs 0 embeddings with
  | Ok objss => Ok (concat objss)
  | Err e => Err e
  end.

(** [docs.map(doc => ai.embed(...))]: one embed request per document goes
    out, in the order of [docs], whatever becomes of the others; the
    settlements are collected in that order. *)
Fixpoint embed_each (embedder : EmbedderArgument)
  (embedderOptions : option object) (docs : list Document)
  : Prog (list (Result (list Embedding))) :=
  match docs with
  | [] => Return []
  | doc :: rest =>
      Await (Embed embedder doc embedderOptions)
        (fun settlement =>
           settlements <- embed_each embedder embedderOptions rest ;;
           Return (settlement :: settlements))
  end.

(** What [Promise.all] settles to: the values in order when every promise
    fulfils, a rejection when one rejects. When several reject,
    [Promise.all] takes the one that rejects first in time; the order of
    the array stands for it here. *)
Fixpoint all_fulfilled {A : Type} (settlements : list (Result A))
  : Result (list A) :=
  match settlements with
  | [] => Ok []
  | Err e :: _ => Err e
  | Ok a :: rest =>
      match all_fulfilled rest with
      | Ok values => Ok (a :: values)
      | Err e => Err e
      end
  end.

(** [await Promise.all(docs.map(doc => ai.embed(...)))]. *)
Definition embed_all (embedder : EmbedderArgument)
  (embedderOptions : option object) (docs : list Document)
  : Prog (list (list Embedding)) :=
  settlements <- embed_each embedder embedderOptions docs ;;
  match all_fulfilled settlements with
  | Ok values => Return values
  | Err e => Throw e
  end.

(** [options?.createCollectionIfMissing !== false]. *)
Definition creation_enabled (options : option WeaviateIndexerOptions) : bool :=
  match options with
  | Some o =>
      match createCollectionIfMissing o with
      | Some false => false
      | _ => true
      end
  | None => true
  end.

Definition indexer_collection_config (collectionName : string)
  (options : option WeaviateIndexerOptions) : CollectionConfig :=
  let cfg :=
    match options with
    | Some o => collectionConfig o
    | None => None
    end in
  {| name := collectionName;
     description := match cfg with Some c => ic_description c | None => None end;
     properties := match cfg with Some c => ic_properties c | None => None end |}.

(** The handler given to [ai.defineIndexer]. *)
Definition weaviateIndexer (collectionName : string)
  (embedder : EmbedderArgument) (embedderOptions : option object)
  (docs : list Document) (options : option WeaviateIndexerOptions)
  : Prog unit :=
  (if creation_enabled options then
     createCollection (indexer_collection_config collectionName options)
   else Return tt) ;;;
  embeddings <- embed_all embedder embedderOptions docs ;;
  match indexer_objects docs embeddings with
  | Ok objs => insertObjects collectionName objs
  | Err e => Throw e
  end.

End Pipelines.

(** *** References to the actions *)

(** The parameter of [weaviateRetrieverRef] and [weaviateIndexerRef]. *)
Record RefParams : Type := {
  rp_collectionName : string;
  rp_displayName : option string
}.

(** What [retrieverRef] and [indexerRef] are given: the name under which
    Genkit looks the action up, and the label; the config schema is a
    type. *)
Record ActionRef : Type := {
  ref_name : string;
  ref_label : string
}.

Definition weaviateRetrieverRef (params : RefParams) : ActionRef :=
  {| ref_name := ("weaviate/" ++ rp_collectionName params)%string;
     ref_label :=
       nullish (rp_displayName params)
         ("Weaviate - " ++ rp_collectionName params)%string |}.

Definition weaviateIndexerRef (params : RefParams) : ActionRef :=
  {| ref_name := ("weaviate/" ++ rp_collectionName params)%string;
     ref_label :=
       nullish (rp_displayName params)
         ("Weaviate - " ++ rp_collectionName params)%string |}.

(** ** The plugin ([src/index.ts]) *)

Record WeaviateCollectionParams : Type := {
  collectionName : string;
  embedder : option EmbedderArgument;
  embedderOptions : option object;
  wc_createCollectionIfMissing : option bool;
  wc_collectionConfig : option CollectionConfig
}.

Record WeaviatePluginParams : Type := {
  clientParams : WeaviateClientParams;
  collections : list WeaviateCollectionParams
}.

(** What [ai.defineRetriever] and [ai.defineIndexer] add to the registry. *)
Inductive Action : Type :=
| RetrieverAction (action_name : string) (e : EmbedderArgument)
    (options : option object)
| IndexerAction (action_name : string) (e : EmbedderArgument)
    (options : option object).

(** Truthiness of [collection.embedder]: [undefined] and the empty name
    are falsy. *)
Definition usable_embedder (e : option EmbedderArgument)
  : option EmbedderArgument :=
  match e with
  | Some (EmbedderName n) => if str_truthy n then e else None
  | Some (EmbedderRef _) => e
  | None => None
  end.

(** The [for (const collection of params.collections)] loop, on the
    registry of the Genkit instance. *)
Fixpoint configure (cs : list WeaviateCollectionParams)
  (registry : list Action) : list Action * Result unit :=
  match cs with
  | [] => (registry, Ok tt)
  | collection :: rest =>
      match usable_embedder (embedder collection) with
      | None =>
          (registry,
           Err (Error ("Embedder is required for collection '"
                       ++ collectionName collection ++ "'")))
      | Some e =>
          let action_name :=
            ("weaviate/" ++ collectionName collection)%string in
          configure rest
            (registry ++
             [ RetrieverAction action_name e (embedderOptions collection);
               IndexerAction action_name e (embedderOptions collection) ])
      end
  end.

(** The state the plugin initializer leaves behind. *)
Record PluginState : Type := {
  plugin_client : World;
  plugin_registry : list Action
}.

(** The initializer passed to [genkitPlugin]. *)
Definition weaviate (params : WeaviatePluginParams) (registry : list Action)
  : PluginState * Result unit :=
  let client := construct (clientParams params) in
  let '(registry', r) := configure (collections params) registry in
  ({| plugin_client := client; plugin_registry := registry' |}, r).

(** ** A reference [JSON] codec

    An executable instance of the interface: ECMAScript's grammar and
    escapes over 8-bit strings, with integers written in decimal.
    [ref_stringify] prints without white space, as [JSON.stringify] does
    when given no indent; [ref_parse] accepts white space, fractions and
    exponents as [JSON.parse] does. *)

Local Open Scope char_scope.

Definition dquote : ascii := "034".
Definition backslash : ascii := "092".

Definition is_ws (c : ascii) : bool :=
  match c with
  | " " | "009" | "010" | "013" => true
  | _ => false
  end.

Fixpoint skip_ws (l : list ascii) : list ascii :=
  match l with
  | c :: l' => if is_ws c then skip_ws l' else l
  | [] => []
  end.

Definition digit_of_ascii (c : ascii) : option (Decimal.uint -> Decimal.uint) :=
  match c with
  | "0" => Some Decimal.D0 | "1" => Some Decimal.D1 | "2" => Some Decimal.D2
  | "3" => Some Decimal.D3 | "4" => Some Decimal.D4 | "5" => Some Decimal.D5
  | "6" => Some Decimal.D6 | "7" => Some Decimal.D7 | "8" => Some Decimal.D8
  | "9" => Some Decimal.D9
  | _ => None
  end.

Fixpoint uint_chars (d : Decimal.uint) : list ascii :=
  match d with
  | Decimal.Nil => []
  | Decimal.D0 d' => "0" :: uint_chars d'
  | Decimal.D1 d' => "1" :: uint_chars d'
  | Decimal.D2 d' => "2" :: uint_chars d'
  | Decimal.D3 d' => "3" :: uint_chars d'
  | Decimal.D4 d' => "4" :: uint_chars d'
  | Decimal.D5 d' => "5" :: uint_chars d'
  | Decimal.D6 d' => "6" :: uint_chars d'
  | Decimal.D7 d' => "7" :: uint_chars d'
  | Decimal.D8 d' => "8" :: uint_chars d'
  | Decimal.D9 d' => "9" :: uint_chars d'
  end.

(** The longest run of digits at the front. *)
Fixpoint read_digits (l : list ascii) : Decimal.uint * list ascii :=
  match l with
  | c :: l' =>
      match digit_of_ascii c with
      | Some D => let '(d, rest) := read_digits l' in (D d, rest)
      | None => (Decimal.Nil, l)
      end
  | [] => (Decimal.Nil, [])
  end.

Definition print_Z (z : Z) : list ascii :=
  match z with
  | Z0 => ["0"]
  | Zpos p => uint_chars (Pos.to_uint p)
  | Zneg p => "-" :: uint_chars (Pos.to_uint p)
  end.

(** Integers in decimal; anything else as [null], which is what
    [JSON.stringify] prints for a number it cannot write. *)
Definition print_number (n : number) : list ascii :=
  match n with
  | Qmake z xH => print_Z z
  | _ => ["n"; "u"; "l"; "l"]
  end.

(** [int], after the sign: a lone [0], or digits starting with [1]-[9]. *)
Definition read_int (l : list ascii) : option (Decimal.uint * list ascii) :=
  match l with
  | "0" :: l' => Some (Decimal.D0 Decimal.Nil, l')
  | c :: _ =>
      match digit_of_ascii c with
      | Some _ => Some (read_digits l)
      | None => None
      end
  | [] => None
  end.

(** [frac]: a dot and at least one digit. *)
Definition read_frac (l : list ascii) : option (Decimal.uint * list ascii) :=
  match l with
  | "." :: l' =>
      match read_digits l' with
      | (Decimal.Nil, _) => None
      | (f, rest) => Some (f, rest)
      end
  | _ => Some (Decimal.Nil, l)
  end.

(** [exp]: [e] or [E], a sign, at least one digit. *)
Definition read_exp (l : list ascii) : option (Z * list ascii) :=
  let digits (neg : bool) (l' : list ascii) :=
    match read_digits l' with
    | (Decimal.Nil, _) => None
    | (d, rest) =>
        let e := Z.of_N (N.of_uint d) in
        Some (if neg then (- e)%Z else e, rest)
    end in
  match l with
  | "e" :: l' | "E" :: l' =>
      match l' with
      | "-" :: l'' => digits true l''
      | "+" :: l'' => digits false l''
      | _ => digits false l'
      end
  | _ => Some (0%Z, l)
  end.

(** The value of sign, digits, fraction digits and exponent. *)
Definition make_number (neg : bool) (i f : Decimal.uint) (e : Z) : number :=
  let scale := Z.of_nat (Decimal.nb_digits f) in
  let m := (Z.of_N (N.of_uint i) * 10 ^ scale + Z.of_N (N.of_uint f))%Z in
  let z := if neg then (- m)%Z else m in
  let shift := (e - scale)%Z in
  if (0 <=? shift)%Z then Qmake (z * 10 ^ shift) 1
  else Qred (Qmake z (Z.to_pos (10 ^ (- shift)))).

Definition parse_number (l : list ascii) : option (number * list ascii) :=
  let '(neg, l1) :=
    match l with
    | "-" :: l' => (true, l')
    | _ => (false, l)
    end in
  match read_int l1 with
  | None => None
  | Some (i, l2) =>
      match read_frac l2 with
      | None => None
      | Some (f, l3) =>
          match read_exp l3 with
          | None => None
          | Some (e, l4) => Some (make_number neg i f e, l4)
          end
      end
  end.

Definition hex_char (n : N) : ascii :=
  match n with
  | 0%N => "0" | 1%N => "1" | 2%N => "2" | 3%N => "3" | 4%N => "4"
  | 5%N => "5" | 6%N => "6" | 7%N => "7" | 8%N => "8" | 9%N => "9"
  | 10%N => "a" | 11%N => "b" | 12%N => "c" | 13%N => "d" | 14%N => "e"
  | _ => "f"
  end.

Definition hex_value (c : ascii) : option N :=
  match c with
  | "0" => Some 0%N | "1" => Some 1%N | "2" => Some 2%N | "3" => Some 3%N
  | "4" => Some 4%N | "5" => Some 5%N | "6" => Some 6%N | "7" => Some 7%N
  | "8" => Some 8%N | "9" => Some 9%N
  | "a" | "A" => Some 10%N | "b" | "B" => Some 11%N | "c" | "C" => Some 12%N
  | "d" | "D" => Some 13%N | "e" | "E" => Some 14%N | "f" | "F" => Some 15%N
  | _ => None
  end.

(** One character of a string, as [JSON.stringify] quotes it. *)
Definition print_char (c : ascii) : list ascii :=
  let n := N_of_ascii c in
  if Ascii.eqb c dquote then [backslash; dquote]
  else if Ascii.eqb c backslash then [backslash; backslash]
  else if (n <? 32)%N then
    match n with
    | 8%N => [backslash; "b"]
    | 9%N => [backslash; "t"]
    | 10%N => [backslash; "n"]
    | 12%N => [backslash; "f"]
    | 13%N => [backslash; "r"]
    | _ => [backslash; "u"; "0"; "0"; hex_char (n / 16); hex_char (n mod 16)]
    end
  else [c].

Fixpoint print_chars (s : list ascii) : list ascii :=
  match s with
  | [] => []
  | c :: s' => print_char c ++ print_chars s'
  end.

Definition print_string (s : string) : list ascii :=
  dquote :: print_chars (list_ascii_of_string s) ++ [dquote].

(** The character named by [\uXXXX], when it fits the 8-bit strings of this
    model. *)
Definition unicode_escape (h1 h2 h3 h4 : ascii) : option ascii :=
  match hex_value h1, hex_value h2, hex_value h3, hex_value h4 with
  | Some a, Some b, Some c, Some d =>
      let n := (((a * 16 + b) * 16 + c) * 16 + d)%N in
      if (n <? 256)%N then Some (ascii_of_N n) else None
  | _, _, _, _ => None
  end.

(** The rest of a string literal, after its opening quote. *)
Fixpoint read_chars (l : list ascii) : option (list ascii * list ascii) :=
  let cons_to (c : ascii) (r : option (list ascii * list ascii)) :=
    match r with
    | Some (s, rest) => Some (c :: s, rest)
    | None => None
    end in
  match l with
  | [] => None
  | c :: l' =>
      if Ascii.eqb c dquote then Some ([], l')
      else if Ascii.eqb c backslash then
        match l' with
        | "b" :: l'' => cons_to "008" (read_chars l'')
        | "t" :: l'' => cons_to "009" (read_chars l'')
        | "n" :: l'' => cons_to "010" (read_chars l'')
        | "f" :: l'' => cons_to "012" (read_chars l'')
        | "r" :: l'' => cons_to "013" (read_chars l'')
        | "/" :: l'' => cons_to "/" (read_chars l'')
        | "u" :: h1 :: h2 :: h3 :: h4 :: l'' =>
            match unicode_escape h1 h2 h3 h4 with
            | Some c' => cons_to c' (read_chars l'')
            | None => None
            end
        | c' :: l'' =>
            if Ascii.eqb c' dquote then cons_to dquote (read_chars l'')
            else if Ascii.eqb c' backslash then
              cons_to backslash (read_chars l'')
            else None
        | [] => None
        end
      else if (N_of_ascii c <? 32)%N then None
      else cons_to c (read_chars l')
  end.

Definition read_string (l : list ascii) : option (string * list ascii) :=
  match read_chars l with
  | Some (s, rest) => Some (string_of_list_ascii s, rest)
  | None => None
  end.

(** [keyword w l]: [l] without its prefix [w]. *)
Fixpoint keyword (w l : list ascii) : option (list ascii) :=
  match w, l with
  | [], _ => Some l
  | a :: w', b :: l' => if Ascii.eqb a b then keyword w' l' else None
  | _ :: _, [] => None
  end.

(** [l] without its first character, when that is [c]. *)
Definition starts_with (c : ascii) (l : list ascii) : option (list ascii) :=
  match l with
  | c' :: rest => if Ascii.eqb c' c then Some rest else None
  | [] => None
  end.

Fixpoint print_value (v : json) : list ascii :=
  match v with
  | JNull => ["n"; "u"; "l"; "l"]
  | JBool true => ["t"; "r"; "u"; "e"]
  | JBool false => ["f"; "a"; "l"; "s"; "e"]
  | JNum n => print_number n
  | JStr s => print_string s
  | JArr elems _ =>
      "[" ::
      (fix print_elems (l : list json) : list ascii :=
         match l with
         | [] => ["]"]
         | x :: l' =>
             print_value x ++
             match l' with
             | [] => ["]"]
             | _ :: _ => "," :: print_elems l'
             end
         end) elems
  | JObj props =>
      "{" ::
      (fix print_members (o : object) : list ascii :=
         match o with
         | [] => ["}"]
         | (k, x) :: o' =>
             print_string k ++ ":" :: print_value x ++
             match o' with
             | [] => ["}"]
             | _ :: _ => "," :: print_members o'
             end
         end) props
  end.

(** Recursive descent; [fuel] bounds the nesting of calls. [parse_elems]
    and [parse_members] read what follows a bracket or a comma, with the
    elements and members read so far. A repeated key overwrites. *)
Fixpoint parse_value (fuel : nat) (l : list ascii)
  : option (json * list ascii) :=
  match fuel with
  | O => None
  | S fuel' =>
      match skip_ws l with
      | [] => None
      | c :: l' =>
          if Ascii.eqb c dquote then
            match read_string l' with
            | Some (s, rest) => Some (JStr s, rest)
            | None => None
            end
          else
            match c with
            | "n" =>
                match keyword ["u"; "l"; "l"] l' with
                | Some rest => Some (JNull, rest)
                | None => None
                end
            | "t" =>
                match keyword ["r"; "u"; "e"] l' with
                | Some rest => Some (JBool true, rest)
                | None => None
                end
            | "f" =>
                match keyword ["a"; "l"; "s"; "e"] l' with
                | Some rest => Some (JBool false, rest)
                | None => None
                end
            | "[" =>
                match starts_with "]" (skip_ws l') with
                | Some rest => Some (JArr [] [], rest)
                | None => parse_elems fuel' l' []
                end
            | "{" =>
                match starts_with "}" (skip_ws l') with
                | Some rest => Some (JObj [], rest)
                | None => parse_members fuel' l' []
                end
            | _ =>
                match parse_number (c :: l') with
                | Some (n, rest) => Some (JNum n, rest)
                | None => None
                end
            end
      end
  end
with parse_elems (fuel : nat) (l : list ascii) (acc : list json)
  : option (json * list ascii) :=
  match fuel with
  | O => None
  | S fuel' =>
      match parse_value fuel' l with
      | None => None
      | Some (x, l1) =>
          match skip_ws l1 with
          | "," :: l2 => parse_elems fuel' l2 (acc ++ [x])
          | "]" :: rest => Some (JArr (acc ++ [x]) [], rest)
          | _ => None
          end
      end
  end
with parse_members (fuel : nat) (l : list ascii) (acc : object)
  : option (json * list ascii) :=
  match fuel with
  | O => None
  | S fuel' =>
      match skip_ws l with
      | c :: l0 =>
          if Ascii.eqb c dquote then
            match read_string l0 with
            | None => None
            | Some (k, l1) =>
                match skip_ws l1 with
                | ":" :: l2 =>
                    match parse_value fuel' l2 with
                    | None => None
                    | Some (x, l3) =>
                        match skip_ws l3 with
                        | "," :: l4 => parse_members fuel' l4 (obj_set k x acc)
                        | "}" :: rest => Some (JObj (obj_set k x acc), rest)
                        | _ => None
                        end
                    end
                | _ => None
                end
            end
          else None
      | [] => None
      end
  end.

Local Close Scope char_scope.

Definition ref_stringify (v : json) : string :=
  string_of_list_ascii (print_value v).

(** The whole text must be one value, white space apart. *)
Definition ref_parse (s : string) : option json :=
  let l := list_ascii_of_string s in
  match parse_value (S (length l)) l with
  | Some (v, rest) =>
      match skip_ws rest with
      | [] => Some v
      | _ :: _ => None
      end
  | None => None
  end.

(** Values the reference codec writes and reads back unchanged: integers,
    arrays without named properties, objects without repeated keys. *)
Fixpoint ref_serializable (v : json) : bool :=
  match v with
  | JNull | JBool _ | JStr _ => true
  | JNum (Qmake _ xH) => true
  | JNum _ => false
  | JArr elems props =>
      match props with [] => true | _ :: _ => false end &&
      forallb ref_serializable elems
  | JObj props =>
      (fix members (seen : list string) (o : object) : bool :=
         match o with
         | [] => true
         | (k, x) :: o' =>
             negb (existsb (String.eqb k) seen) &&
             ref_serializable x && members (k :: seen) o'
         end) [] props
  end.

(** What [ref_parse] reads back from [ref_stringify v]: a number that is
    not an integer was written [null], the named properties of an array
    were not written, and of two members with the same key the second
    overwrote the first. *)
Fixpoint ref_normal (v : json) : json :=
  match v with
  | JNull | JBool _ | JStr _ => v
  | JNum (Qmake _ xH) => v
  | JNum _ => JNull
  | JArr elems _ => JArr (map ref_normal elems) []
  | JObj props =>
      JObj ((fix members (o acc : object) : object :=
               match o with
               | [] => acc
               | (k, x) :: o' => members o' (obj_set k (ref_normal x) acc)
               end) props [])
  end.

Definition reference_codec : JSONCodec :=
  {| JSON_stringify := ref_stringify;
     JSON_parse := ref_parse;
     serializable := fun v => ref_serializable v = true |}.

(** ** Vocabulary of the statements *)

(** *** The event loop *)

(** The promise stored by the constructor is either the pending connection
    request, whose settlement ends [initialize], or already settled. *)
Definition pending_or_final (p : Prog WeaviateClient) : Prop :=
  match p with
  | Await c k => forall r, issues (k r) = [] /\ settled (k r) <> None
  | Return _ | Throw _ => True
  | AwaitInit _ => False
  end.

(** A task has not moved while the promise is pending, and afterwards is
    somewhere along its body, run with the settlement of the promise. *)
Definition task_inv (init : Prog WeaviateClient) (t : Task) : Prop :=
  connect_free (t_state t) /\
  match settled init with
  | None => t_state t = body (t_op t)
  | Some r =>
      runs_to r (body (t_op t)) (t_state t) /\ on_connection r (t_state t)
  end.

(** A request already out is the connection request, or goes to the client
    the connection request resolved to. *)
Definition request_inv (init : Prog WeaviateClient) (req : Request) : Prop :=
  is_connect req = true \/
  exists client,
    settled init = Some (Ok client) /\ request_client req = Some client.

Record world_inv (params : WeaviateClientParams) (w : World) : Prop := {
  inv_connects :
    List.filter is_connect (requests w) = issues (initialize params);
  inv_pending :
    settled (initPromise w) = None -> requests w = issues (initialize params);
  inv_init : pending_or_final (initPromise w);
  inv_requests :
    forall req, In req (requests w) -> request_inv (initPromise w) req;
  inv_tasks :
    forall i t, tasks w !! i = Some t -> task_inv (initPromise w) t
}.

(** *** Retrieval *)

(** The store hands an object back with the properties it was given. *)
Definition retrieved_as (written : StoreObject) (obj : WeaviateObject) : Prop :=
  wo_properties obj = io_properties (insert_payload written).

(** [obj.properties.content] of a written object. *)
Definition so_content (obj : StoreObject) : string :=
  or_empty (obj_get "content" (so_properties obj)).

(** A value that can take a property: an object or an array. *)
Definition is_object (v : json) : bool :=
  match v with
  | JObj _ | JArr _ _ => true
  | _ => false
  end.

(** The document made from [obj], its metadata apart. *)
Definition document_with (obj : WeaviateObject) (metadata : option json)
  : FromData :=
  {| fd_data := or_empty (obj_get "content" (wo_properties obj));
     fd_dataType := or_empty (obj_get "contentType" (wo_properties obj));
     fd_metadata := metadata |}.

(** The distance reached the document: it is the [_distance] property of
    the metadata handed to [Document.fromData]. *)
Definition distance_injected {codec : JSONCodec} (obj : WeaviateObject)
  (d : number) : Prop :=
  exists doc m,
    to_document obj = Ok doc /\ fd_metadata doc = Some m /\
    get_property m "_distance" = Some (JNum d).

(** The distance was dropped without an error: the document carries the
    metadata as parsed, and no [_distance]. *)
Definition distance_dropped {codec : JSONCodec} (obj : WeaviateObject) : Prop :=
  to_document obj =
    Ok (document_with obj (parse_metadata (wo_properties obj))) /\
  match parse_metadata (wo_properties obj) with
  | Some m => get_property m "_distance" = None
  | None => True
  end.

(** The result has a metadata object to put the distance in: a stored
    text that is not empty and either does not parse (the wrapper object
    is made) or parses to an object or array. *)
Definition metadata_object_present {codec : JSONCodec} (obj : WeaviateObject)
  : Prop :=
  exists stored,
    obj_get "metadata" (wo_properties obj) = Some stored /\
    stored <> EmptyString /\
    match JSON_parse stored with
    | Some m => is_object m = true
    | None => True
    end.

(** [obj] is the object literal of the indexer for the chunk [chunk] of
    [doc], embedded as [value]. *)
Definition written_for {codec : JSONCodec}
  (getEmbeddingDocuments : Document -> list Embedding -> list Document)
  (doc : Document) (value : list Embedding) (chunk : Document)
  (obj : StoreObject) : Prop :=
  In chunk (getEmbeddingDocuments doc value) /\
  exists id e, In e value /\ obj = store_object id chunk e.

(** [obj] came back from the store with the properties of an object
    literal of the indexer. *)
Definition indexer_written {codec : JSONCodec} (obj : WeaviateObject) : Prop :=
  exists id chunk e, retrieved_as (store_object id chunk e) obj.

(** The embedder answers the requests for [docs], sent from the [n]-th
    request on, with [embeddings]. *)
Definition embedder_answers (env : Env) (n : nat) (e : EmbedderArgument)
  (eo : option object) (docs : list Document)
  (embeddings : list (list Embedding)) : Prop :=
  length embeddings = length docs /\
  forall k doc value,
    docs !! k = Some doc -> embeddings !! k = Some value ->
    env (n + k) _ (Embed e doc eo) = Ok value.

(** The settlements of the embed requests for [docs], sent from the
    [n]-th request on. *)
Fixpoint embed_settlements (env : Env) (n : nat) (e : EmbedderArgument)
  (eo : option object) (docs : list Document)
  : list (Result (list Embedding)) :=
  match docs with
  | [] => []
  | doc :: rest =>
      env n _ (Embed e doc eo) :: embed_settlements env (S n) e eo rest
  end.

(** The optional first step of an indexing call. *)
Definition provision (collectionName : string)
  (options : option WeaviateIndexerOptions) : Prog unit :=
  if creation_enabled options then
    createCollection (indexer_collection_config collectionName options)
  else Return tt.

(** *** The plugin *)

(** The two actions registered for a collection that has an embedder. *)
Definition registered_for (collection : WeaviateCollectionParams)
  : list Action :=
  match usable_embedder (embedder collection) with
  | Some e =>
      [ RetrieverAction ("weaviate/" ++ collectionName collection)%string e
          (embedderOptions collection);
        IndexerAction ("weaviate/" ++ collectionName collection)%string e
          (embedderOptions collection) ]
  | None => []
  end.

(** The error thrown for a collection without embedder. *)
Definition missing_embedder (collection : WeaviateCollectionParams) : exn :=
  Error ("Embedder is required for collection '"
         ++ collectionName collection ++ "'").

(** Genkit's registry holds one action per kind and name: an action
    defined under a name already taken replaces the earlier one. Looking
    a name up among the definitions made so far gives the last match. *)
Fixpoint last_match {A : Type} (f : A -> bool) (l : list A) : option A :=
  match l with
  | [] => None
  | a :: l' =>
      match last_match f l' with
      | Some b => Some b
      | None => if f a then Some a else None
      end
  end.

Definition is_retriever_named (n : string) (a : Action) : bool :=
  match a with
  | RetrieverAction n' _ _ => String.eqb n n'
  | IndexerAction _ _ _ => false
  end.

Definition is_indexer_named (n : string) (a : Action) : bool :=
  match a with
  | IndexerAction n' _ _ => String.eqb n n'
  | RetrieverAction _ _ _ => false
  end.

(** What a retriever reference and an indexer reference resolve to. *)
Definition resolve_retriever (ref : ActionRef) (registry : list Action)
  : option Action :=
  last_match (is_retriever_named (ref_name ref)) registry.

Definition resolve_indexer (ref : ActionRef) (registry : list Action)
  : option Action :=
  last_match (is_indexer_named (ref_name ref)) registry.

(** The entry as the registration loop reads it: [createCollectionIfMissing]
    and [collectionConfig] left out. *)
Definition read_by_setup (collection : WeaviateCollectionParams)
  : WeaviateCollectionParams :=
  {| collectionName := collectionName collection;
     embedder := embedder collection;
     embedderOptions := embedderOptions collection;
     wc_createCollectionIfMissing := None;
     wc_collectionConfig := None |}.

(** *** Runs *)

(** Any number of turns of the event loop. *)
Inductive steps : World -> World -> Prop :=
| steps_refl (w : World) : steps w w
| steps_step (w w' w'' : World) : steps w w' -> step w' w'' -> steps w w''.

Definition is_insert (r : Request) : bool :=
  match r with
  | Req (InsertMany _ _ _) => true
  | Req _ => false
  end.

Definition is_embed (r : Request) : bool :=
  match r with
  | Req (Embed _ _ _) => true
  | Req _ => false
  end.

(** The requests [deleteObjects] makes for [ids]. *)
Definition delete_requests (client : WeaviateClient) (collectionName : string)
  (ids : list string) : list Request :=
  map (fun id => Req (DeleteById client collectionName id)) ids.

(** The query the retriever sends for the embedding [first]. *)
Definition retriever_query (client : WeaviateClient) (collectionName : string)
  (options : WeaviateRetrieverOptions) (first : Embedding)
  : Call (list WeaviateObject) :=
  NearVector client collectionName (embedding first)
    {| nv_limit := nullish (ro_k options) 10%Q;
       nv_returnMetadata := ["distance"];
       nv_distance := ro_distance options;
       nv_filters := ro_filters options |}.

(** The identifiers of the first [n] calls of [uuidv4()], as [id]
    fields. *)
Definition drawn_ids (uuidv4 : nat -> string) (n : nat) : list (option string) :=
  map (fun k => Some (uuidv4 k)) (seq 0 n).

(** Genkit returned a chunk for every embedding of every document. *)
Definition enough_chunks
  (getEmbeddingDocuments : Document -> list Embedding -> list Document)
  (docs : list Document) (embeddings : list (list Embedding)) : Prop :=
  forall i value, embeddings !! i = Some value ->
    exists doc, docs !! i = Some doc /\
      length value <= length (getEmbeddingDocuments doc value).

(** *** The reference codec *)

Definition no_digit_ahead (rest : list ascii) : Prop :=
  read_digits rest = (Decimal.Nil, rest).

(** What can stand right after a number, hence after any value. *)
Definition number_ends (rest : list ascii) : Prop :=
  read_digits rest = (Decimal.Nil, rest) /\
  read_frac rest = Some (Decimal.Nil, rest) /\
  read_exp rest = Some (0%Z, rest).

Definition value_ends (rest : list ascii) : Prop := number_ends rest.

(** The loops of [print_value] and [ref_serializable], by name. *)
Fixpoint print_elems (l : list json) : list ascii :=
  match l with
  | [] => ["]"%char]
  | x :: l' =>
      print_value x ++
      match l' with
      | [] => ["]"%char]
      | _ :: _ => ","%char :: print_elems l'
      end
  end.

Fixpoint print_members (o : object) : list ascii :=
  match o with
  | [] => ["}"%char]
  | (k, x) :: o' =>
      print_string k ++ ":"%char :: print_value x ++
      match o' with
      | [] => ["}"%char]
      | _ :: _ => ","%char :: print_members o'
      end
  end.

Fixpoint ser_members (seen : list string) (o : object) : bool :=
  match o with
  | [] => true
  | (k, x) :: o' =>
      negb (existsb (String.eqb k) seen) &&
      ref_serializable x && ser_members (k :: seen) o'
  end.

(** The fuel [parse_value] needs to read a printed value back. *)
Fixpoint json_size (v : json) : nat :=
  match v with
  | JArr elems _ =>
      S ((fix elems_size (l : list json) : nat :=
            match l with
            | [] => 0
            | x :: l' => S (json_size x + elems_size l')
            end) elems)
  | JObj props =>
      S ((fix members_size (o : object) : nat :=
            match o with
            | [] => 0
            | (_, x) :: o' => S (json_size x + members_size o')
            end) props)
  | _ => 1
  end.

Fixpoint elems_size (l : list json) : nat :=
  match l with
  | [] => 0
  | x :: l' => S (json_size x + elems_size l')
  end.

Fixpoint members_size (o : object) : nat :=
  match o with
  | [] => 0
  | (_, x) :: o' => S (json_size x + members_size o')
  end.

Fixpoint normal_members (o acc : object) : object :=
  match o with
  | [] => acc
  | (k, x) :: o' => normal_members o' (obj_set k (ref_normal x) acc)
  end.

(** [parse_value] reads the printed [v] back, whatever follows it. *)
Definition reads_back (v : json) : Prop :=
  forall fuel rest, json_size v <= fuel -> value_ends rest ->
    parse_value fuel (print_value v ++ rest) = Some (ref_normal v, rest).

(** ** Examples *)

Definition local_params : WeaviateClientParams :=
  {| host := "localhost"; port := None; grpcPort := None; secure := None;
     apiKey := None; headers := None; timeout := None |}.

Definition refused : exn := Rejection "connect ECONNREFUSED".

(** Two methods are called while the connection is in flight, the
    connection is refused, the first method resumes. *)
Definition example_called : World :=
  invoke (OpDeleteCollection "Documents")
    (invoke (OpCollectionExists "Documents") (construct local_params)).

Definition example_refused : World :=
  set_init (Throw refused) example_called.

Definition example_run : World :=
  set_task 0 {| t_op := OpCollectionExists "Documents";
                t_state := body (OpCollectionExists "Documents") |}
    (Throw refused) example_refused.

(** An environment in which no collection exists yet: looking one up
    fails, everything else succeeds. *)
Definition empty_store : Env :=
  fun _ T c =>
    match c in Call T return Result T with
    | ConnectToWeaviateCloud _ _ => Ok (ClientHandle 0)
    | ConnectToLocal _ _ _ _ => Ok (ClientHandle 0)
    | ConfigGet _ _ => Err (Rejection "collection not found")
    | CollectionsCreate _ _ => Ok tt
    | InsertMany _ _ _ => Ok tt
    | NearVector _ _ _ _ => Ok []
    | DeleteById _ _ _ => Ok tt
    | CollectionsDelete _ _ => Ok tt
    | AggregateOverAll _ _ => Ok 0%Q
    | Embed _ _ _ => Ok []
    end.

Definition documents_config : CollectionConfig :=
  {| name := "Documents"; description := None; properties := None |}.

Definition no_embedder (n : string) : WeaviateCollectionParams :=
  {| collectionName := n; embedder := None; embedderOptions := None;
     wc_createCollectionIfMissing := None; wc_collectionConfig := None |}.

Definition with_embedder (n : string) : WeaviateCollectionParams :=
  {| collectionName := n;
     embedder := Some (EmbedderName "googleai/text-embedding-004");
     embedderOptions := None;
     wc_createCollectionIfMissing := None; wc_collectionConfig := None |}.

Definition three_collections : WeaviatePluginParams :=
  {| clientParams := local_params;
     collections := [with_embedder "Articles"; no_embedder "Books";
                     no_embedder "Notes"] |}.

Definition two_unconfigured : WeaviatePluginParams :=
  {| clientParams := local_params;
     collections := [no_embedder "Books"; no_embedder "Notes"] |}.

(** A result object of a search, with the distance the store reports. *)
Definition result_object (stored_metadata : string) (d : option number)
  : WeaviateObject :=
  {| wo_uuid := "5f0c6a3e-0000-4000-8000-000000000001";
     wo_properties := [("content", "Weaviate is a vector database");
                       ("contentType", "text");
                       ("metadata", stored_metadata)];
     wo_metadata := Some {| distance := d |} |}.

(** The document of the README, as a chunk. *)
Definition docs_chunk : Document :=
  {| data := "Weaviate is a vector database";
     dataType := Some "text";
     metadata := Some [("source", JStr "docs")] |}.

Definition bare_chunk : Document :=
  {| data := "Genkit is an AI framework"; dataType := None;
     metadata := None |}.

(** An embedder view that cuts a document into one chunk per embedding,
    numbered in order. *)
Definition numbered_chunks (doc : Document) (es : list Embedding)
  : list Document :=
  imap (fun j _ =>
          {| data := (data doc ++ "#" ++ String (ascii_of_nat (48 + j)) EmptyString)%string;
             dataType := dataType doc;
             metadata := metadata doc |}) es.

Definition sequential_ids (n : nat) : string :=
  String (ascii_of_nat (97 + n)) EmptyString.

Definition unit_vector (x : Z) : Embedding :=
  {| embedding := [inject_Z x; 0%Q] |}.

Definition example_docs : list Document := [docs_chunk; bare_chunk].

Definition example_embeddings : list (list Embedding) :=
  [[unit_vector 1; unit_vector 2; unit_vector 3]; [unit_vector 4]].

(** The batch built for the two documents, the first one cut in three. *)
Definition example_batch : list StoreObject :=
  match indexer_objects (codec := reference_codec) numbered_chunks
          sequential_ids example_docs example_embeddings with
  | Ok batch => batch
  | Err _ => []
  end.

(** A cloud instance, and a local one with every optional parameter set. *)
Definition cloud_params : WeaviateClientParams :=
  {| host := "my-cluster.weaviate.network"; port := Some 9090%Z;
     grpcPort := None; secure := None; apiKey := Some "secret";
     headers := None; timeout := None |}.

Definition tuned_params : WeaviateClientParams :=
  {| host := "localhost"; port := None; grpcPort := None;
     secure := Some true; apiKey := None; headers := None;
     timeout := Some 5000%Z |}.

(** A store that has every collection, refuses to delete the object [b],
    and an embedder that returns one vector per document. *)
Definition populated_store : Env :=
  fun _ T c =>
    match c in Call T return Result T with
    | ConnectToWeaviateCloud _ _ => Ok (ClientHandle 0)
    | ConnectToLocal _ _ _ _ => Ok (ClientHandle 0)
    | ConfigGet _ n => Ok n
    | CollectionsCreate _ _ => Ok tt
    | InsertMany _ _ _ => Ok tt
    | NearVector _ _ _ _ =>
        Ok [ {| wo_uuid := "1"; wo_properties := [("content", "first")];
                wo_metadata := None |};
             {| wo_uuid := "2"; wo_properties := [("content", "second")];
                wo_metadata := None |} ]
    | DeleteById _ _ id =>
        if String.eqb id "b" then Err (Rejection "not found") else Ok tt
    | CollectionsDelete _ _ => Ok tt
    | AggregateOverAll _ _ => Ok 2%Q
    | Embed _ _ _ => Ok [ {| embedding := [1%Q; 0%Q] |} ]
    end.

(** A store in which a collection exists from the third request on, after
    the lookup and the creation. *)
Definition created_on_demand : Env :=
  fun n T c =>
    match c in Call T return Result T with
    | ConfigGet _ name =>
        if Nat.ltb n 2 then Err (Rejection "collection not found") else Ok name
    | c => populated_store n _ c
    end.

(** An embedder that is down, and a store that cannot create. *)
Definition embedder_down : Env :=
  fun n T c =>
    match c in Call T return Result T with
    | Embed _ _ _ => Err (Rejection "embedder unavailable")
    | c => populated_store n _ c
    end.

Definition read_only_store : Env :=
  fun n T c =>
    match c in Call T return Result T with
    | CollectionsCreate _ _ => Err (Rejection "read only")
    | c => empty_store n _ c
    end.

(** A view of Genkit that returns no chunk at all, and one chunk per
    document (the document itself). *)
Definition no_chunks (doc : Document) (es : list Embedding) : list Document :=
  [].

Definition whole_document (doc : Document) (es : list Embedding)
  : list Document := [doc].

(** A view of Genkit that returns two chunks whatever the embeddings. *)
Definition surplus_chunks (doc : Document) (es : list Embedding)
  : list Document := [doc; bare_chunk].

(** A view of Genkit that gives every chunk the metadata of the document
    with an entry of its own added, as Genkit does for a document with
    several embeddings. *)
Definition tagged_chunks (doc : Document) (es : list Embedding)
  : list Document :=
  map (fun _ =>
         {| data := data doc; dataType := dataType doc;
            metadata :=
              Some (obj_set "embedMetadata" (JStr "x")
                      (nullish (metadata doc) [])) |}) es.

Definition no_creation : WeaviateIndexerOptions :=
  {| createCollectionIfMissing := Some false; collectionConfig := None |}.

Definition retrieve_all : WeaviateRetrieverOptions :=
  {| ro_k := None; ro_distance := None; ro_filters := None |}.

Definition two_collections : WeaviatePluginParams :=
  {| clientParams := local_params;
     collections := [with_embedder "Articles"; with_embedder "Books"] |}.

(** An embedder that returns two vectors per document, and a store that
    answers a query with the first object written for [docs_chunk] under
    [tagged_chunks]. *)
Definition tagged_store : Env :=
  fun n T c =>
    match c in Call T return Result T with
    | Embed _ _ _ => Ok [unit_vector 1; unit_vector 2]
    | NearVector _ _ _ _ =>
        Ok [ {| wo_uuid := "a";
                wo_properties :=
                  so_properties
                    (store_object (codec := reference_codec) "a"
                       {| data := data docs_chunk;
                          dataType := dataType docs_chunk;
                          metadata :=
                            Some [("source", JStr "docs");
                                  ("embedMetadata", JStr "x")] |}
                       (unit_vector 1));
                wo_metadata := None |} ]
    | c => populated_store n _ c
    end.

(** [close()] called on a fresh instance. *)
Definition example_closed : World :=
  invoke OpClose (construct local_params).

(** Indexer options that ask for a property [title], and the same
    without. *)
Definition titled_options : WeaviateIndexerOptions :=
  {| createCollectionIfMissing := None;
     collectionConfig :=
       Some {| ic_description := Some "Articles";
               ic_properties :=
                 Some [ {| ps_name := "title"; ps_dataType := "text";
                           ps_description := None |} ] |} |}.

Definition untitled_options : WeaviateIndexerOptions :=
  {| createCollectionIfMissing := None;
     collectionConfig :=
       Some {| ic_description := Some "Articles";
               ic_properties := None |} |}.

(** * Proofs *)

(** ** The reference codec is lawful *)

Lemma read_uint_chars (d : Decimal.uint) (rest : list ascii) :
  no_digit_ahead rest -> read_digits (uint_chars d ++ rest) = (d, rest).
Proof.
  intros Hrest. induction d; simpl; try rewrite IHd; auto.
Qed.

Lemma to_uint_unorm (p : positive) :
  Decimal.unorm (Pos.to_uint p) = Pos.to_uint p.
Proof.
  rewrite <- DecimalPos.Unsigned.to_of.
  rewrite DecimalPos.Unsigned.of_to. reflexivity.
Qed.

Lemma to_uint_head (p : positive) :
  match Pos.to_uint p with
  | Decimal.Nil | Decimal.D0 _ => False
  | _ => True
  end.
Proof.
  pose proof (to_uint_unorm p) as Hn.
  pose proof (DecimalPos.Unsigned.to_uint_nonzero p) as Hz.
  pose proof (DecimalPos.Unsigned.to_uint_nonnil p) as Hnil.
  destruct (Pos.to_uint p) as [|u|u|u|u|u|u|u|u|u|u]; auto.
  rewrite DecimalFacts.unorm_D0 in Hn.
  destruct (Decimal.uint_eq_dec u Decimal.Nil) as [->|Hu].
  - apply Hz. reflexivity.
  - pose proof (DecimalFacts.nb_digits_unorm u Hu) as Hle.
    rewrite Hn in Hle. simpl in Hle. lia.
Qed.

(** *** Numbers *)

Lemma make_number_int (neg : bool) (i : Decimal.uint) :
  make_number neg i Decimal.Nil 0 =
  Qmake (if neg then - Z.of_N (N.of_uint i) else Z.of_N (N.of_uint i)) 1.
Proof.
  unfold make_number. simpl Decimal.nb_digits. simpl Z.of_nat.
  change (N.of_uint Decimal.Nil) with 0%N.
  change (0 - 0)%Z with 0%Z. change (0 <=? 0)%Z with true.
  cbv iota. change (10 ^ 0)%Z with 1%Z.
  rewrite !Z.mul_1_r. change (Z.of_N 0) with 0%Z. rewrite Z.add_0_r.
  destruct neg; rewrite ?Z.mul_1_r; reflexivity.
Qed.

Lemma read_int_pos (p : positive) (rest : list ascii) :
  no_digit_ahead rest ->
  read_int (uint_chars (Pos.to_uint p) ++ rest) = Some (Pos.to_uint p, rest).
Proof.
  intros Hrest. pose proof (to_uint_head p) as Hh.
  pose proof (read_uint_chars (Pos.to_uint p) rest Hrest) as Hr.
  destruct (Pos.to_uint p); try contradiction;
    simpl in *; rewrite <- Hr; reflexivity.
Qed.

Lemma pos_chars_head (p : positive) :
  exists c tl, uint_chars (Pos.to_uint p) = c :: tl /\
    exists D, digit_of_ascii c = Some D.
Proof.
  pose proof (to_uint_head p) as Hh.
  destruct (Pos.to_uint p); try contradiction; simpl; eauto.
Qed.

Lemma parse_print_Z (z : Z) (rest : list ascii) :
  number_ends rest ->
  parse_number (print_Z z ++ rest) = Some (Qmake z 1, rest).
Proof.
  intros (Hd & Hf & He). destruct z as [|p|p].
  - unfold parse_number, print_Z, read_int. cbn [app]. cbv beta iota zeta.
    rewrite Hf, He. reflexivity.
  - unfold parse_number, print_Z.
    destruct (pos_chars_head p) as (c & tl & Hc & D & HD).
    assert (Hneg : match uint_chars (Pos.to_uint p) ++ rest with
                   | "-"%char :: l' => (true, l')
                   | _ => (false, uint_chars (Pos.to_uint p) ++ rest)
                   end = (false, uint_chars (Pos.to_uint p) ++ rest)).
    { rewrite Hc. simpl.
      destruct c as [[] [] [] [] [] [] [] []]; try reflexivity; discriminate. }
    rewrite Hneg. rewrite (read_int_pos p rest Hd), Hf, He.
    rewrite make_number_int.
    change (N.of_uint (Pos.to_uint p)) with (Pos.of_uint (Pos.to_uint p)).
    rewrite DecimalPos.Unsigned.of_to. reflexivity.
  - unfold parse_number, print_Z. simpl app. cbv iota.
    rewrite (read_int_pos p rest Hd), Hf, He.
    rewrite make_number_int.
    change (N.of_uint (Pos.to_uint p)) with (Pos.of_uint (Pos.to_uint p)).
    rewrite DecimalPos.Unsigned.of_to. reflexivity.
Qed.

(** *** Strings *)

Lemma read_print_char (c : ascii) (l : list ascii) :
  read_chars (print_char c ++ l) =
  match read_chars l with
  | Some (s, rest) => Some (c :: s, rest)
  | None => None
  end.
Proof.
  destruct c as [[] [] [] [] [] [] [] []]; reflexivity.
Qed.

Lemma read_print_chars (s rest : list ascii) :
  read_chars (print_chars s ++ dquote :: rest) = Some (s, rest).
Proof.
  induction s as [|c s IH]; [reflexivity|].
  simpl print_chars. rewrite <- app_assoc, read_print_char, IH. reflexivity.
Qed.

Lemma read_print_string (s : string) (rest : list ascii) :
  exists tl, print_string s ++ rest = dquote :: tl /\
             read_string tl = Some (s, rest).
Proof.
  exists (print_chars (list_ascii_of_string s) ++ dquote :: rest). split.
  - unfold print_string. simpl. rewrite <- app_assoc. reflexivity.
  - unfold read_string. rewrite read_print_chars.
    rewrite string_of_list_ascii_of_string. reflexivity.
Qed.

(** *** Values *)

Lemma print_value_arr l p : print_value (JArr l p) = "["%char :: print_elems l.
Proof. reflexivity. Qed.

Lemma print_value_obj o : print_value (JObj o) = "{"%char :: print_members o.
Proof. reflexivity. Qed.

Lemma json_size_arr l p : json_size (JArr l p) = S (elems_size l).
Proof. reflexivity. Qed.

Lemma json_size_obj o : json_size (JObj o) = S (members_size o).
Proof. reflexivity. Qed.

Lemma ref_serializable_obj o :
  ref_serializable (JObj o) = ser_members [] o.
Proof. reflexivity. Qed.

(** Every printed value starts with a character that is neither white space
    nor a closing bracket. *)
Lemma print_value_head (v : json) :
  exists c tl, print_value v = c :: tl /\
    is_ws c = false /\
    Ascii.eqb c "]" = false /\ Ascii.eqb c "}" = false.
Proof.
  destruct v as [ | [] | [z [p|p|]] | s | l p | o ];
    try (eexists _, _; split; [reflexivity | repeat split; reflexivity]).
  destruct z as [|p|p]; try (eexists _, _; split; [reflexivity | repeat split; reflexivity]).
  destruct (pos_chars_head p) as (c & tl & Hc & D & HD).
  exists c, tl. split; [exact Hc|].
  destruct c as [[] [] [] [] [] [] [] []]; try discriminate;
    repeat split; reflexivity.
Qed.

Lemma value_ends_comma rest : value_ends (","%char :: rest).
Proof. repeat split. Qed.
Lemma value_ends_bracket rest : value_ends ("]"%char :: rest).
Proof. repeat split. Qed.
Lemma value_ends_brace rest : value_ends ("}"%char :: rest).
Proof. repeat split. Qed.
Lemma value_ends_nil : value_ends [].
Proof. repeat split. Qed.

Lemma skip_ws_head c tl : is_ws c = false -> skip_ws (c :: tl) = c :: tl.
Proof. intros H. simpl. rewrite H. reflexivity. Qed.

Lemma skip_ws_print_value v rest :
  skip_ws (print_value v ++ rest) = print_value v ++ rest.
Proof.
  destruct (print_value_head v) as (c & tl & -> & Hws & _).
  apply skip_ws_head, Hws.
Qed.

Lemma parse_value_number (f : nat) (c : ascii) (tl : list ascii) :
  (exists D, digit_of_ascii c = Some D) \/ c = "-"%char ->
  parse_value (S f) (c :: tl) =
  match parse_number (c :: tl) with
  | Some (n, rest) => Some (JNum n, rest)
  | None => None
  end.
Proof.
  intros [[D HD] | ->]; [|reflexivity].
  destruct c as [[] [] [] [] [] [] [] []]; try discriminate; reflexivity.
Qed.

Lemma parse_print_number (f : nat) (z : Z) (rest : list ascii) :
  value_ends rest ->
  parse_value (S f) (print_Z z ++ rest) = Some (JNum (Qmake z 1), rest).
Proof.
  intros Hrest. pose proof (parse_print_Z z rest Hrest) as Hp.
  assert (Hhead : exists c tl, print_Z z ++ rest = c :: tl /\
            ((exists D, digit_of_ascii c = Some D) \/ c = "-"%char)).
  { destruct z as [|p|p]; simpl.
    - eexists _, _. split; [reflexivity|]. left. eexists. reflexivity.
    - destruct (pos_chars_head p) as (c & tl & -> & HD).
      eexists _, _. split; [reflexivity|]. left. exact HD.
    - eexists _, _. split; [reflexivity|]. right. reflexivity. }
  destruct Hhead as (c & tl & Heq & Hc). rewrite Heq in *.
  rewrite (parse_value_number f c tl Hc), Hp. reflexivity.
Qed.

Lemma obj_set_fresh {V : Type} (k : string) (x : V) (acc : list (string * V)) :
  ~ In k (map fst acc) -> obj_set k x acc = acc ++ [(k, x)].
Proof.
  induction acc as [|[k' x'] acc IH]; intros Hk; [reflexivity|].
  simpl in *. destruct (String.eqb_spec k k') as [->|Hne].
  - exfalso. apply Hk. left. reflexivity.
  - rewrite IH; [reflexivity|]. intros Hin. apply Hk. right. exact Hin.
Qed.

Lemma existsb_eqb_false (k : string) (seen : list string) :
  existsb (String.eqb k) seen = false -> ~ In k seen.
Proof.
  intros H Hin. assert (existsb (String.eqb k) seen = true); [|congruence].
  apply existsb_exists. exists k. split; [exact Hin | apply String.eqb_refl].
Qed.

Lemma parse_elems_eq f l acc :
  parse_elems (S f) l acc =
  match parse_value f l with
  | None => None
  | Some (x, l1) =>
      match skip_ws l1 with
      | ","%char :: l2 => parse_elems f l2 (acc ++ [x])
      | "]"%char :: rest => Some (JArr (acc ++ [x]) [], rest)
      | _ => None
      end
  end.
Proof. reflexivity. Qed.

Lemma parse_members_string f tl acc :
  parse_members (S f) (dquote :: tl) acc =
  match read_string tl with
  | None => None
  | Some (k, l1) =>
      match skip_ws l1 with
      | ":"%char :: l2 =>
          match parse_value f l2 with
          | None => None
          | Some (x, l3) =>
              match skip_ws l3 with
              | ","%char :: l4 => parse_members f l4 (obj_set k x acc)
              | "}"%char :: rest => Some (JObj (obj_set k x acc), rest)
              | _ => None
              end
          end
      | _ => None
      end
  end.
Proof. reflexivity. Qed.

Lemma parse_value_arr f l :
  parse_value (S f) ("["%char :: l) =
  match starts_with "]" (skip_ws l) with
  | Some rest => Some (JArr [] [], rest)
  | None => parse_elems f l []
  end.
Proof. reflexivity. Qed.

Lemma parse_value_obj f l :
  parse_value (S f) ("{"%char :: l) =
  match starts_with "}" (skip_ws l) with
  | Some rest => Some (JObj [], rest)
  | None => parse_members f l []
  end.
Proof. reflexivity. Qed.

Lemma parse_value_str f tl :
  parse_value (S f) (dquote :: tl) =
  match read_string tl with
  | Some (s, rest) => Some (JStr s, rest)
  | None => None
  end.
Proof. reflexivity. Qed.

Lemma ref_normal_arr l p : ref_normal (JArr l p) = JArr (map ref_normal l) [].
Proof. reflexivity. Qed.

Lemma ref_normal_obj o : ref_normal (JObj o) = JObj (normal_members o []).
Proof. reflexivity. Qed.

Lemma parse_print_elems (l : list json) :
  Forall reads_back l ->
  l <> [] ->
  forall fuel acc rest, elems_size l <= fuel ->
    parse_elems fuel (print_elems l ++ rest) acc =
    Some (JArr (acc ++ map ref_normal l) [], rest).
Proof.
  induction 1 as [|x l Hx Hl IH]; intros Hne fuel acc rest Hfuel;
    [congruence|].
  simpl in Hfuel. destruct fuel as [|fuel]; [lia|].
  rewrite parse_elems_eq. cbn [print_elems]. rewrite <- app_assoc.
  destruct l as [|y l']; cbn [app].
  - rewrite (Hx fuel _ ltac:(lia) (value_ends_bracket rest)).
    reflexivity.
  - rewrite (Hx fuel _ ltac:(lia)
               (value_ends_comma (print_elems (y :: l') ++ rest))).
    cbn [app skip_ws is_ws]. cbv beta iota.
    rewrite (IH ltac:(discriminate) fuel (acc ++ [ref_normal x]) rest
               ltac:(lia)).
    rewrite <- app_assoc. reflexivity.
Qed.

Lemma parse_print_members (o : object) :
  Forall (fun kx => reads_back (snd kx)) o ->
  forall fuel acc rest,
    o <> [] ->
    members_size o <= fuel ->
    parse_members fuel (print_members o ++ rest) acc =
    Some (JObj (normal_members o acc), rest).
Proof.
  induction 1 as [|[k x] o Hx Ho IH]; intros fuel acc rest Hne Hfuel;
    [congruence|].
  simpl in Hfuel. destruct fuel as [|fuel]; [lia|].
  cbn [print_members]. rewrite <- app_assoc.
  destruct (read_print_string k
              ((":"%char :: print_value x ++
                match o with
                | [] => ["}"%char]
                | _ :: _ => ","%char :: print_members o
                end) ++ rest)) as (tl & -> & Hread).
  rewrite parse_members_string, Hread.
  cbn [app skip_ws is_ws]. cbv beta iota.
  rewrite <- app_assoc. simpl in Hx.
  destruct o as [|ky o']; cbn [app].
  - rewrite (Hx fuel _ ltac:(lia) (value_ends_brace rest)).
    reflexivity.
  - rewrite (Hx fuel _ ltac:(lia)
               (value_ends_comma (print_members (ky :: o') ++ rest))).
    cbn [app skip_ws is_ws]. cbv beta iota.
    rewrite (IH fuel (obj_set k (ref_normal x) acc) rest); [|discriminate|lia].
    reflexivity.
Qed.

Lemma elems_size_in (x : json) (l : list json) :
  In x l -> json_size x < elems_size l.
Proof.
  induction l as [|y l IH]; simpl; [tauto|].
  intros [<-|Hin]; [lia|]. specialize (IH Hin). lia.
Qed.

Lemma members_size_in (kx : string * json) (o : object) :
  In kx o -> json_size (snd kx) < members_size o.
Proof.
  induction o as [|[k y] o IH]; simpl; [tauto|].
  intros [<-|Hin]; [simpl; lia|]. specialize (IH Hin). lia.
Qed.

Lemma json_size_pos (v : json) : 1 <= json_size v.
Proof. destruct v; simpl; lia. Qed.

(** Every printed value is read back, normalized. *)
Lemma parse_print_value (n : nat) :
  forall v, json_size v <= n -> reads_back v.
Proof.
  induction n as [|n IH]; intros v Hn.
  { pose proof (json_size_pos v). lia. }
  intros fuel rest Hfuel Hrest.
  destruct fuel as [|fuel]; [pose proof (json_size_pos v); lia|].
  destruct v as [ | [] | [z [p|p|]] | s | l p | o ]; try reflexivity.
  - apply parse_print_number, Hrest.
  - destruct (read_print_string s rest) as (tl & Heq & Hread).
    change (print_value (JStr s)) with (print_string s).
    rewrite Heq, parse_value_str, Hread. reflexivity.
  - rewrite json_size_arr in Hn, Hfuel.
    rewrite print_value_arr, ref_normal_arr. cbn [app].
    rewrite parse_value_arr.
    destruct l as [|x l]; [reflexivity|].
    assert (Hhead : starts_with "]" (skip_ws (print_elems (x :: l) ++ rest)) = None).
    { cbn [print_elems]. rewrite <- app_assoc, skip_ws_print_value.
      destruct (print_value_head x) as (c & tl & -> & _ & Hc & _).
      simpl. rewrite Hc. reflexivity. }
    rewrite Hhead.
    apply (parse_print_elems (x :: l)); [|discriminate|lia].
    apply List.Forall_forall. intros y Hy. apply IH.
    pose proof (elems_size_in y (x :: l) Hy). lia.
  - rewrite json_size_obj in Hn, Hfuel.
    rewrite print_value_obj, ref_normal_obj. cbn [app].
    rewrite parse_value_obj.
    destruct o as [|[k x] o]; [reflexivity|].
    assert (Hhead : starts_with "}" (skip_ws (print_members ((k, x) :: o) ++ rest)) = None).
    { cbn [print_members]. reflexivity. }
    rewrite Hhead.
    apply (parse_print_members ((k, x) :: o)); [|discriminate|lia].
    apply List.Forall_forall. intros y Hy. apply IH.
    pose proof (members_size_in y ((k, x) :: o) Hy). lia.
Qed.

Lemma normal_members_fresh (o : object) :
  forall seen acc,
    ser_members seen o = true ->
    (forall k, In k (map fst acc) -> In k seen) ->
    Forall (fun kx => ref_normal (snd kx) = snd kx) o ->
    normal_members o acc = acc ++ o.
Proof.
  induction o as [|[k x] o IH]; intros seen acc Hser Hacc Hall; simpl.
  - rewrite app_nil_r. reflexivity.
  - simpl in Hser. apply andb_true_iff in Hser as [Hser Hso].
    apply andb_true_iff in Hser as [Hk Hsx].
    apply negb_true_iff in Hk. apply existsb_eqb_false in Hk.
    apply List.Forall_cons_iff in Hall as [Hx Hall]. simpl in Hx.
    rewrite Hx, obj_set_fresh by (intros Hin; apply Hk, Hacc, Hin).
    rewrite (IH (k :: seen) (acc ++ [(k, x)]) Hso); [| |exact Hall].
    + rewrite <- app_assoc. reflexivity.
    + intros k0. rewrite List.map_app, in_app_iff. simpl.
      intros [Hin | [<- | []]]; [right; apply Hacc, Hin | left; reflexivity].
Qed.

(** A serializable value is its own normal form. *)
Lemma ref_normal_serializable (n : nat) :
  forall v, json_size v <= n -> ref_serializable v = true -> ref_normal v = v.
Proof.
  induction n as [|n IH]; intros v Hn Hser.
  { pose proof (json_size_pos v). lia. }
  destruct v as [ | b | [z [p|p|]] | s | l p | o ];
    try discriminate Hser; try reflexivity.
  - simpl in Hser. destruct p; [|discriminate Hser]. simpl in Hser.
    rewrite json_size_arr in Hn. rewrite ref_normal_arr. f_equal.
    rewrite forallb_forall in Hser.
    rewrite <- (List.map_id l) at 2. apply List.map_ext_in.
    intros x Hx. apply IH; [|apply Hser, Hx].
    pose proof (elems_size_in x l Hx). lia.
  - rewrite ref_serializable_obj in Hser. rewrite json_size_obj in Hn.
    rewrite ref_normal_obj. f_equal.
    apply (normal_members_fresh o [] []); [exact Hser | intros k [] |].
    apply List.Forall_forall. intros kx Hkx. apply IH.
    + pose proof (members_size_in kx o Hkx). lia.
    + clear -Hser Hkx. revert Hser. generalize (@nil string).
      induction o as [|[k x] o IHo]; intros seen Hser; [destruct Hkx|].
      simpl in Hser. apply andb_true_iff in Hser as [Hser Hso].
      apply andb_true_iff in Hser as [_ Hsx].
      destruct Hkx as [<-|Hkx]; [exact Hsx | exact (IHo Hkx _ Hso)].
Qed.

Lemma json_size_le_length (n : nat) :
  forall v, json_size v <= n -> json_size v <= length (print_value v).
Proof.
  induction n as [|n IH]; intros v Hn.
  { pose proof (json_size_pos v). lia. }
  destruct v as [ | b | q | s | l p | o ].
  - simpl. lia.
  - destruct b; simpl; lia.
  - destruct (print_value_head (JNum q)) as (c & tl & -> & _). simpl. lia.
  - simpl. lia.
  - rewrite json_size_arr in *. rewrite print_value_arr. simpl length.
    apply le_n_S.
    assert (Hall : forall x, In x l -> json_size x <= length (print_value x)).
    { intros x Hx. apply IH. pose proof (elems_size_in x l Hx). lia. }
    clear Hn IH. induction l as [|x l IHl]; [simpl; lia|].
    pose proof (Hall x (or_introl eq_refl)).
    assert (elems_size l <= length (print_elems l))
      by (apply IHl; intros y Hy; apply Hall; right; exact Hy).
    cbn [print_elems elems_size].
    repeat (rewrite length_app || cbn [length]).
    destruct l; cbn [length elems_size] in *; lia.
  - rewrite json_size_obj in *. rewrite print_value_obj. simpl length.
    apply le_n_S.
    assert (Hall : forall kx, In kx o -> json_size (snd kx) <= length (print_value (snd kx))).
    { intros x Hx. apply IH. pose proof (members_size_in x o Hx). lia. }
    clear Hn IH. induction o as [|[k x] o IHo]; [simpl; lia|].
    pose proof (Hall (k, x) (or_introl eq_refl)) as Hx. simpl in Hx.
    assert (members_size o <= length (print_members o))
      by (apply IHo; intros y Hy; apply Hall; right; exact Hy).
    cbn [print_members members_size].
    repeat (rewrite length_app || cbn [length]).
    destruct o; cbn [length members_size] in *; lia.
Qed.

(** Writing then reading normalizes. *)
Lemma ref_parse_stringify_normal (v : json) :
  ref_parse (ref_stringify v) = Some (ref_normal v).
Proof.
  unfold ref_parse, ref_stringify.
  rewrite list_ascii_of_string_of_list_ascii.
  pose proof (parse_print_value (json_size v) v (le_n _)
                (S (length (print_value v))) []) as Hp.
  rewrite app_nil_r in Hp. rewrite Hp; [reflexivity| |exact value_ends_nil].
  pose proof (json_size_le_length (json_size v) v (le_n _)). lia.
Qed.

Theorem ref_parse_stringify (v : json) :
  ref_serializable v = true -> ref_parse (ref_stringify v) = Some v.
Proof.
  intros Hser. rewrite ref_parse_stringify_normal.
  rewrite (ref_normal_serializable (json_size v) v (le_n _) Hser).
  reflexivity.
Qed.

Lemma ref_stringify_nonempty (v : json) : ref_stringify v <> EmptyString.
Proof.
  unfold ref_stringify.
  destruct (print_value_head v) as (c & tl & -> & _). discriminate.
Qed.

Lemma reference_codec_laws : JSONLaws reference_codec.
Proof.
  split.
  - exact ref_parse_stringify.
  - exact ref_stringify_nonempty.
  - intros o. exists (normal_members o []).
    exact (ref_parse_stringify_normal (JObj o)).
  - reflexivity.
  - reflexivity.
Qed.

(** ** Programs *)

Lemma connect_free_bind {A B : Type} (p : Prog A) (f : A -> Prog B) :
  connect_free p -> (forall a, connect_free (f a)) -> connect_free (bind p f).
Proof.
  intros Hp Hf. induction p as [a|e|k IH|T c k IH]; simpl in *; auto.
  destruct Hp as [Hc Hk]. split; auto.
Qed.

Lemma connect_free_try_catch {A : Type} (p : Prog A) (h : exn -> Prog A) :
  connect_free p -> (forall e, connect_free (h e)) ->
  connect_free (try_catch p h).
Proof.
  intros Hp Hh. induction p as [a|e|k IH|T c k IH]; simpl in *; auto.
  destruct Hp as [Hc Hk]. split; auto.
Qed.

Lemma connect_free_await {T : Type} (c : Call T) :
  is_connect (Req c) = false -> connect_free (await c).
Proof. intros Hc. split; [exact Hc|]. intros [t|e]; exact I. Qed.

Lemma connect_free_ensureInitialized : connect_free ensureInitialized.
Proof. intros [c|e]; exact I. Qed.

Lemma connect_free_fmap {A B : Type} (f : A -> B) (p : Prog A) :
  connect_free p -> connect_free (fmap f p).
Proof. intros Hp. apply connect_free_bind; [exact Hp|]. intros a. exact I. Qed.

Lemma connect_free_delete_each client collectionName ids :
  connect_free (delete_each client collectionName ids).
Proof.
  induction ids as [|id ids IH]; [exact I|].
  simpl. split; [reflexivity|]. intros [[]|e]; simpl; auto.
Qed.

Ltac connect_free_tac :=
  repeat first
    [ exact I
    | reflexivity
    | apply connect_free_ensureInitialized
    | apply connect_free_delete_each
    | apply connect_free_fmap
    | apply connect_free_await
    | apply connect_free_try_catch; intros
    | apply connect_free_bind; intros
    | match goal with |- connect_free (if ?b then _ else _) => destruct b end ].

Lemma connect_free_collectionExists collectionName :
  connect_free (collectionExists collectionName).
Proof. unfold collectionExists. connect_free_tac. Qed.

Lemma connect_free_body (op : Operation) : connect_free (body op).
Proof.
  destruct op; unfold body, getClient, createCollection, insertObjects, search,
    deleteObjects, deleteCollection, getCollectionStats, close;
    try apply connect_free_fmap;
    try apply connect_free_collectionExists.
  all: connect_free_tac.
  all: try apply connect_free_collectionExists.
Qed.

Lemma on_connection_delete_each (client : WeaviateClient)
  (collectionName : string) (ids : list string) :
  on_connection (Ok client) (delete_each client collectionName ids).
Proof.
  induction ids as [|id ids IH]; [exact I|].
  simpl. split; [reflexivity|]. intros [[]|e]; simpl; auto.
Qed.

Lemma on_connection_fmap {A B : Type} (init : Result WeaviateClient)
  (f : A -> B) (p : Prog A) :
  on_connection init p -> on_connection init (fmap f p).
Proof.
  unfold fmap. induction p as [a|e|k IH|T c k IH]; simpl; auto.
  intros [Hc Hk]. split; auto.
Qed.

(** A method sends its requests to the client of the initialization, and
    none when the initialization failed. *)
Lemma on_connection_body (init : Result WeaviateClient) (op : Operation) :
  on_connection init (body op).
Proof.
  destruct init as [client|e]; [|destruct op; exact I].
  destruct op; unfold body; try apply on_connection_fmap; simpl; auto;
    try (split; [reflexivity|]; intros [?|?]; simpl; auto;
         try (split; [reflexivity|]; intros [?|?]; simpl; auto)).
  apply on_connection_delete_each.
Qed.

Lemma issues_on_connection {A : Type} (init : Result WeaviateClient)
  (p : Prog A) (req : Request) :
  on_connection init p -> In req (issues p) ->
  exists client, init = Ok client /\ request_client req = Some client.
Proof.
  destruct p as [a|e|k|T c k]; simpl; try tauto.
  intros [Hc _] [<-|[]]. destruct init as [client|e]; [|contradiction].
  exists client. split; [reflexivity | exact Hc].
Qed.

(** A guarded method is at [await this.initPromise] when called, and a
    rejected initialization rejects it with the same reason. *)
Lemma body_guarded (op : Operation) :
  awaits_init op = true ->
  exists k, body op = AwaitInit k /\ forall e, k (Err e) = Throw e.
Proof.
  destruct op; intros H; try discriminate H;
    (eexists; split; [reflexivity|]; intros e; reflexivity).
Qed.

Lemma body_close : body OpClose = Return VUnit.
Proof. reflexivity. Qed.

(** No method has a request out when it is called. *)
Lemma issues_body (op : Operation) : issues (body op) = [].
Proof. destruct op; reflexivity. Qed.

Lemma issues_connect_free {A : Type} (p : Prog A) :
  connect_free p -> List.filter is_connect (issues p) = [].
Proof.
  destruct p as [a|e|k|T c k]; simpl; try reflexivity.
  intros [Hc _]. simpl in Hc. rewrite Hc. reflexivity.
Qed.

Lemma runs_to_trans {A : Type} (init : Result WeaviateClient)
  (p q r : Prog A) :
  runs_to init p q -> runs_to init q r -> runs_to init p r.
Proof.
  intros Hpq Hqr. induction Hpq as [p|k q IH|T c k t q IH].
  - exact Hqr.
  - apply runs_init. auto.
  - eapply runs_await. eauto.
Qed.

(** The constructor's call of [initialize] is one connection request in
    flight, and its settlement is final. *)
Lemma initialize_shape (params : WeaviateClientParams) :
  exists c : Call WeaviateClient,
    initialize params = await c /\ is_connect (Req c) = true.
Proof.
  unfold initialize. destruct (opt_truthy (apiKey params));
    eexists; split; reflexivity.
Qed.

(** ** The event loop: one initialization *)

Lemma pending_or_final_initialize params :
  pending_or_final (initialize params).
Proof.
  destruct (initialize_shape params) as (c & -> & _).
  simpl. intros [t|e]; split; simpl; congruence.
Qed.

Lemma world_inv_construct params : world_inv params (construct params).
Proof.
  split; simpl.
  - destruct (initialize_shape params) as (c & -> & Hc). simpl in *.
    rewrite Hc. reflexivity.
  - reflexivity.
  - apply pending_or_final_initialize.
  - destruct (initialize_shape params) as (c & -> & Hc). simpl.
    intros req [<-|[]]. left. exact Hc.
  - intros i t Hi. destruct i; discriminate Hi.
Qed.

Lemma body_not_await (op : Operation) (T : Type) (c : Call T)
  (k : Result T -> Prog Value) : body op <> Await c k.
Proof. destruct op; discriminate. Qed.

(** A request going out of a task that is on the connection. *)
Lemma request_inv_issued (init : Prog WeaviateClient)
  (r : Result WeaviateClient) (p : Prog Value) (req : Request) :
  settled init = Some r -> on_connection r p -> In req (issues p) ->
  request_inv init req.
Proof.
  intros Hset Hp Hin.
  destruct (issues_on_connection r p req Hp Hin) as (client & -> & Hreq).
  right. exists client. split; assumption.
Qed.

Lemma world_inv_step params w w' :
  world_inv params w -> step w w' -> world_inv params w'.
Proof.
  intros [Hc Hp Hi Hr Ht] Hstep.
  destruct Hstep as [w op | w T c k r Hinit | w i t k r Hi' Hst Hset
                    | w i t T c k r Hi' Hst].
  - (* a method is called *)
    split; simpl.
    + rewrite issues_body, app_nil_r. exact Hc.
    + rewrite issues_body, app_nil_r. exact Hp.
    + exact Hi.
    + rewrite issues_body, app_nil_r. exact Hr.
    + intros j t Hj. apply lookup_app_Some in Hj as [Hj | [_ Hj]].
      * apply Ht in Hj. exact Hj.
      * apply list_lookup_singleton_Some in Hj as [_ <-].
        split; simpl; [apply connect_free_body|].
        destruct (settled (initPromise w));
          [split; [apply runs_here | apply on_connection_body] | reflexivity].
  - (* the connection request settles *)
    pose proof Hi as Hi0. rewrite Hinit in Hi0. simpl in Hi0.
    destruct (Hi0 r) as [Hiss Hfin].
    assert (Hpend : settled (initPromise w) = None)
      by (rewrite Hinit; reflexivity).
    split; simpl.
    + rewrite Hiss, app_nil_r. exact Hc.
    + intros Hnone. contradiction.
    + destruct (k r); simpl in *; try exact I; congruence.
    + rewrite Hiss, app_nil_r. rewrite (Hp Hpend).
      destruct (initialize_shape params) as (c0 & -> & Hc0). simpl.
      intros req [<-|[]]. left. exact Hc0.
    + intros j t Hj. apply Ht in Hj. destruct Hj as [Hcf Hj].
      rewrite Hpend in Hj. split; [exact Hcf|].
      destruct (settled (k r)); [|contradiction].
      rewrite Hj. split; [apply runs_here | apply on_connection_body].
  - (* a method resumes after [await this.initPromise] *)
    pose proof (Ht i t Hi') as [Hcf Hrun]. rewrite Hset in Hrun.
    destruct Hrun as [Hrun Hon].
    rewrite Hst in Hcf, Hon. simpl in Hcf, Hon.
    split; simpl.
    + rewrite List.filter_app, (issues_connect_free _ (Hcf r)), app_nil_r.
      exact Hc.
    + rewrite Hset. discriminate.
    + exact Hi.
    + intros req Hin. apply in_app_or in Hin as [Hin|Hin]; [exact (Hr _ Hin)|].
      exact (request_inv_issued _ r _ req Hset Hon Hin).
    + intros j t' Hj. apply list_lookup_insert_Some in Hj
        as [(<- & <- & _) | (_ & Hj)]; [|exact (Ht _ _ Hj)].
      split; simpl; [apply Hcf|]. rewrite Hset. split; [|exact Hon].
      eapply runs_to_trans; [exact Hrun|]. rewrite Hst.
      apply runs_init, runs_here.
  - (* a request of a method settles *)
    pose proof (Ht i t Hi') as [Hcf Hrun].
    rewrite Hst in Hcf. simpl in Hcf. destruct Hcf as [Hcall Hcf].
    destruct (settled (initPromise w)) as [r0|] eqn:Hset.
    2:{ rewrite Hst in Hrun. symmetry in Hrun.
        exfalso. exact (body_not_await _ _ _ _ Hrun). }
    destruct Hrun as [Hrun Hon]. rewrite Hst in Hon. simpl in Hon.
    destruct Hon as [_ Hon].
    split; simpl.
    + rewrite List.filter_app, (issues_connect_free _ (Hcf r)), app_nil_r.
      exact Hc.
    + rewrite Hset. discriminate.
    + exact Hi.
    + intros req Hin. apply in_app_or in Hin as [Hin|Hin]; [exact (Hr _ Hin)|].
      exact (request_inv_issued _ r0 _ req Hset (Hon r) Hin).
    + intros j t' Hj. apply list_lookup_insert_Some in Hj
        as [(<- & <- & _) | (_ & Hj)].
      * split; simpl; [apply Hcf|]. rewrite Hset. split; [|exact (Hon r)].
        eapply runs_to_trans; [exact Hrun|]. rewrite Hst.
        eapply runs_await, runs_here.
      * pose proof (Ht j t' Hj) as Hj'. unfold task_inv in Hj'.
        rewrite Hset in Hj'. unfold task_inv. rewrite Hset. exact Hj'.
Qed.

Lemma reachable_inv params w : reachable params w -> world_inv params w.
Proof.
  induction 1 as [|w w' Hreach IH Hstep].
  - apply world_inv_construct.
  - eapply world_inv_step; eauto.
Qed.

(** *** An example run *)

Lemma example_run_reachable : reachable local_params example_run.
Proof.
  apply reach_step with (w := example_refused).
  - apply reach_step with (w := example_called).
    + apply reach_step
        with (w := invoke (OpCollectionExists "Documents")
                     (construct local_params)).
      * apply reach_step with (w := construct local_params).
        -- apply reach_construct.
        -- apply step_invoke.
      * apply step_invoke.
    + exact (step_connected example_called _
               (ConnectToLocal "localhost" 8080 50051
                  {| co_headers := None; co_authCredentials := None |})
               (fun r => match r with Ok c => Return c | Err e => Throw e end)
               (Err refused) eq_refl).
  - exact (step_resume example_refused 0
             {| t_op := OpCollectionExists "Documents";
                t_state := body (OpCollectionExists "Documents") |}
             _ (Err refused) eq_refl eq_refl eq_refl).
Defined.

Lemma runs_to_throw {A : Type} (init : Result WeaviateClient) (e : exn)
  (q : Prog A) : runs_to init (Throw e) q -> q = Throw e.
Proof. inversion 1. reflexivity. Qed.

Lemma runs_to_await_init {A : Type} (init : Result WeaviateClient)
  (k : Result WeaviateClient -> Prog A) (q : Prog A) :
  runs_to init (AwaitInit k) q -> q = AwaitInit k \/ runs_to init (k init) q.
Proof.
  inversion 1; subst; [left; reflexivity | right; assumption].
Qed.

(** C1. A wrapper makes exactly one connection request, however many
    methods are called and in whatever order the event loop runs them, and
    every other request it makes goes to the client that request resolved
    to. A method that awaits the initialization is still at that [await]
    while the request is in flight (and nothing but the connection
    request has gone out); once the request is refused with [e] the method
    is rejected with [e], at the latest when it resumes; once it succeeded
    the method runs its body with the client of that one request. *)
Theorem single_initialization (params : WeaviateClientParams) (w : World) :
  reachable params w ->
  length (List.filter is_connect (requests w)) = 1 /\
  (forall req, In req (requests w) -> is_connect req = false ->
     exists client,
       settled (initPromise w) = Some (Ok client) /\
       request_client req = Some client) /\
  forall i t, tasks w !! i = Some t -> awaits_init (t_op t) = true ->
    match settled (initPromise w) with
    | None =>
        (exists k, t_state t = AwaitInit k) /\
        t_state t = body (t_op t) /\
        requests w = issues (initialize params)
    | Some (Err e) =>
        (exists k, t_state t = AwaitInit k) \/ t_state t = Throw e
    | Some (Ok client) =>
        runs_to (Ok client) (body (t_op t)) (t_state t)
    end.
Proof.
  intros Hreach. apply reachable_inv in Hreach as [Hc Hp Hi Hr Ht].
  split; [|split].
  - rewrite Hc. destruct (initialize_shape params) as (c & -> & _).
    reflexivity.
  - intros req Hin Hreq. destruct (Hr req Hin) as [Hconn|Hclient];
      [congruence | exact Hclient].
  - intros i t Hi' Hop. destruct (Ht i t Hi') as [_ Hrun].
    destruct (body_guarded (t_op t) Hop) as (k & Hk & Hrej).
    destruct (settled (initPromise w)) as [[client|e]|].
    + apply Hrun.
    + destruct Hrun as [Hrun _].
      rewrite Hk in Hrun. apply runs_to_await_init in Hrun as [Hq|Hq].
      * left. eauto.
      * right. rewrite Hrej in Hq. apply runs_to_throw in Hq. exact Hq.
    + repeat split; [exists k; congruence | exact Hrun | auto].
Qed.

Lemma single_initialization_witness :
  length (List.filter is_connect (requests example_run)) = 1 /\
  (forall req, In req (requests example_run) -> is_connect req = false ->
     exists client,
       settled (initPromise example_run) = Some (Ok client) /\
       request_client req = Some client) /\
  forall i t, tasks example_run !! i = Some t ->
    awaits_init (t_op t) = true ->
    (exists k, t_state t = AwaitInit k) \/ t_state t = Throw refused.
Proof.
  exact (single_initialization local_params example_run
           example_run_reachable).
Defined.

(** C4, as the code has it. The constructor itself issues the one
    connection request, before any method is called; no method call and no
    later turn of the event loop issues another. *)
Theorem eager_initialization (params : WeaviateClientParams) (w : World) :
  reachable params w ->
  (exists c : Call WeaviateClient,
     requests (construct params) = [Req c] /\ is_connect (Req c) = true) /\
  tasks (construct params) = [] /\
  List.filter is_connect (requests w) = requests (construct params).
Proof.
  intros Hreach. apply reachable_inv in Hreach as [Hc _ _ _ _].
  split; [|split; [reflexivity | exact Hc]].
  destruct (initialize_shape params) as (c & Hinit & Hconn).
  exists c. split; [|exact Hconn]. unfold construct. simpl.
  rewrite Hinit. reflexivity.
Qed.

Lemma eager_initialization_witness :
  (exists c : Call WeaviateClient,
     requests (construct local_params) = [Req c] /\
     is_connect (Req c) = true) /\
  tasks (construct local_params) = [] /\
  List.filter is_connect (requests example_run) =
  requests (construct local_params).
Proof.
  exact (eager_initialization local_params example_run
           example_run_reachable).
Defined.

(** C4, as stated, fails: a wrapper that was only constructed, with no
    method called on it, already has its connection request out. *)
Lemma construction_connects :
  tasks (construct local_params) = [] /\
  requests (construct local_params) =
  [Req (ConnectToLocal "localhost" 8080 50051
          {| co_headers := None; co_authCredentials := None |})] /\
  ~ List.filter is_connect (requests (construct local_params)) = [].
Proof. repeat split. discriminate. Qed.

(** ** Collections *)

(** C2. On a collection that does not exist, [createCollection] sends one
    creation request: self-provided vectors ([vectorizer.none()]) and a
    schema of two text properties, [content] and [metadata]. No
    [contentType] property is declared. *)
Theorem createCollection_request (env : Env) (client : WeaviateClient)
  (config : CollectionConfig) (n : nat) (e : exn) :
  env n _ (ConfigGet client (name config)) = Err e ->
  exists request,
    fst (exec env (Ok client) (createCollection config) n) =
      [Req (ConfigGet client (name config));
       Req (CollectionsCreate client request)] /\
    cc_name request = name config /\
    cc_vectorizers request = VectorizerNone /\
    map (fun p => (pc_name p, pc_dataType p)) (cc_properties request) =
      [("content", TEXT); ("metadata", TEXT)].
Proof.
  intros Hlookup. exists (create_request config). split; [|repeat split].
  unfold createCollection, collectionExists. simpl.
  rewrite Hlookup. simpl.
  destruct (env (S n) unit (CollectionsCreate client (create_request config)));
    reflexivity.
Qed.

Lemma createCollection_request_witness :
  exists request,
    fst (exec empty_store (Ok (ClientHandle 0))
           (createCollection documents_config) 0) =
      [Req (ConfigGet (ClientHandle 0) "Documents");
       Req (CollectionsCreate (ClientHandle 0) request)] /\
    cc_name request = "Documents" /\
    cc_vectorizers request = VectorizerNone /\
    map (fun p => (pc_name p, pc_dataType p)) (cc_properties request) =
      [("content", TEXT); ("metadata", TEXT)].
Proof.
  exact (createCollection_request empty_store (ClientHandle 0)
           documents_config 0 (Rejection "collection not found") eq_refl).
Defined.

(** The schema sent for a missing collection has no [contentType]
    property, although every object the indexer writes carries one. *)
Lemma createCollection_omits_contentType :
  fst (exec empty_store (Ok (ClientHandle 0))
         (createCollection documents_config) 0) =
    [Req (ConfigGet (ClientHandle 0) "Documents");
     Req (CollectionsCreate (ClientHandle 0)
            (create_request documents_config))] /\
  map pc_name (cc_properties (create_request documents_config)) =
    ["content"; "metadata"] /\
  ~ In "contentType"
      (map pc_name (cc_properties (create_request documents_config))).
Proof.
  repeat split. simpl. intros [H|[H|[]]]; discriminate H.
Qed.

(** C8, as the code has it. With the connection established,
    [collectionExists] fulfils with a boolean whatever the lookup does: a
    failed lookup gives [false]. With the connection attempt failed, it is
    rejected with the reason of that failure and sends nothing: the
    [await this.ensureInitialized()] stands before the [try]. *)
Theorem collectionExists_outcome (env : Env) (init : Result WeaviateClient)
  (collectionName : string) (n : nat) :
  exec env init (collectionExists collectionName) n =
  match init with
  | Ok client =>
      ([Req (ConfigGet client collectionName)],
       Ok (match env n _ (ConfigGet client collectionName) with
           | Ok _ => true
           | Err _ => false
           end))
  | Err e => ([], Err e)
  end.
Proof.
  destruct init as [client|e]; [|reflexivity].
  unfold collectionExists. simpl.
  destruct (env n string (ConfigGet client collectionName)); reflexivity.
Qed.

(** C8, as stated, fails: on a wrapper whose connection attempt was
    refused, [collectionExists] throws. *)
Lemma collectionExists_throws :
  exec empty_store (Err refused) (collectionExists "Documents") 0 =
  ([], Err refused).
Proof. reflexivity. Qed.

(** ** The plugin *)

Lemma configure_app (before rest : list WeaviateCollectionParams)
  (registry : list Action) :
  Forall (fun x => usable_embedder (embedder x) <> None) before ->
  configure (before ++ rest) registry =
  configure rest (registry ++ flat_map registered_for before).
Proof.
  intros Hall. revert registry.
  induction Hall as [|x before Hx Hall IH]; intros registry; simpl.
  - rewrite app_nil_r. reflexivity.
  - unfold registered_for at 1.
    destruct (usable_embedder (embedder x)) as [e|]; [|congruence].
    rewrite IH, <- app_assoc. reflexivity.
Qed.

(** C9, as the code has it. Setup stops at the first entry of
    [collections] that has no usable embedder and throws an error naming
    that entry. The entries before it have their retriever and indexer
    registered by then; that entry and the ones after it have none. *)
Theorem setup_fails_fast (params : WeaviatePluginParams)
  (registry : list Action)
  (before after : list WeaviateCollectionParams)
  (collection : WeaviateCollectionParams) :
  collections params = before ++ collection :: after ->
  Forall (fun x => usable_embedder (embedder x) <> None) before ->
  usable_embedder (embedder collection) = None ->
  weaviate params registry =
  ({| plugin_client := construct (clientParams params);
      plugin_registry := registry ++ flat_map registered_for before |},
   Err (missing_embedder collection)).
Proof.
  intros Hcs Hbefore Hmissing. unfold weaviate.
  rewrite Hcs, (configure_app before _ registry Hbefore). simpl.
  rewrite Hmissing. reflexivity.
Qed.

Lemma setup_fails_fast_witness :
  weaviate three_collections [] =
  ({| plugin_client := construct local_params;
      plugin_registry :=
        [ RetrieverAction "weaviate/Articles"
            (EmbedderName "googleai/text-embedding-004") None;
          IndexerAction "weaviate/Articles"
            (EmbedderName "googleai/text-embedding-004") None ] |},
   Err (Error "Embedder is required for collection 'Books'")).
Proof.
  apply (setup_fails_fast three_collections []
           [with_embedder "Articles"] [no_embedder "Notes"]
           (no_embedder "Books")).
  - reflexivity.
  - repeat constructor. discriminate.
  - reflexivity.
Defined.

(** C9, as stated, fails: with two entries lacking an embedder, the error
    names the first one only; the second is never looked at. *)
Lemma second_missing_embedder_unnamed :
  In (no_embedder "Notes") (collections two_unconfigured) /\
  embedder (no_embedder "Notes") = None /\
  snd (weaviate two_unconfigured []) =
    Err (Error "Embedder is required for collection 'Books'") /\
  snd (weaviate two_unconfigured []) <>
    Err (Error "Embedder is required for collection 'Notes'").
Proof.
  simpl. repeat split; [right; left; reflexivity | discriminate].
Qed.

(** ** Retrieval and indexing *)

(** ** Objects *)

Lemma obj_get_set {V : Type} (k : string) (v : V) (o : list (string * V)) :
  obj_get k (obj_set k v o) = Some v.
Proof.
  induction o as [|[k' v'] o IH]; simpl.
  - rewrite String.eqb_refl. reflexivity.
  - destruct (String.eqb k k') eqn:Hk; simpl.
    + rewrite String.eqb_refl. reflexivity.
    + rewrite Hk. exact IH.
Qed.

Lemma obj_remove_set {V : Type} (k : string) (v : V) (o : list (string * V)) :
  obj_remove k (obj_set k v o) = obj_remove k o.
Proof.
  induction o as [|[k' v'] o IH]; simpl.
  - rewrite String.eqb_refl. reflexivity.
  - destruct (String.eqb k k') eqn:Hk; simpl.
    + rewrite String.eqb_refl. reflexivity.
    + rewrite Hk, IH. reflexivity.
Qed.

Lemma str_truthy_nonempty (s : string) :
  s <> EmptyString -> str_truthy s = true.
Proof. destruct s; [congruence | reflexivity]. Qed.

Lemma get_set_property (m : json) (k : string) (v : json) :
  is_object m = true ->
  exists m', set_property m k v = Ok m' /\ get_property m' k = Some v /\
             is_object m' = true.
Proof.
  destruct m; try discriminate; intros _; eexists; (split; [reflexivity|]);
    simpl; rewrite obj_get_set; auto.
Qed.

Section Retrieval.

Context {codec : JSONCodec}.

Lemma to_document_no_distance (obj : WeaviateObject) :
  reported_distance obj = None ->
  to_document obj = Ok (document_with obj (parse_metadata (wo_properties obj))).
Proof.
  intros Hd. unfold to_document. rewrite Hd. reflexivity.
Qed.

Lemma to_document_no_metadata (obj : WeaviateObject) :
  parse_metadata (wo_properties obj) = None ->
  to_document obj = Ok (document_with obj None).
Proof.
  intros Hm. unfold to_document. rewrite Hm.
  destruct (reported_distance obj); reflexivity.
Qed.

Lemma to_document_falsy (obj : WeaviateObject) (m : json) :
  parse_metadata (wo_properties obj) = Some m -> truthy m = false ->
  to_document obj = Ok (document_with obj (Some m)).
Proof.
  intros Hm Hf. unfold to_document. rewrite Hm.
  destruct (reported_distance obj); [rewrite Hf|]; reflexivity.
Qed.

Lemma to_document_object (obj : WeaviateObject) (o : object) (d : number) :
  parse_metadata (wo_properties obj) = Some (JObj o) ->
  reported_distance obj = Some d ->
  to_document obj =
  Ok (document_with obj (Some (JObj (obj_set "_distance" (JNum d) o)))).
Proof.
  intros Hm Hd. unfold to_document. rewrite Hm, Hd. reflexivity.
Qed.

(** A stored text that parses to a truthy primitive (a number, [true], a
    string) makes the assignment of [_distance] throw, the modules being
    strict code: the mapping fails. *)
Lemma to_document_primitive_throws (obj : WeaviateObject) (m : json)
  (d : number) :
  parse_metadata (wo_properties obj) = Some m ->
  truthy m = true -> is_object m = false ->
  reported_distance obj = Some d ->
  exists message, to_document obj = Err (TypeError message).
Proof.
  intros Hm Ht Ho Hd. unfold to_document. rewrite Hm, Hd, Ht.
  destruct m; try discriminate Ho; try discriminate Ht;
    eexists; reflexivity.
Qed.

Lemma parse_metadata_unparsable (properties : text_properties) (raw : string) :
  obj_get "metadata" properties = Some raw -> raw <> EmptyString ->
  JSON_parse raw = None ->
  parse_metadata properties = Some (JObj [("metadata", JStr raw)]).
Proof.
  intros Hget Hne Hparse. unfold parse_metadata.
  rewrite Hget, (str_truthy_nonempty raw Hne), Hparse. reflexivity.
Qed.

(** C6, as the code has it. A stored metadata text that is not empty and
    does not parse never fails the mapping: the document's metadata is
    the text under the key [metadata], followed by [_distance] when the
    store reported a distance. *)
Theorem unparsable_metadata_wrapped (obj : WeaviateObject) (raw : string) :
  obj_get "metadata" (wo_properties obj) = Some raw ->
  raw <> EmptyString ->
  JSON_parse raw = None ->
  to_document obj =
  Ok (document_with obj
        (Some (JObj (("metadata", JStr raw) ::
                     match reported_distance obj with
                     | Some d => [("_distance", JNum d)]
                     | None => []
                     end)))).
Proof.
  intros Hget Hne Hparse.
  pose proof (parse_metadata_unparsable _ raw Hget Hne Hparse) as Hm.
  destruct (reported_distance obj) as [d|] eqn:Hd.
  - rewrite (to_document_object obj _ d Hm Hd). reflexivity.
  - rewrite (to_document_no_distance obj Hd), Hm. reflexivity.
Qed.

Lemma dropped_without_text (obj : WeaviateObject) :
  opt_truthy (obj_get "metadata" (wo_properties obj)) = false ->
  distance_dropped obj.
Proof.
  intros Hempty.
  assert (Hm : parse_metadata (wo_properties obj) = None).
  { unfold parse_metadata.
    destruct (obj_get "metadata" (wo_properties obj)) as [stored|];
      [|reflexivity].
    simpl in Hempty. rewrite Hempty. reflexivity. }
  unfold distance_dropped. rewrite Hm. split; [|exact I].
  apply to_document_no_metadata, Hm.
Qed.

(** C7, as the code has it. When the store reports a distance, it is put
    under [_distance] exactly when the result has a metadata object: the
    stored text is not empty and either does not parse or parses to an
    object. It is dropped silently when there is no stored text or an
    empty one, and also when the stored text, though not empty, parses to
    a falsy value ([null], [false], [0], the empty string). *)
Theorem distance_injection (obj : WeaviateObject) (d : number) :
  reported_distance obj = Some d ->
  (distance_injected obj d <-> metadata_object_present obj) /\
  (opt_truthy (obj_get "metadata" (wo_properties obj)) = false ->
   distance_dropped obj) /\
  (forall stored m,
     obj_get "metadata" (wo_properties obj) = Some stored ->
     JSON_parse stored = Some m -> truthy m = false ->
     distance_dropped obj).
Proof.
  intros Hd. split; [split|split].
  - intros (doc & m' & Hdoc & Hmeta & Hget).
    unfold to_document, parse_metadata in Hdoc. rewrite Hd in Hdoc.
    unfold metadata_object_present.
    destruct (obj_get "metadata" (wo_properties obj)) as [stored|];
      [|injection Hdoc as <-; discriminate Hmeta].
    exists stored. split; [reflexivity|].
    destruct stored as [|c stored];
      [injection Hdoc as <-; discriminate Hmeta|].
    split; [discriminate|]. simpl in Hdoc.
    destruct (JSON_parse (String c stored)) as [m|]; [|exact I].
    destruct (truthy m) eqn:Ht.
    + destruct m; try reflexivity; simpl in Hdoc; discriminate Hdoc.
    + injection Hdoc as <-. simpl in Hmeta. injection Hmeta as <-.
      destruct m; try discriminate Ht; discriminate Hget.
  - intros (stored & Hstored & Hne & Hparse).
    unfold distance_injected, to_document, parse_metadata.
    rewrite Hd, Hstored, (str_truthy_nonempty stored Hne).
    destruct (JSON_parse stored) as [m|].
    + destruct (get_set_property m "_distance" (JNum d) Hparse)
        as (m' & Hset & Hget & _).
      assert (Ht : truthy m = true)
        by (destruct m; try discriminate; reflexivity).
      rewrite Ht, Hset. eexists _, m'. repeat split. exact Hget.
    + eexists _, _. split; [reflexivity|]. split; reflexivity.
  - apply dropped_without_text.
  - intros stored m Hstored Hparse Hf.
    destruct (str_truthy stored) eqn:Hs.
    + assert (Hm : parse_metadata (wo_properties obj) = Some m).
      { unfold parse_metadata. rewrite Hstored, Hs, Hparse. reflexivity. }
      unfold distance_dropped. rewrite Hm. split.
      * apply to_document_falsy; assumption.
      * destruct m; try discriminate Hf; reflexivity.
    + apply dropped_without_text. rewrite Hstored. exact Hs.
Qed.

End Retrieval.

Section RoundTrip.

Context {codec : JSONCodec} {laws : JSONLaws codec}.

Lemma stored_metadata (id : string) (chunk : Document) (e : Embedding)
  (obj : WeaviateObject) :
  retrieved_as (store_object id chunk e) obj ->
  obj_get "metadata" (wo_properties obj) =
  Some (JSON_stringify (JObj (nullish (metadata chunk) []))).
Proof. intros Hret. rewrite Hret. reflexivity. Qed.

Lemma parse_written_metadata (id : string) (chunk : Document) (e : Embedding)
  (obj : WeaviateObject) :
  serializable (JObj (nullish (metadata chunk) [])) ->
  retrieved_as (store_object id chunk e) obj ->
  parse_metadata (wo_properties obj) =
  Some (JObj (nullish (metadata chunk) [])).
Proof.
  intros Hser Hret. unfold parse_metadata.
  rewrite (stored_metadata id chunk e obj Hret).
  rewrite (str_truthy_nonempty _ (stringify_nonempty _)).
  rewrite (parse_stringify _ Hser). reflexivity.
Qed.

Lemma retrieve_written (id : string) (chunk : Document) (e : Embedding)
  (obj : WeaviateObject) :
  serializable (JObj (nullish (metadata chunk) [])) ->
  retrieved_as (store_object id chunk e) obj ->
  to_document obj =
  Ok {| fd_data := data chunk;
        fd_dataType := or_empty (dataType chunk);
        fd_metadata :=
          Some (JObj match reported_distance obj with
                     | Some d =>
                         obj_set "_distance" (JNum d)
                           (nullish (metadata chunk) [])
                     | None => nullish (metadata chunk) []
                     end) |}.
Proof.
  intros Hser Hret.
  pose proof (parse_written_metadata id chunk e obj Hser Hret) as Hm.
  assert (Hdoc : forall md, document_with obj md =
            {| fd_data := data chunk;
               fd_dataType := or_empty (dataType chunk);
               fd_metadata := md |}).
  { intros md. unfold document_with. rewrite Hret. reflexivity. }
  destruct (reported_distance obj) as [d|] eqn:Hd.
  - rewrite (to_document_object obj _ d Hm Hd). rewrite Hdoc. reflexivity.
  - rewrite (to_document_no_distance obj Hd), Hm, Hdoc. reflexivity.
Qed.

(** The object literal of a chunk with serializable metadata [m] has the
    property [metadata] equal to [JSON.stringify(m)]; the document mapped
    from an object with these properties has content and type of the
    chunk and metadata [m], with [_distance] set to the distance when the
    store reports one. *)
Lemma chunk_round_trip (id : string) (chunk : Document) (e : Embedding)
  (m : object) :
  metadata chunk = Some m ->
  serializable (JObj m) ->
  obj_get "metadata" (so_properties (store_object id chunk e)) =
    Some (JSON_stringify (JObj m)) /\
  forall obj, retrieved_as (store_object id chunk e) obj ->
    exists m',
      to_document obj =
        Ok {| fd_data := data chunk;
              fd_dataType := or_empty (dataType chunk);
              fd_metadata := Some (JObj m') |} /\
      obj_remove "_distance" m' = obj_remove "_distance" m /\
      match reported_distance obj with
      | Some d => m' = obj_set "_distance" (JNum d) m
      | None => m' = m
      end.
Proof.
  intros Hmeta Hser. split.
  - simpl. rewrite Hmeta. reflexivity.
  - intros obj Hret.
    assert (Hser' : serializable (JObj (nullish (metadata chunk) [])))
      by (rewrite Hmeta; exact Hser).
    rewrite (retrieve_written id chunk e obj Hser' Hret), Hmeta. simpl.
    destruct (reported_distance obj) as [d|]; eexists; repeat split.
    apply obj_remove_set.
Qed.

(** The object literal of the indexer has a [metadata] property that is a
    non-empty text parsing to an object, the text of the empty object when
    the chunk has no metadata; the document retrieved from it has a
    metadata object, with [_distance] whenever a distance is reported. *)
Lemma store_object_metadata (id : string) (chunk : Document)
  (e : Embedding) :
  exists stored o,
    obj_get "metadata" (so_properties (store_object id chunk e)) = Some stored /\
    stored <> EmptyString /\
    JSON_parse stored = Some (JObj o) /\
    (metadata chunk = None -> stored = "{}" /\ o = []) /\
    forall obj, retrieved_as (store_object id chunk e) obj ->
      exists doc o',
        to_document obj = Ok doc /\
        fd_metadata doc = Some (JObj o') /\
        forall d, reported_distance obj = Some d ->
                  obj_get "_distance" o' = Some (JNum d).
Proof.
  destruct (parse_stringify_object (nullish (metadata chunk) [])) as [o Ho].
  exists (JSON_stringify (JObj (nullish (metadata chunk) []))), o.
  split; [reflexivity|]. split; [apply stringify_nonempty|].
  split; [exact Ho|]. split.
  - intros Hnone. rewrite Hnone in *. simpl in *.
    split; [apply stringify_empty_object|].
    rewrite (parse_stringify _ serializable_empty_object) in Ho.
    injection Ho as <-. reflexivity.
  - intros obj Hret.
    assert (Hm : parse_metadata (wo_properties obj) = Some (JObj o)).
    { unfold parse_metadata. rewrite (stored_metadata id chunk e obj Hret).
      rewrite (str_truthy_nonempty _ (stringify_nonempty _)), Ho.
      reflexivity. }
    destruct (reported_distance obj) as [d|] eqn:Hd.
    + rewrite (to_document_object obj o d Hm Hd).
      eexists _, _. split; [reflexivity|]. split; [reflexivity|].
      intros d' Hd'. injection Hd' as <-. apply obj_get_set.
    + rewrite (to_document_no_distance obj Hd), Hm.
      eexists _, _. split; [reflexivity|]. split; [reflexivity|].
      intros d' Hd'. discriminate Hd'.
Qed.

End RoundTrip.

Section ChunkOrder.

Context {codec : JSONCodec}.
Variable getEmbeddingDocuments : Document -> list Embedding -> list Document.
Variable uuidv4 : nat -> string.

Lemma chunk_objects_contents (docEmbeddings : list Embedding) :
  forall (n j : nat) (embeddingDocs : list Document),
    j + length docEmbeddings <= length embeddingDocs ->
    exists objs,
      chunk_objects uuidv4 n embeddingDocs j docEmbeddings = Ok objs /\
      map so_content objs =
        map data (take (length docEmbeddings) (drop j embeddingDocs)) /\
      map so_vector objs = map embedding docEmbeddings.
Proof.
  induction docEmbeddings as [|e es IH]; intros n j chunks Hlen; simpl.
  - exists []. repeat split.
  - simpl in Hlen.
    destruct (lookup_lt_is_Some_2 chunks j ltac:(lia)) as [c Hc].
    rewrite Hc.
    destruct (IH (S n) (S j) chunks ltac:(lia)) as (objs & -> & Hdata & Hvec).
    eexists. split; [reflexivity|]. simpl.
    rewrite Hdata, Hvec, (drop_S chunks c j Hc). repeat split.
Qed.

Lemma document_objects_contents (embeddings : list (list Embedding)) :
  forall (n i : nat) (docs : list Document),
    i + length embeddings <= length docs ->
    (forall k doc value,
       docs !! (i + k) = Some doc -> embeddings !! k = Some value ->
       length (getEmbeddingDocuments doc value) = length value) ->
    exists objss,
      document_objects getEmbeddingDocuments uuidv4 n docs i embeddings =
        Ok objss /\
      forall k doc value,
        docs !! (i + k) = Some doc -> embeddings !! k = Some value ->
        exists objs,
          objss !! k = Some objs /\
          map so_content objs = map data (getEmbeddingDocuments doc value) /\
          map so_vector objs = map embedding value.
Proof.
  induction embeddings as [|value rest IH]; intros n i docs Hlen Hchunks; simpl.
  - exists []. split; [reflexivity|]. intros k doc value _ Hk. discriminate Hk.
  - simpl in Hlen.
    destruct (lookup_lt_is_Some_2 docs i ltac:(lia)) as [doc Hdoc].
    rewrite Hdoc.
    assert (Hlen0 : length (getEmbeddingDocuments doc value) = length value).
    { apply (Hchunks 0); [rewrite Nat.add_0_r; exact Hdoc | reflexivity]. }
    destruct (chunk_objects_contents value n 0
                (getEmbeddingDocuments doc value) ltac:(lia))
      as (objs & -> & Hdata & Hvec).
    destruct (IH (n + length value) (S i) docs ltac:(lia)) as (objss & -> & Hrest).
    { intros k doc' value' Hd Hv. apply (Hchunks (S k)); [|exact Hv].
      rewrite <- Hd. f_equal. lia. }
    eexists. split; [reflexivity|].
    intros [|k] doc' value' Hd Hv.
    + rewrite Nat.add_0_r, Hdoc in Hd. injection Hd as <-.
      injection Hv as <-. exists objs. split; [reflexivity|].
      rewrite Hdata, Hvec. rewrite drop_0, <- Hlen0, firstn_all. auto.
    + apply (Hrest k doc' value'); [|exact Hv].
      rewrite <- Hd. f_equal. lia.
Qed.

(** C5. When the embedder answers every document and Genkit returns one
    chunk per embedding, the indexer builds its batch, and for every
    document the contents of its chunks stand in the batch next to each
    other and in the order of the chunks, with the vectors in the order of
    the embeddings; [insertObjects] hands the batch on in that order. *)
Theorem chunk_order_preserved (docs : list Document)
  (embeddings : list (list Embedding)) :
  length embeddings = length docs ->
  (forall i doc value,
     docs !! i = Some doc -> embeddings !! i = Some value ->
     length (getEmbeddingDocuments doc value) = length value) ->
  exists batch,
    indexer_objects getEmbeddingDocuments uuidv4 docs embeddings = Ok batch /\
    forall i doc value,
      docs !! i = Some doc -> embeddings !! i = Some value ->
      exists before objs after,
        batch = before ++ objs ++ after /\
        map so_content objs = map data (getEmbeddingDocuments doc value) /\
        map so_vector objs = map embedding value /\
        forall env client collection n,
          fst (exec env (Ok client) (insertObjects collection batch) n) =
          [Req (InsertMany client collection
                  (map insert_payload before ++ map insert_payload objs ++
                   map insert_payload after))].
Proof.
  intros Hlen Hchunks. unfold indexer_objects.
  destruct (document_objects_contents embeddings 0 0 docs ltac:(simpl; lia))
    as (objss & -> & Hall); [exact Hchunks|].
  eexists. split; [reflexivity|].
  intros i doc value Hdoc Hvalue.
  destruct (Hall i doc value Hdoc Hvalue) as (objs & Hobjs & Hdata & Hvec).
  exists (concat (take i objss)), objs, (concat (drop (S i) objss)).
  assert (Hbatch : concat objss =
            concat (take i objss) ++ objs ++ concat (drop (S i) objss)).
  { rewrite <- (take_drop_middle objss i objs Hobjs) at 1.
    rewrite concat_app. reflexivity. }
  split; [exact Hbatch|]. split; [exact Hdata|]. split; [exact Hvec|].
  intros env client collection n. unfold insertObjects. simpl.
  rewrite Hbatch, !List.map_app.
  destruct (env n unit _); reflexivity.
Qed.

End ChunkOrder.

Section Written.

Context {codec : JSONCodec} {laws : JSONLaws codec}.
Variable getEmbeddingDocuments : Document -> list Embedding -> list Document.
Variable uuidv4 : nat -> string.

Lemma chunk_objects_elements (docEmbeddings : list Embedding) :
  forall (n j : nat) (embeddingDocs : list Document) (objs : list StoreObject),
    chunk_objects uuidv4 n embeddingDocs j docEmbeddings = Ok objs ->
    forall obj, In obj objs ->
      exists chunk id e,
        In chunk embeddingDocs /\ In e docEmbeddings /\
        obj = store_object id chunk e.
Proof.
  induction docEmbeddings as [|e es IH]; intros n j chunks objs Hobjs obj Hin;
    simpl in Hobjs.
  - injection Hobjs as <-. destruct Hin.
  - destruct (chunks !! j) as [chunk|] eqn:Hchunk; [|discriminate Hobjs].
    destruct (chunk_objects uuidv4 (S n) chunks (S j) es) as [objs'|] eqn:Hrest;
      [|discriminate Hobjs].
    injection Hobjs as <-. destruct Hin as [<-|Hin].
    + exists chunk, (uuidv4 n), e. repeat split; [|left; reflexivity].
      apply list_elem_of_In, list_elem_of_lookup. eauto.
    + destruct (IH _ _ _ _ Hrest obj Hin) as (c & id & e' & Hc & He & ->).
      exists c, id, e'. repeat split; [exact Hc | right; exact He].
Qed.

Lemma document_objects_elements (embeddings : list (list Embedding)) :
  forall (n i : nat) (docs : list Document) (objss : list (list StoreObject)),
    document_objects getEmbeddingDocuments uuidv4 n docs i embeddings =
      Ok objss ->
    forall obj, In obj (concat objss) ->
      exists doc value chunk,
        In doc docs /\ In value embeddings /\ written_for getEmbeddingDocuments doc value chunk obj.
Proof.
  induction embeddings as [|value rest IH]; intros n i docs objss Hobjss obj Hin;
    simpl in Hobjss.
  - injection Hobjss as <-. destruct Hin.
  - destruct (docs !! i) as [doc|] eqn:Hdoc; [|discriminate Hobjss].
    destruct (chunk_objects uuidv4 n (getEmbeddingDocuments doc value) 0 value)
      as [objs|] eqn:Hobjs; [|discriminate Hobjss].
    destruct (document_objects getEmbeddingDocuments uuidv4 (n + length value)
                docs (S i) rest) as [objss'|] eqn:Hrest; [|discriminate Hobjss].
    injection Hobjss as <-. simpl in Hin. apply in_app_or in Hin as [Hin|Hin].
    + destruct (chunk_objects_elements _ _ _ _ _ Hobjs obj Hin)
        as (chunk & id & e & Hc & He & ->).
      exists doc, value, chunk. split; [|split; [left; reflexivity|]].
      * apply list_elem_of_In, list_elem_of_lookup. eauto.
      * split; [exact Hc|]. exists id, e. split; [exact He | reflexivity].
    + destruct (IH _ _ _ _ Hrest obj Hin) as (d & v & c & Hd & Hv & Hw).
      exists d, v, c. split; [exact Hd|]. split; [right; exact Hv | exact Hw].
Qed.

(** C10. Every object of the batch the indexer builds is the object
    literal of some chunk, and its [metadata] property is a non-empty text
    that parses to an object, the empty object written [{}] when the
    chunk has no metadata. So the document retrieved from such an object
    always has a metadata object, and that object has [_distance]
    whenever the store reports a distance, also for a chunk indexed
    without metadata. *)
Theorem written_metadata_is_object (docs : list Document)
  (embeddings : list (list Embedding)) (batch : list StoreObject)
  (written : StoreObject) :
  indexer_objects getEmbeddingDocuments uuidv4 docs embeddings = Ok batch ->
  In written batch ->
  exists doc value chunk stored o,
    In doc docs /\ In value embeddings /\
    written_for getEmbeddingDocuments doc value chunk written /\
    obj_get "metadata" (so_properties written) = Some stored /\
    stored <> EmptyString /\
    JSON_parse stored = Some (JObj o) /\
    (metadata chunk = None -> stored = "{}" /\ o = []) /\
    forall obj, retrieved_as written obj ->
      exists document o',
        to_document obj = Ok document /\
        fd_metadata document = Some (JObj o') /\
        forall d, reported_distance obj = Some d ->
                  obj_get "_distance" o' = Some (JNum d).
Proof.
  intros Hbatch Hin. unfold indexer_objects in Hbatch.
  destruct (document_objects getEmbeddingDocuments uuidv4 0 docs 0 embeddings)
    as [objss|] eqn:Hobjss; [|discriminate Hbatch].
  injection Hbatch as <-.
  destruct (document_objects_elements _ _ _ _ _ Hobjss written Hin)
    as (doc & value & chunk & Hdoc & Hvalue & Hw).
  pose proof Hw as (Hchunk & id & e & He & ->).
  destruct (store_object_metadata id chunk e) as (stored & o & H).
  exists doc, value, chunk, stored, o.
  split; [exact Hdoc|]. split; [exact Hvalue|]. split; [exact Hw | exact H].
Qed.

End Written.

(** ** Running programs *)

Lemma exec_bind {A B : Type} (env : Env) (init : Result WeaviateClient)
  (p : Prog A) (f : A -> Prog B) :
  forall n,
    exec env init (bind p f) n =
    match exec env init p n with
    | (reqs, Ok a) =>
        let '(reqs', r) := exec env init (f a) (n + length reqs) in
        (reqs ++ reqs', r)
    | (reqs, Err e) => (reqs, Err e)
    end.
Proof.
  induction p as [a|e|k IH|T c k IH]; intros n; simpl.
  - rewrite Nat.add_0_r. destruct (exec env init (f a) n). reflexivity.
  - reflexivity.
  - apply IH.
  - rewrite IH. destruct (exec env init (k (env n T c)) (S n)) as [reqs [a|e]];
      [|reflexivity].
    cbn [length Nat.add]. rewrite Nat.add_succ_r.
    destruct (exec env init (f a) (S (n + length reqs))). reflexivity.
Qed.

Lemma exec_embed_each (env : Env) (init : Result WeaviateClient)
  (e : EmbedderArgument) (eo : option object) (docs : list Document) :
  forall n,
    exec env init (embed_each e eo docs) n =
    (map (fun doc => Req (Embed e doc eo)) docs,
     Ok (embed_settlements env n e eo docs)).
Proof.
  induction docs as [|doc docs IH]; intros n; [reflexivity|].
  cbn [embed_each exec]. rewrite exec_bind, IH. simpl.
  rewrite app_nil_r. reflexivity.
Qed.

(** Every embed request goes out; the call settles as [Promise.all]
    does. *)
Lemma exec_embed_all_settlements (env : Env) (init : Result WeaviateClient)
  (e : EmbedderArgument) (eo : option object) (docs : list Document)
  (n : nat) :
  exec env init (embed_all e eo docs) n =
  (map (fun doc => Req (Embed e doc eo)) docs,
   all_fulfilled (embed_settlements env n e eo docs)).
Proof.
  unfold embed_all. rewrite exec_bind, exec_embed_each.
  destruct (all_fulfilled (embed_settlements env n e eo docs)); simpl;
    rewrite app_nil_r; reflexivity.
Qed.

Lemma all_fulfilled_answers (env : Env) (e : EmbedderArgument)
  (eo : option object) (docs : list Document) :
  forall n embeddings,
    all_fulfilled (embed_settlements env n e eo docs) = Ok embeddings <->
    embedder_answers env n e eo docs embeddings.
Proof.
  induction docs as [|doc docs IH]; intros n embeddings; simpl.
  - split.
    + intros H. injection H as <-. split; [reflexivity|].
      intros k doc value Hk. discriminate Hk.
    + intros [Hlen _]. destruct embeddings; [reflexivity | discriminate Hlen].
  - destruct (env n (list Embedding) (Embed e doc eo)) as [value|failure]
      eqn:Hdoc.
    + split.
      * destruct (all_fulfilled (embed_settlements env (S n) e eo docs))
          as [values|failure] eqn:Hrest; [|discriminate].
        intros H. injection H as <-.
        apply IH in Hrest as [Hlen Hans]. split; [simpl; lia|].
        intros [|k] d v Hd Hv.
        -- injection Hd as <-. injection Hv as <-.
           rewrite Nat.add_0_r. exact Hdoc.
        -- rewrite <- (Hans k d v Hd Hv). f_equal. lia.
      * intros [Hlen Hans].
        destruct embeddings as [|value' values]; [discriminate Hlen|].
        pose proof (Hans 0 doc value' eq_refl eq_refl) as H0.
        rewrite Nat.add_0_r, Hdoc in H0. injection H0 as <-.
        assert (Hrest : all_fulfilled (embed_settlements env (S n) e eo docs)
                        = Ok values).
        { apply IH. split; [simpl in Hlen; lia|].
          intros k d v Hd Hv. rewrite <- (Hans (S k) d v Hd Hv).
          f_equal. lia. }
        rewrite Hrest. reflexivity.
    + split; [discriminate|]. intros [Hlen Hans].
      destruct embeddings as [|value' values]; [discriminate Hlen|].
      pose proof (Hans 0 doc value' eq_refl eq_refl) as H0.
      rewrite Nat.add_0_r, Hdoc in H0. discriminate H0.
Qed.

Lemma all_fulfilled_rejected (env : Env) (e : EmbedderArgument)
  (eo : option object) (docs : list Document) :
  forall n failure,
    all_fulfilled (embed_settlements env n e eo docs) = Err failure ->
    exists k doc, docs !! k = Some doc /\
      env (n + k) _ (Embed e doc eo) = Err failure.
Proof.
  induction docs as [|doc docs IH]; intros n failure; simpl; [discriminate|].
  destruct (env n (list Embedding) (Embed e doc eo)) as [value|failure']
    eqn:Hdoc.
  - destruct (all_fulfilled (embed_settlements env (S n) e eo docs))
      as [values|failure''] eqn:Hrest; [discriminate|].
    intros H. injection H as ->.
    destruct (IH (S n) failure Hrest) as (k & d & Hd & Hfail).
    exists (S k), d. split; [exact Hd|]. rewrite <- Hfail. f_equal. lia.
  - intros H. injection H as ->. exists 0, doc. split; [reflexivity|].
    rewrite Nat.add_0_r. exact Hdoc.
Qed.

Lemma exec_embed_all (env : Env) (init : Result WeaviateClient)
  (e : EmbedderArgument) (eo : option object) (docs : list Document) :
  forall n embeddings,
    embedder_answers env n e eo docs embeddings ->
    exec env init (embed_all e eo docs) n =
    (map (fun doc => Req (Embed e doc eo)) docs, Ok embeddings).
Proof.
  intros n embeddings Hans. rewrite exec_embed_all_settlements.
  apply all_fulfilled_answers in Hans. rewrite Hans. reflexivity.
Qed.

Section Handlers.

Context {codec : JSONCodec}.
Variable getEmbeddingDocuments : Document -> list Embedding -> list Document.
Variable uuidv4 : nat -> string.

(** An indexing call whose provisioning step went through asks the
    embedder once per document, in order, builds the batch and sends it
    in one [insertMany]. *)
Lemma weaviateIndexer_requests (env : Env) (client : WeaviateClient)
  (collectionName : string) (e : EmbedderArgument) (eo : option object)
  (docs : list Document) (options : option WeaviateIndexerOptions)
  (embeddings : list (list Embedding)) (batch : list StoreObject) (n : nat)
  (reqs : list Request) :
  exec env (Ok client) (provision collectionName options) n = (reqs, Ok tt) ->
  embedder_answers env (n + length reqs) e eo docs embeddings ->
  indexer_objects getEmbeddingDocuments uuidv4 docs embeddings = Ok batch ->
  fst (exec env (Ok client)
         (weaviateIndexer getEmbeddingDocuments uuidv4 collectionName e eo
            docs options) n) =
  reqs ++ map (fun doc => Req (Embed e doc eo)) docs ++
  [Req (InsertMany client collectionName (map insert_payload batch))].
Proof.
  intros Hprov Hans Hbatch. unfold weaviateIndexer.
  fold (provision collectionName options).
  rewrite exec_bind, Hprov.
  rewrite exec_bind, (exec_embed_all env _ e eo docs _ embeddings Hans).
  rewrite Hbatch. unfold insertObjects. simpl.
  destruct (env _ unit _); reflexivity.
Qed.

(** A retrieval call embeds the query, searches with the first embedding,
    [k ?? 10], and the distance and filters as given, asking for the
    distance back, and maps the results in the order of the store. *)
Lemma weaviateRetriever_outcome (env : Env) (client : WeaviateClient)
  (collectionName : string) (e : EmbedderArgument) (eo : option object)
  (content : Document) (options : WeaviateRetrieverOptions) (n : nat)
  (first : Embedding) (others : list Embedding) (objs : list WeaviateObject) :
  let query :=
    NearVector client collectionName (embedding first)
      {| nv_limit := nullish (ro_k options) 10%Q;
         nv_returnMetadata := ["distance"];
         nv_distance := ro_distance options;
         nv_filters := ro_filters options |} in
  env n _ (Embed e content eo) = Ok (first :: others) ->
  env (S n) _ query = Ok objs ->
  exec env (Ok client)
    (weaviateRetriever collectionName e eo content (Some options)) n =
  ([Req (Embed e content eo); Req query], map_result to_document objs).
Proof.
  intros query Hembed Hsearch. unfold weaviateRetriever, await. simpl.
  rewrite Hembed. simpl. fold query. rewrite Hsearch. simpl.
  destruct (map_result to_document objs); reflexivity.
Qed.

End Handlers.

(** ** The claims at work, with the reference codec *)

Lemma written_metadata_is_object_witness :
  exists doc value chunk stored o,
    In doc example_docs /\ In value example_embeddings /\
    written_for (codec := reference_codec) numbered_chunks doc value chunk
      (store_object (codec := reference_codec) "d"
         {| data := "Genkit is an AI framework#0"; dataType := None;
            metadata := None |} (unit_vector 4)) /\
    obj_get "metadata"
      (so_properties
         (store_object (codec := reference_codec) "d"
            {| data := "Genkit is an AI framework#0"; dataType := None;
               metadata := None |} (unit_vector 4))) = Some stored /\
    stored <> EmptyString /\
    ref_parse stored = Some (JObj o) /\
    (metadata chunk = None -> stored = "{}" /\ o = []) /\
    forall obj,
      retrieved_as
        (store_object (codec := reference_codec) "d"
           {| data := "Genkit is an AI framework#0"; dataType := None;
              metadata := None |} (unit_vector 4)) obj ->
      exists document o',
        to_document (codec := reference_codec) obj = Ok document /\
        fd_metadata document = Some (JObj o') /\
        forall d, reported_distance obj = Some d ->
                  obj_get "_distance" o' = Some (JNum d).
Proof.
  apply (written_metadata_is_object (codec := reference_codec)
           (laws := reference_codec_laws) numbered_chunks sequential_ids
           example_docs example_embeddings example_batch).
  - reflexivity.
  - right. right. right. left. reflexivity.
Defined.

Lemma chunk_order_preserved_witness :
  exists batch,
    indexer_objects (codec := reference_codec) numbered_chunks sequential_ids
      example_docs example_embeddings = Ok batch /\
    forall i doc value,
      example_docs !! i = Some doc ->
      example_embeddings !! i = Some value ->
      exists before objs after,
        batch = before ++ objs ++ after /\
        map so_content objs = map data (numbered_chunks doc value) /\
        map so_vector objs = map embedding value /\
        forall env client collection n,
          fst (exec env (Ok client) (insertObjects collection batch) n) =
          [Req (InsertMany client collection
                  (map insert_payload before ++ map insert_payload objs ++
                   map insert_payload after))].
Proof.
  apply (chunk_order_preserved (codec := reference_codec) numbered_chunks
           sequential_ids example_docs example_embeddings).
  - reflexivity.
  - intros i doc value _ _. apply length_imap.
Defined.

Lemma unparsable_metadata_wrapped_witness :
  to_document (codec := reference_codec)
    (result_object "not json" (Some (1 # 4))) =
  Ok {| fd_data := "Weaviate is a vector database";
        fd_dataType := "text";
        fd_metadata :=
          Some (JObj [("metadata", JStr "not json");
                      ("_distance", JNum (1 # 4))]) |}.
Proof.
  apply (unparsable_metadata_wrapped (codec := reference_codec)
           (result_object "not json" (Some (1 # 4))) "not json").
  - reflexivity.
  - discriminate.
  - vm_compute. reflexivity.
Defined.

(** C6, as stated, fails: the stored text [not json] does not parse and the
    store reports the distance 1/4; the metadata of the document is not
    the wrapper alone, it has [_distance] too. *)
Lemma unparsable_metadata_gets_distance :
  JSON_parse (JSONCodec := reference_codec) "not json" = None /\
  to_document (codec := reference_codec)
    (result_object "not json" (Some (1 # 4))) <>
  Ok (document_with (result_object "not json" (Some (1 # 4)))
        (Some (JObj [("metadata", JStr "not json")]))).
Proof.
  split; [vm_compute; reflexivity|]. vm_compute. discriminate.
Qed.

Lemma distance_injection_witness :
  (distance_injected (codec := reference_codec)
     (result_object "{}" (Some (1 # 4))) (1 # 4) <->
   metadata_object_present (codec := reference_codec)
     (result_object "{}" (Some (1 # 4)))) /\
  (opt_truthy
     (obj_get "metadata" (wo_properties (result_object "{}" (Some (1 # 4))))) =
   false ->
   distance_dropped (codec := reference_codec)
     (result_object "{}" (Some (1 # 4)))) /\
  (forall stored m,
     obj_get "metadata" (wo_properties (result_object "{}" (Some (1 # 4)))) =
       Some stored ->
     ref_parse stored = Some m -> truthy m = false ->
     distance_dropped (codec := reference_codec)
       (result_object "{}" (Some (1 # 4)))).
Proof.
  exact (distance_injection (codec := reference_codec)
           (result_object "{}" (Some (1 # 4))) (1 # 4) eq_refl).
Defined.

(** C7, as stated, fails: the stored metadata text [null] is not empty,
    the store reports the distance 1/4, and the document comes back with
    the metadata [null] and no [_distance]. *)
Lemma null_metadata_drops_distance :
  obj_get "metadata" (wo_properties (result_object "null" (Some (1 # 4)))) =
    Some "null" /\
  reported_distance (result_object "null" (Some (1 # 4))) = Some (1 # 4) /\
  to_document (codec := reference_codec)
    (result_object "null" (Some (1 # 4))) =
    Ok (document_with (result_object "null" (Some (1 # 4))) (Some JNull)) /\
  ~ distance_injected (codec := reference_codec)
      (result_object "null" (Some (1 # 4))) (1 # 4).
Proof.
  repeat split.
  intros (doc & m & Hdoc & Hm & Hget).
  vm_compute in Hdoc. injection Hdoc as <-.
  simpl in Hm. injection Hm as <-. discriminate Hget.
Qed.

(** * Further properties *)

(** ** The connection ([initialize], the constructor) *)

(** X1. The constructor sends one connection request, and the kind of
    request and the credentials go together: a cloud connection exactly
    when [apiKey] is a non-empty string, with that key as credentials; a
    local connection otherwise, without credentials (an empty [apiKey]
    counts as none), on [port ?? 8080] and [grpcPort ?? 50051]. The
    headers are passed in both cases. *)
Theorem connection_mode (params : WeaviateClientParams) :
  exists c : Call WeaviateClient,
    requests (construct params) = [Req c] /\
    match c with
    | ConnectToWeaviateCloud h o =>
        h = host params /\ co_headers o = headers params /\
        exists key, apiKey params = Some key /\ key <> EmptyString /\
                    co_authCredentials o = Some (MkApiKey key)
    | ConnectToLocal h p g o =>
        h = host params /\ co_headers o = headers params /\
        opt_truthy (apiKey params) = false /\
        co_authCredentials o = None /\
        p = nullish (port params) 8080%Z /\
        g = nullish (grpcPort params) 50051%Z
    | _ => False
    end.
Proof.
  unfold construct, initialize, connectionOptions.
  destruct (apiKey params) as [[|a key]|] eqn:Hkey; simpl;
    eexists; (split; [reflexivity|]); simpl; repeat split.
  exists (String a key). repeat split. discriminate.
Qed.

(** X2. [secure] and [timeout] are never read, and [port] and [grpcPort]
    are not read for a cloud connection: two parameter records that agree
    on [host], [apiKey] and [headers], and on the ports when the
    connection is local, give the same instance and the same connection
    request. *)
Theorem unused_connection_params (p q : WeaviateClientParams) :
  host p = host q -> apiKey p = apiKey q -> headers p = headers q ->
  (opt_truthy (apiKey p) = false ->
   port p = port q /\ grpcPort p = grpcPort q) ->
  construct p = construct q.
Proof.
  intros Hh Hk Hd Hports.
  assert (Hinit : initialize p = initialize q).
  { unfold initialize, connectionOptions. rewrite <- Hh, <- Hk, <- Hd.
    destruct (opt_truthy (apiKey p)); [reflexivity|].
    destruct (Hports eq_refl) as [<- <-]. reflexivity. }
  unfold construct. rewrite Hinit. reflexivity.
Qed.

Lemma unused_connection_params_witness :
  construct tuned_params = construct local_params.
Proof.
  apply (unused_connection_params tuned_params local_params);
    [reflexivity | reflexivity | reflexivity |].
  intros _. split; reflexivity.
Defined.

(** X3. With the connection attempt failed with [e], every method that
    awaits the initialization sends nothing and is rejected with [e];
    [close] alone fulfils. *)
Theorem failed_connection_rejects (env : Env) (e : exn) (op : Operation)
  (n : nat) :
  exec env (Err e) (body op) n =
  ([], if awaits_init op then Err e else Ok VUnit).
Proof. destruct op; reflexivity. Qed.

(** ** The event loop, after the settlement *)

Lemma step_settled (w w' : World) (r : Result WeaviateClient) :
  step w w' -> settled (initPromise w) = Some r ->
  initPromise w' = initPromise w.
Proof.
  intros Hstep Hset. destruct Hstep as [| w T c k r' Hinit | |];
    try reflexivity.
  rewrite Hinit in Hset. discriminate Hset.
Qed.

Lemma steps_settled (w w' : World) (r : Result WeaviateClient) :
  steps w w' -> settled (initPromise w) = Some r ->
  initPromise w' = initPromise w.
Proof.
  intros Hsteps Hset. induction Hsteps as [|w w' w'' _ IH Hstep];
    [reflexivity|].
  rewrite <- (IH Hset). apply (step_settled _ _ r Hstep).
  rewrite (IH Hset). exact Hset.
Qed.

Lemma steps_reachable (params : WeaviateClientParams) (w w' : World) :
  reachable params w -> steps w w' -> reachable params w'.
Proof.
  intros Hw Hsteps. induction Hsteps as [|w w' w'' _ IH Hstep]; [exact Hw|].
  eapply reach_step; [exact (IH Hw) | exact Hstep].
Qed.

Lemma filter_all_connect (reqs : list Request) :
  (forall req, In req reqs -> is_connect req = true) ->
  List.filter is_connect reqs = reqs.
Proof.
  induction reqs as [|req reqs IH]; intros Hin; [reflexivity|].
  simpl. rewrite (Hin req (or_introl eq_refl)), IH; [reflexivity|].
  intros req' Hreq'. apply Hin. right. exact Hreq'.
Qed.

(** X4. A failed connection attempt is final. Once the promise stored by
    the constructor is rejected with [e], it stays so whatever is called
    and whatever runs afterwards: no request is ever sent besides the
    connection request of the constructor (no retry, nothing to the
    store), and every method called is either still where it started or
    rejected with [e]. *)
Theorem failed_stays_failed (params : WeaviateClientParams) (w w' : World)
  (e : exn) :
  reachable params w -> settled (initPromise w) = Some (Err e) ->
  steps w w' ->
  settled (initPromise w') = Some (Err e) /\
  requests w' = requests (construct params) /\
  forall i t, tasks w' !! i = Some t ->
    t_state t = body (t_op t) \/ t_state t = Throw e.
Proof.
  intros Hreach Hset Hsteps.
  assert (Hset' : settled (initPromise w') = Some (Err e))
    by (rewrite (steps_settled w w' _ Hsteps Hset); exact Hset).
  pose proof (reachable_inv params w'
                (steps_reachable params w w' Hreach Hsteps))
    as [Hc _ _ Hr Ht].
  split; [exact Hset'|]. split.
  - change (requests (construct params)) with (issues (initialize params)).
    rewrite <- Hc. symmetry. apply filter_all_connect. intros req Hin.
    destruct (Hr req Hin) as [Hconn|(client & Hok & _)]; [exact Hconn|].
    rewrite Hset' in Hok. discriminate Hok.
  - intros i t Hi. destruct (Ht i t Hi) as [_ Hrun].
    rewrite Hset' in Hrun. destruct Hrun as [Hrun _].
    destruct (awaits_init (t_op t)) eqn:Hop.
    + destruct (body_guarded (t_op t) Hop) as (k & Hk & Hrej).
      rewrite Hk in Hrun. apply runs_to_await_init in Hrun as [Hq|Hq].
      * left. congruence.
      * right. rewrite Hrej in Hq. apply runs_to_throw in Hq. exact Hq.
    + destruct (t_op t); try discriminate Hop.
      left. inversion Hrun. reflexivity.
Qed.

Lemma example_refused_reachable : reachable local_params example_refused.
Proof.
  apply reach_step with (w := example_called).
  - apply reach_step
      with (w := invoke (OpCollectionExists "Documents")
                   (construct local_params)).
    + apply reach_step with (w := construct local_params).
      * apply reach_construct.
      * apply step_invoke.
    + apply step_invoke.
  - exact (step_connected example_called _
             (ConnectToLocal "localhost" 8080 50051
                {| co_headers := None; co_authCredentials := None |})
             (fun r => match r with Ok c => Return c | Err e => Throw e end)
             (Err refused) eq_refl).
Defined.

Lemma example_refused_runs : steps example_refused example_run.
Proof.
  apply steps_step with (w' := example_refused); [apply steps_refl|].
  exact (step_resume example_refused 0
           {| t_op := OpCollectionExists "Documents";
              t_state := body (OpCollectionExists "Documents") |}
           _ (Err refused) eq_refl eq_refl eq_refl).
Defined.

Lemma failed_stays_failed_witness :
  settled (initPromise example_run) = Some (Err refused) /\
  requests example_run = requests (construct local_params) /\
  forall i t, tasks example_run !! i = Some t ->
    t_state t = body (t_op t) \/ t_state t = Throw refused.
Proof.
  exact (failed_stays_failed local_params example_refused example_run refused
           example_refused_reachable eq_refl example_refused_runs).
Defined.

(** X5. [close] never waits and never sends: a call of [close] is
    fulfilled in every state the instance can reach, also while the
    connection request is still in flight or after it failed, and calling
    it adds no request. *)
Theorem close_immediate (params : WeaviateClientParams) (w : World) (i : nat)
  (t : Task) :
  reachable params w -> tasks w !! i = Some t -> t_op t = OpClose ->
  t_state t = Return VUnit /\ requests (invoke OpClose w) = requests w.
Proof.
  intros Hreach Hi Hop. split.
  - apply reachable_inv in Hreach as [_ _ _ _ Ht].
    destruct (Ht i t Hi) as [_ Hrun]. rewrite Hop in Hrun.
    destruct (settled (initPromise w)); [|exact Hrun].
    destruct Hrun as [Hrun _]. inversion Hrun. reflexivity.
  - simpl. apply app_nil_r.
Qed.

Lemma close_immediate_witness :
  t_state {| t_op := OpClose; t_state := body OpClose |} = Return VUnit /\
  requests (invoke OpClose example_closed) = requests example_closed.
Proof.
  exact (close_immediate local_params example_closed 0
           {| t_op := OpClose; t_state := body OpClose |}
           (reach_step local_params (construct local_params) example_closed
              (reach_construct local_params)
              (step_invoke (construct local_params) OpClose))
           eq_refl eq_refl).
Defined.

(** ** The methods of the wrapper, run *)

Lemma exec_createCollection (env : Env) (client : WeaviateClient)
  (config : CollectionConfig) (n : nat) :
  exec env (Ok client) (createCollection config) n =
  match env n _ (ConfigGet client (name config)) with
  | Ok _ => ([Req (ConfigGet client (name config))], Ok tt)
  | Err _ =>
      ([Req (ConfigGet client (name config));
        Req (CollectionsCreate client (create_request config))],
       env (S n) _ (CollectionsCreate client (create_request config)))
  end.
Proof.
  unfold createCollection, collectionExists. simpl.
  destruct (env n string (ConfigGet client (name config))); simpl;
    [reflexivity|].
  destruct (env (S n) unit (CollectionsCreate client (create_request config)))
    as [[]|e']; reflexivity.
Qed.

(** X6. [createCollection] on a collection that is there (the lookup
    succeeds) sends the lookup only and fulfils: nothing is created or
    changed. When the lookup fails for whatever reason, the creation is
    sent, and the call settles as the creation does: a rejected creation
    rejects it. On a failed connection nothing is sent at all. *)
Theorem createCollection_outcome (env : Env) (init : Result WeaviateClient)
  (config : CollectionConfig) (n : nat) :
  exec env init (createCollection config) n =
  match init with
  | Err e => ([], Err e)
  | Ok client =>
      match env n _ (ConfigGet client (name config)) with
      | Ok _ => ([Req (ConfigGet client (name config))], Ok tt)
      | Err _ =>
          ([Req (ConfigGet client (name config));
            Req (CollectionsCreate client (create_request config))],
           env (S n) _ (CollectionsCreate client (create_request config)))
      end
  end.
Proof.
  destruct init as [client|e]; [|reflexivity].
  apply exec_createCollection.
Qed.

(** X7. [createCollection] called twice creates once: when the first
    call finds no collection and creates it, and the store then has it,
    the second call sends its lookup and nothing else. *)
Theorem createCollection_twice (env : Env) (client : WeaviateClient)
  (config : CollectionConfig) (n : nat) (e : exn) (stored : string) :
  env n _ (ConfigGet client (name config)) = Err e ->
  env (S n) _ (CollectionsCreate client (create_request config)) = Ok tt ->
  env (S (S n)) _ (ConfigGet client (name config)) = Ok stored ->
  exec env (Ok client) (createCollection config ;;; createCollection config) n =
  ([Req (ConfigGet client (name config));
    Req (CollectionsCreate client (create_request config));
    Req (ConfigGet client (name config))], Ok tt).
Proof.
  intros Hmissing Hcreate Hthere.
  rewrite exec_bind, !exec_createCollection, Hmissing, Hcreate.
  cbn [length Nat.add]. rewrite !Nat.add_succ_r, Nat.add_0_r.
  rewrite exec_createCollection, Hthere. reflexivity.
Qed.

Lemma createCollection_twice_witness :
  exec created_on_demand (Ok (ClientHandle 0))
    (createCollection documents_config ;;; createCollection documents_config)
    0 =
  ([Req (ConfigGet (ClientHandle 0) "Documents");
    Req (CollectionsCreate (ClientHandle 0) (create_request documents_config));
    Req (ConfigGet (ClientHandle 0) "Documents")], Ok tt).
Proof.
  exact (createCollection_twice created_on_demand (ClientHandle 0)
           documents_config 0 (Rejection "collection not found") "Documents"
           eq_refl eq_refl eq_refl).
Defined.

Lemma createCollection_properties_unused (c1 c2 : CollectionConfig) :
  name c1 = name c2 -> description c1 = description c2 ->
  createCollection c1 = createCollection c2.
Proof.
  intros Hn Hd. unfold createCollection, create_request.
  rewrite Hn, Hd. reflexivity.
Qed.

(** X9. [insertObjects] sends one [insertMany], also for an empty array,
    and settles as it does. The array sent has one element per object, in
    order, with the properties and the vector of the object; the
    identifier is passed when it is a non-empty string and left out when
    it is missing or empty. *)
Theorem insertObjects_request (env : Env) (client : WeaviateClient)
  (collectionName : string) (objs : list StoreObject) (n : nat) :
  exists payload,
    exec env (Ok client) (insertObjects collectionName objs) n =
      ([Req (InsertMany client collectionName payload)],
       env n _ (InsertMany client collectionName payload)) /\
    length payload = length objs /\
    forall i obj, objs !! i = Some obj ->
      exists sent,
        payload !! i = Some sent /\
        io_properties sent = so_properties obj /\
        io_vectors sent = so_vector obj /\
        match so_id obj with
        | Some (String a id) => io_id sent = Some (String a id)
        | _ => io_id sent = None
        end.
Proof.
  exists (map insert_payload objs). split; [|split].
  - unfold insertObjects. simpl.
    destruct (env n unit _) as [[]|e]; reflexivity.
  - apply length_map.
  - intros i obj Hi. exists (insert_payload obj). split.
    + rewrite list_lookup_fmap, Hi. reflexivity.
    + repeat split. simpl. destruct (so_id obj) as [[|a id]|]; reflexivity.
Qed.

(** X10. Whenever [search] fulfils, it has sent exactly one [nearVector]
    query, with limit [limit ?? 10] and asking for the distance, its
    [objects] are the answer of the store to that query, unchanged, and
    its [total] is their number. *)
Theorem search_total (env : Env) (init : Result WeaviateClient)
  (collectionName : string) (vector : list number) (limit : option number)
  (options : option SearchOptions) (n : nat) (result : SearchResult) :
  snd (exec env init (search collectionName vector limit options) n) =
    Ok result ->
  total result = Some (inject_Z (Z.of_nat (length (objects result)))) /\
  exists client opts,
    init = Ok client /\
    fst (exec env init (search collectionName vector limit options) n) =
      [Req (NearVector client collectionName vector opts)] /\
    env n _ (NearVector client collectionName vector opts) =
      Ok (objects result) /\
    nv_limit opts = nullish limit 10%Q /\
    nv_returnMetadata opts = ["distance"].
Proof.
  destruct init as [client|e]; [|discriminate].
  unfold search. simpl.
  destruct (env n (list WeaviateObject) _) as [objs|e] eqn:Hq; simpl;
    [|discriminate].
  intros Hres. injection Hres as <-. split; [reflexivity|].
  eexists client, _. split; [reflexivity|]. split; [reflexivity|].
  split; [exact Hq|]. split; reflexivity.
Qed.

Lemma search_total_witness :
  total {| objects := []; total := Some 0%Q |} = Some 0%Q /\
  exists client opts,
    Ok (ClientHandle 0) = Ok client /\
    fst (exec empty_store (Ok (ClientHandle 0))
           (search "Documents" [1%Q] None None) 0) =
      [Req (NearVector client "Documents" [1%Q] opts)] /\
    empty_store 0 _ (NearVector client "Documents" [1%Q] opts) = Ok [] /\
    nv_limit opts = 10%Q /\
    nv_returnMetadata opts = ["distance"].
Proof.
  exact (search_total empty_store (Ok (ClientHandle 0)) "Documents" [1%Q]
           None None 0 {| objects := []; total := Some 0%Q |} eq_refl).
Defined.

Lemma exec_delete_each (env : Env) (client : WeaviateClient)
  (collectionName : string) (ids : list string) :
  forall n,
    (forall i id, ids !! i = Some id ->
       env (n + i) _ (DeleteById client collectionName id) = Ok tt) ->
    exec env (Ok client) (delete_each client collectionName ids) n =
    (delete_requests client collectionName ids, Ok tt).
Proof.
  induction ids as [|id ids IH]; intros n Hok; [reflexivity|].
  pose proof (Hok 0 id eq_refl) as H0. rewrite Nat.add_0_r in H0.
  cbn [delete_each]. unfold await. cbn [bind exec]. rewrite H0.
  cbn [bind]. rewrite IH; [reflexivity|].
  intros i id' Hi. rewrite <- (Hok (S i) id' Hi). f_equal. lia.
Qed.

Lemma exec_delete_each_fails (env : Env) (client : WeaviateClient)
  (collectionName : string) (before : list string) (id : string)
  (after : list string) (e : exn) :
  forall n,
    (forall i id', before !! i = Some id' ->
       env (n + i) _ (DeleteById client collectionName id') = Ok tt) ->
    env (n + length before) _ (DeleteById client collectionName id) = Err e ->
    exec env (Ok client)
      (delete_each client collectionName (before ++ id :: after)) n =
    (delete_requests client collectionName (before ++ [id]), Err e).
Proof.
  induction before as [|id0 before IH]; intros n Hok Hfail.
  - simpl in Hfail. rewrite Nat.add_0_r in Hfail.
    cbn [app delete_each]. unfold await. cbn [bind exec]. rewrite Hfail.
    reflexivity.
  - pose proof (Hok 0 id0 eq_refl) as H0. rewrite Nat.add_0_r in H0.
    cbn [app delete_each]. unfold await. cbn [bind exec]. rewrite H0.
    cbn [bind]. rewrite IH; [reflexivity| |].
    + intros i id' Hi. rewrite <- (Hok (S i) id' Hi). f_equal. lia.
    + rewrite <- Hfail. f_equal. simpl. lia.
Qed.

(** X11. [deleteObjects] sends one [deleteById] per identifier, in the
    order of [ids] (none for an empty array, and a repeated identifier is
    sent again), and fulfils when each of them does. *)
Theorem deleteObjects_all (env : Env) (client : WeaviateClient)
  (collectionName : string) (ids : list string) (n : nat) :
  (forall i id, ids !! i = Some id ->
     env (n + i) _ (DeleteById client collectionName id) = Ok tt) ->
  exec env (Ok client) (deleteObjects collectionName ids) n =
  (delete_requests client collectionName ids, Ok tt).
Proof. intros Hok. apply (exec_delete_each env client _ ids n Hok). Qed.

Lemma deleteObjects_all_witness :
  exec populated_store (Ok (ClientHandle 0))
    (deleteObjects "Documents" ["a"; "c"]) 0 =
  ([Req (DeleteById (ClientHandle 0) "Documents" "a");
    Req (DeleteById (ClientHandle 0) "Documents" "c")], Ok tt).
Proof.
  apply (deleteObjects_all populated_store (ClientHandle 0) "Documents"
           ["a"; "c"] 0).
  intros [|[|i]] id Hi; inversion Hi; reflexivity.
Defined.

(** X12. [deleteObjects] stops at the first deletion that fails: the
    call is rejected with that failure, the identifiers before it have
    been deleted, and no request is sent for the identifiers after it. *)
Theorem deleteObjects_stops (env : Env) (client : WeaviateClient)
  (collectionName : string) (before : list string) (id : string)
  (after : list string) (e : exn) (n : nat) :
  (forall i id', before !! i = Some id' ->
     env (n + i) _ (DeleteById client collectionName id') = Ok tt) ->
  env (n + length before) _ (DeleteById client collectionName id) = Err e ->
  exec env (Ok client)
    (deleteObjects collectionName (before ++ id :: after)) n =
  (delete_requests client collectionName (before ++ [id]), Err e).
Proof.
  intros Hok Hfail.
  apply (exec_delete_each_fails env client _ before id after e n Hok Hfail).
Qed.

Lemma deleteObjects_stops_witness :
  exec populated_store (Ok (ClientHandle 0))
    (deleteObjects "Documents" ["a"; "b"; "c"]) 0 =
  ([Req (DeleteById (ClientHandle 0) "Documents" "a");
    Req (DeleteById (ClientHandle 0) "Documents" "b")],
   Err (Rejection "not found")).
Proof.
  apply (deleteObjects_stops populated_store (ClientHandle 0) "Documents"
           ["a"] "b" ["c"] (Rejection "not found") 0).
  - intros [|i] id Hi; inversion Hi; reflexivity.
  - reflexivity.
Defined.

(** X13. [getCollectionStats] looks the collection up and then counts.
    Unlike [collectionExists], a failed lookup rejects the call, and the
    count is then not requested. The [name] reported is the one in the
    answer of the store, the [objectCount] the total of the aggregate. *)
Theorem getCollectionStats_outcome (env : Env) (client : WeaviateClient)
  (collectionName : string) (n : nat) :
  exec env (Ok client) (getCollectionStats collectionName) n =
  match env n _ (ConfigGet client collectionName) with
  | Err e => ([Req (ConfigGet client collectionName)], Err e)
  | Ok stored =>
      ([Req (ConfigGet client collectionName);
        Req (AggregateOverAll client collectionName)],
       match env (S n) _ (AggregateOverAll client collectionName) with
       | Ok count =>
           Ok {| stats_objectCount := count; stats_name := stored |}
       | Err e => Err e
       end)
  end.
Proof.
  unfold getCollectionStats. simpl.
  destruct (env n string _); simpl; [|reflexivity].
  destruct (env (S n) number _); reflexivity.
Qed.

(** ** The retriever, run *)

Lemma map_result_Ok {A B : Type} (f : A -> Result B) (xs : list A) :
  forall ys, map_result f xs = Ok ys <-> Forall2 (fun x y => f x = Ok y) xs ys.
Proof.
  induction xs as [|x xs IH]; intros ys; simpl.
  - split.
    + intros H. injection H as <-. constructor.
    + intros H. inversion H. reflexivity.
  - destruct (f x) as [y|e] eqn:Hx.
    + destruct (map_result f xs) as [ys'|e] eqn:Hxs.
      * split.
        -- intros H. injection H as <-. constructor; [exact Hx|].
           apply IH. reflexivity.
        -- intros H. inversion H as [|x0 y0 xs0 ys0 Hy Hrest]; subst.
           rewrite Hx in Hy. injection Hy as <-.
           apply IH in Hrest. injection Hrest as <-. reflexivity.
      * split; [discriminate|].
        intros H. inversion H as [|x0 y0 xs0 ys0 Hy Hrest]; subst.
        apply IH in Hrest. discriminate Hrest.
    + split; [discriminate|].
      intros H. inversion H as [|x0 y0 xs0 ys0 Hy Hrest]; subst.
      rewrite Hx in Hy. discriminate Hy.
Qed.

Lemma map_result_Err {A B : Type} (f : A -> Result B) (xs : list A) (e : exn) :
  map_result f xs = Err e ->
  exists before x after,
    xs = before ++ x :: after /\ f x = Err e /\
    Forall (fun x' => exists y, f x' = Ok y) before.
Proof.
  induction xs as [|x xs IH]; simpl; [discriminate|].
  destruct (f x) as [y|e'] eqn:Hx.
  - destruct (map_result f xs) as [ys|e'']; [discriminate|].
    intros H. injection H as ->.
    destruct (IH eq_refl) as (before & x' & after & -> & Hx' & Hbefore).
    exists (x :: before), x', after. split; [reflexivity|].
    split; [exact Hx'|]. constructor; [eauto | exact Hbefore].
  - intros H. injection H as ->. exists [], x, xs. repeat split; auto.
Qed.

Section RetrieverRuns.

Context {codec : JSONCodec}.

(** X14. The one way the mapping of a result object can fail: the store
    reports a distance and the stored metadata text parses to a truthy
    value that is not an object (a number other than zero, [true], a
    non-empty string), on which setting [_distance] throws. In every
    other case a document is made. *)
Theorem to_document_failure (obj : WeaviateObject) :
  (exists e, to_document obj = Err e) <->
  exists d m,
    reported_distance obj = Some d /\
    parse_metadata (wo_properties obj) = Some m /\
    truthy m = true /\ is_object m = false.
Proof.
  split.
  - intros [e He]. unfold to_document in He.
    destruct (reported_distance obj) as [d|]; [|discriminate He].
    destruct (parse_metadata (wo_properties obj)) as [m|]; [|discriminate He].
    exists d, m. split; [reflexivity|]. split; [reflexivity|].
    destruct (truthy m); [|discriminate He]. split; [reflexivity|].
    destruct m; try reflexivity; discriminate He.
  - intros (d & m & Hd & Hm & Ht & Ho).
    destruct (to_document_primitive_throws obj m d Hm Ht Ho Hd) as [msg H].
    eauto.
Qed.

(** X15. Without a query embedding nothing is asked of the store: when
    the embedder rejects, the retrieval is rejected with the same reason;
    when it returns an empty array, reading [queryEmbeddings[0].embedding]
    throws a [TypeError]. In both cases the embed request is the only
    request. *)
Theorem retriever_needs_embedding (env : Env) (init : Result WeaviateClient)
  (collectionName : string) (e : EmbedderArgument) (eo : option object)
  (content : Document) (options : option WeaviateRetrieverOptions) (n : nat) :
  (forall first others,
     env n _ (Embed e content eo) <> Ok (first :: others)) ->
  fst (exec env init
         (weaviateRetriever collectionName e eo content options) n) =
    [Req (Embed e content eo)] /\
  match env n _ (Embed e content eo) with
  | Err failure =>
      snd (exec env init
             (weaviateRetriever collectionName e eo content options) n) =
        Err failure
  | Ok _ =>
      exists message,
        snd (exec env init
               (weaviateRetriever collectionName e eo content options) n) =
          Err (TypeError message)
  end.
Proof.
  intros Hnone. unfold weaviateRetriever, await. cbn [bind exec].
  destruct (env n (list Embedding) (Embed e content eo)) as [[|first others]|x];
    [split; [reflexivity | eexists; reflexivity] | | split; reflexivity].
  exfalso. exact (Hnone first others eq_refl).
Qed.

(** X16. The retriever embeds the query before it looks at the
    connection: on an instance whose connection attempt failed, the embed
    request is still sent, no query follows, and the retrieval is
    rejected only afterwards: with the connection failure when it was
    called with options, with a [TypeError] (thrown at [options.k],
    before [client.search] is reached) when it was called without. *)
Theorem retriever_embeds_first (env : Env) (failure : exn)
  (collectionName : string) (e : EmbedderArgument) (eo : option object)
  (content : Document) (options : option WeaviateRetrieverOptions) (n : nat)
  (first : Embedding) (others : list Embedding) :
  env n _ (Embed e content eo) = Ok (first :: others) ->
  fst (exec env (Err failure)
         (weaviateRetriever collectionName e eo content options) n) =
    [Req (Embed e content eo)] /\
  match options with
  | Some _ =>
      snd (exec env (Err failure)
             (weaviateRetriever collectionName e eo content options) n) =
        Err failure
  | None =>
      exists message,
        snd (exec env (Err failure)
               (weaviateRetriever collectionName e eo content options) n) =
          Err (TypeError message)
  end.
Proof.
  intros Hembed. unfold weaviateRetriever, await. cbn [bind exec].
  rewrite Hembed. destruct options as [options|]; simpl.
  - split; reflexivity.
  - split; [reflexivity | eexists; reflexivity].
Qed.

(** X17. A retrieval called with options sends the embed request and
    one query, made from the first embedding alone (further embeddings of
    the query are not used). When it fulfils, there is one document per
    result object, in the order of the store, with the [content] and
    [contentType] properties of the object as data and type, the empty
    string standing for a missing one. When it is rejected, it is by the
    first result object whose mapping throws: one such object fails the
    whole call. *)
Theorem retriever_store_order (env : Env) (client : WeaviateClient)
  (collectionName : string) (e : EmbedderArgument) (eo : option object)
  (content : Document) (options : WeaviateRetrieverOptions) (n : nat)
  (first : Embedding) (others : list Embedding) (objs : list WeaviateObject) :
  env n _ (Embed e content eo) = Ok (first :: others) ->
  env (S n) _ (retriever_query client collectionName options first) = Ok objs ->
  fst (exec env (Ok client)
         (weaviateRetriever collectionName e eo content (Some options)) n) =
    [Req (Embed e content eo);
     Req (retriever_query client collectionName options first)] /\
  match snd (exec env (Ok client)
               (weaviateRetriever collectionName e eo content (Some options))
               n) with
  | Ok documents =>
      length documents = length objs /\
      forall i obj, objs !! i = Some obj ->
        exists document,
          documents !! i = Some document /\ to_document obj = Ok document /\
          fd_data document = or_empty (obj_get "content" (wo_properties obj)) /\
          fd_dataType document =
            or_empty (obj_get "contentType" (wo_properties obj))
  | Err failure =>
      exists before obj after,
        objs = before ++ obj :: after /\ to_document obj = Err failure /\
        Forall (fun x => exists y, to_document x = Ok y) before
  end.
Proof.
  intros Hembed Hsearch.
  rewrite (weaviateRetriever_outcome env client collectionName e eo content
             options n first others objs Hembed Hsearch).
  split; [reflexivity|]. cbn [snd].
  destruct (map_result to_document objs) as [documents|failure] eqn:Hmap.
  - apply map_result_Ok in Hmap. split.
    + symmetry. eapply Forall2_length, Hmap.
    + intros i obj Hi.
      destruct (Forall2_lookup_l _ _ _ _ _ Hmap Hi) as (document & Hdoc & Hto).
      exists document. split; [exact Hdoc|]. split; [exact Hto|].
      unfold to_document in Hto.
      destruct (match reported_distance obj with Some _ => _ | None => _ end);
        [|discriminate Hto].
      injection Hto as <-. split; reflexivity.
  - apply map_result_Err, Hmap.
Qed.

(** X30. A retrieval called without options (Genkit then hands the
    handler [undefined]) never reaches the store: once the query is
    embedded, reading [options.k] throws a [TypeError], so the embed
    request is the only request and the call is rejected, whatever the
    state of the connection. *)
Theorem retriever_without_options (env : Env) (init : Result WeaviateClient)
  (collectionName : string) (e : EmbedderArgument) (eo : option object)
  (content : Document) (n : nat) (first : Embedding)
  (others : list Embedding) :
  env n _ (Embed e content eo) = Ok (first :: others) ->
  exists message,
    exec env init (weaviateRetriever collectionName e eo content None) n =
    ([Req (Embed e content eo)], Err (TypeError message)).
Proof.
  intros Hembed. unfold weaviateRetriever, await. cbn [bind exec].
  rewrite Hembed. eexists. reflexivity.
Qed.

End RetrieverRuns.

Lemma retriever_needs_embedding_witness :
  fst (exec embedder_down (Ok (ClientHandle 0))
         (weaviateRetriever (codec := reference_codec) "Documents"
            (EmbedderName "e") None bare_chunk (Some retrieve_all)) 0) =
    [Req (Embed (EmbedderName "e") bare_chunk None)] /\
  snd (exec embedder_down (Ok (ClientHandle 0))
         (weaviateRetriever (codec := reference_codec) "Documents"
            (EmbedderName "e") None bare_chunk (Some retrieve_all)) 0) =
    Err (Rejection "embedder unavailable").
Proof.
  apply (retriever_needs_embedding (codec := reference_codec) embedder_down
           (Ok (ClientHandle 0)) "Documents" (EmbedderName "e") None
           bare_chunk (Some retrieve_all) 0).
  intros first others. discriminate.
Defined.

Lemma retriever_embeds_first_witness :
  fst (exec populated_store (Err refused)
         (weaviateRetriever (codec := reference_codec) "Documents"
            (EmbedderName "e") None bare_chunk (Some retrieve_all)) 0) =
    [Req (Embed (EmbedderName "e") bare_chunk None)] /\
  snd (exec populated_store (Err refused)
         (weaviateRetriever (codec := reference_codec) "Documents"
            (EmbedderName "e") None bare_chunk (Some retrieve_all)) 0) =
    Err refused.
Proof.
  exact (retriever_embeds_first (codec := reference_codec) populated_store
           refused "Documents" (EmbedderName "e") None bare_chunk
           (Some retrieve_all) 0 {| embedding := [1%Q; 0%Q] |} [] eq_refl).
Defined.

Lemma retriever_store_order_witness :
  fst (exec populated_store (Ok (ClientHandle 0))
         (weaviateRetriever (codec := reference_codec) "Documents"
            (EmbedderName "e") None bare_chunk (Some retrieve_all)) 0) =
    [Req (Embed (EmbedderName "e") bare_chunk None);
     Req (retriever_query (ClientHandle 0) "Documents" retrieve_all
            {| embedding := [1%Q; 0%Q] |})] /\
  length [ {| fd_data := "first"; fd_dataType := EmptyString;
              fd_metadata := None |};
           {| fd_data := "second"; fd_dataType := EmptyString;
              fd_metadata := None |} ] = 2 /\
  forall i obj,
    [ {| wo_uuid := "1"; wo_properties := [("content", "first")];
         wo_metadata := None |};
      {| wo_uuid := "2"; wo_properties := [("content", "second")];
         wo_metadata := None |} ] !! i = Some obj ->
    exists document,
      [ {| fd_data := "first"; fd_dataType := EmptyString;
           fd_metadata := None |};
        {| fd_data := "second"; fd_dataType := EmptyString;
           fd_metadata := None |} ] !! i = Some document /\
      to_document (codec := reference_codec) obj = Ok document /\
      fd_data document = or_empty (obj_get "content" (wo_properties obj)) /\
      fd_dataType document =
        or_empty (obj_get "contentType" (wo_properties obj)).
Proof.
  exact (retriever_store_order (codec := reference_codec) populated_store
           (ClientHandle 0) "Documents" (EmbedderName "e") None bare_chunk
           retrieve_all 0 {| embedding := [1%Q; 0%Q] |} [] _ eq_refl eq_refl).
Defined.

Lemma retriever_without_options_witness :
  exists message,
    exec populated_store (Ok (ClientHandle 0))
      (weaviateRetriever (codec := reference_codec) "Documents"
         (EmbedderName "e") None bare_chunk None) 0 =
    ([Req (Embed (EmbedderName "e") bare_chunk None)],
     Err (TypeError message)).
Proof.
  exact (retriever_without_options (codec := reference_codec) populated_store
           (Ok (ClientHandle 0)) "Documents" (EmbedderName "e") None
           bare_chunk 0 {| embedding := [1%Q; 0%Q] |} [] eq_refl).
Defined.

(** ** The batch of the indexer *)

Lemma NoDup_map_injective {A B : Type} (f : A -> B) (l : list A) :
  (forall a b, f a = f b -> a = b) -> List.NoDup l -> List.NoDup (map f l).
Proof.
  intros Hinj Hl. induction Hl as [|x l Hx Hl IH]; simpl; constructor.
  - intros Hin. apply List.in_map_iff in Hin as (y & Hy & Hin).
    apply Hinj in Hy. subst y. exact (Hx Hin).
  - exact IH.
Qed.

Section Batches.

Context {codec : JSONCodec}.
Variable getEmbeddingDocuments : Document -> list Embedding -> list Document.
Variable uuidv4 : nat -> string.

Lemma chunk_objects_ids (docEmbeddings : list Embedding) :
  forall (n j : nat) (embeddingDocs : list Document) (objs : list StoreObject),
    chunk_objects uuidv4 n embeddingDocs j docEmbeddings = Ok objs ->
    map so_id objs =
      map (fun k => Some (uuidv4 k)) (seq n (length docEmbeddings)).
Proof.
  induction docEmbeddings as [|e es IH]; intros n j chunks objs Hobjs;
    simpl in Hobjs.
  - injection Hobjs as <-. reflexivity.
  - destruct (chunks !! j) as [chunk|]; [|discriminate Hobjs].
    destruct (chunk_objects uuidv4 (S n) chunks (S j) es) as [objs'|] eqn:Hrest;
      [|discriminate Hobjs].
    injection Hobjs as <-. simpl. rewrite (IH _ _ _ _ Hrest). reflexivity.
Qed.

Lemma document_objects_ids (embeddings : list (list Embedding)) :
  forall (n i : nat) (docs : list Document) (objss : list (list StoreObject)),
    document_objects getEmbeddingDocuments uuidv4 n docs i embeddings =
      Ok objss ->
    map so_id (concat objss) =
      map (fun k => Some (uuidv4 k))
        (seq n (list_sum (map (@length Embedding) embeddings))).
Proof.
  induction embeddings as [|value rest IH]; intros n i docs objss Hobjss;
    simpl in Hobjss.
  - injection Hobjss as <-. reflexivity.
  - destruct (docs !! i) as [doc|]; [|discriminate Hobjss].
    destruct (chunk_objects uuidv4 n (getEmbeddingDocuments doc value) 0 value)
      as [objs|] eqn:Hobjs; [|discriminate Hobjss].
    destruct (document_objects getEmbeddingDocuments uuidv4 (n + length value)
                docs (S i) rest) as [objss'|] eqn:Hrest; [|discriminate Hobjss].
    injection Hobjss as <-. unfold list_sum. cbn [concat map fold_right].
    fold (list_sum (map (@length Embedding) rest)).
    rewrite List.map_app, List.seq_app, List.map_app.
    rewrite (chunk_objects_ids _ _ _ _ _ Hobjs), (IH _ _ _ _ Hrest).
    reflexivity.
Qed.

(** X18. Every object of a batch gets an identifier of its own: the
    batch has one object per embedding returned (the sum over the
    documents), and the identifiers are the results of the successive
    calls of [uuidv4], one call per object, in the order of the batch.
    So they are pairwise distinct as long as [uuidv4] does not repeat
    itself, and each reaches [insertMany] as long as it is not the empty
    string. *)
Theorem indexer_fresh_ids (docs : list Document)
  (embeddings : list (list Embedding)) (batch : list StoreObject) :
  indexer_objects getEmbeddingDocuments uuidv4 docs embeddings = Ok batch ->
  length batch = list_sum (map (@length Embedding) embeddings) /\
  map so_id batch = drawn_ids uuidv4 (length batch) /\
  ((forall a b, uuidv4 a = uuidv4 b -> a = b) ->
   List.NoDup (map so_id batch)) /\
  ((forall k, uuidv4 k <> EmptyString) ->
   map io_id (map insert_payload batch) = drawn_ids uuidv4 (length batch)).
Proof.
  intros Hbatch. unfold indexer_objects in Hbatch.
  destruct (document_objects getEmbeddingDocuments uuidv4 0 docs 0 embeddings)
    as [objss|] eqn:Hobjss; [|discriminate Hbatch].
  injection Hbatch as <-.
  pose proof (document_objects_ids _ _ _ _ _ Hobjss) as Hids.
  assert (Hlen : length (concat objss) =
                 list_sum (map (@length Embedding) embeddings)).
  { rewrite <- (length_map so_id), Hids, length_map, length_seq.
    reflexivity. }
  split; [exact Hlen|]. unfold drawn_ids. rewrite Hlen.
  split; [exact Hids|]. split.
  - intros Hinj. rewrite Hids.
    apply NoDup_map_injective; [|apply List.seq_NoDup].
    intros a b Hab. injection Hab as Hab. exact (Hinj a b Hab).
  - intros Hne. rewrite <- Hids, !List.map_map. apply List.map_ext_in.
    intros obj Hin.
    assert (Hid : In (so_id obj) (map so_id (concat objss)))
      by (apply List.in_map; exact Hin).
    rewrite Hids in Hid. apply List.in_map_iff in Hid as (k & Hk & _).
    simpl. rewrite <- Hk. simpl.
    rewrite (str_truthy_nonempty _ (Hne k)). reflexivity.
Qed.

Lemma chunk_objects_succeeds (docEmbeddings : list Embedding) :
  forall (n j : nat) (embeddingDocs : list Document),
    match chunk_objects uuidv4 n embeddingDocs j docEmbeddings with
    | Ok _ => docEmbeddings = [] \/
              j + length docEmbeddings <= length embeddingDocs
    | Err e =>
        e = TypeError "Cannot read properties of undefined" /\
        docEmbeddings <> [] /\
        length embeddingDocs < j + length docEmbeddings
    end.
Proof.
  induction docEmbeddings as [|e es IH]; intros n j chunks; simpl.
  - left. reflexivity.
  - destruct (chunks !! j) as [chunk|] eqn:Hchunk.
    + apply lookup_lt_Some in Hchunk.
      specialize (IH (S n) (S j) chunks).
      destruct (chunk_objects uuidv4 (S n) chunks (S j) es).
      * right. destruct IH as [->|IH]; simpl; lia.
      * destruct IH as (-> & _ & IH). repeat split; [discriminate | lia].
    + apply lookup_ge_None in Hchunk. repeat split; [discriminate | lia].
Qed.

Lemma document_objects_succeeds (embeddings : list (list Embedding)) :
  forall (n i : nat) (docs : list Document),
    match document_objects getEmbeddingDocuments uuidv4 n docs i embeddings with
    | Ok _ =>
        forall k value, embeddings !! k = Some value ->
          exists doc, docs !! (i + k) = Some doc /\
            length value <= length (getEmbeddingDocuments doc value)
    | Err e =>
        e = TypeError "Cannot read properties of undefined" /\
        exists k value, embeddings !! k = Some value /\
          forall doc, docs !! (i + k) = Some doc ->
            length (getEmbeddingDocuments doc value) < length value
    end.
Proof.
  induction embeddings as [|value rest IH]; intros n i docs; simpl.
  - intros k value Hk. discriminate Hk.
  - destruct (docs !! i) as [doc|] eqn:Hdoc.
    + pose proof (chunk_objects_succeeds value n 0
                    (getEmbeddingDocuments doc value)) as Hchunks.
      destruct (chunk_objects uuidv4 n (getEmbeddingDocuments doc value) 0
                  value) as [objs|e].
      * specialize (IH (n + length value) (S i) docs).
        destruct (document_objects getEmbeddingDocuments uuidv4
                    (n + length value) docs (S i) rest) as [objss|e].
        -- intros [|k] value' Hk.
           ++ injection Hk as <-. exists doc. rewrite Nat.add_0_r.
              split; [exact Hdoc|]. destruct Hchunks as [->|H]; simpl; lia.
           ++ destruct (IH k value' Hk) as (doc' & Hdoc' & Hlen).
              exists doc'. split; [|exact Hlen].
              rewrite <- Hdoc'. f_equal. lia.
        -- destruct IH as (-> & k & value' & Hk & Hshort).
           split; [reflexivity|]. exists (S k), value'. split; [exact Hk|].
           intros doc' Hdoc'. apply Hshort. rewrite <- Hdoc'. f_equal. lia.
      * destruct Hchunks as (-> & _ & Hshort). split; [reflexivity|].
        exists 0, value. split; [reflexivity|].
        intros doc'. rewrite Nat.add_0_r, Hdoc. intros H. injection H as <-.
        simpl in Hshort. exact Hshort.
    + split; [reflexivity|]. exists 0, value. split; [reflexivity|].
      intros doc'. rewrite Nat.add_0_r, Hdoc. discriminate.
Qed.

Lemma indexer_objects_cases (docs : list Document)
  (embeddings : list (list Embedding)) :
  match indexer_objects getEmbeddingDocuments uuidv4 docs embeddings with
  | Ok _ => enough_chunks getEmbeddingDocuments docs embeddings
  | Err e =>
      e = TypeError "Cannot read properties of undefined" /\
      ~ enough_chunks getEmbeddingDocuments docs embeddings
  end.
Proof.
  unfold indexer_objects, enough_chunks.
  pose proof (document_objects_succeeds embeddings 0 0 docs) as H.
  destruct (document_objects getEmbeddingDocuments uuidv4 0 docs 0 embeddings)
    as [objss|e].
  - intros i value Hi. exact (H i value Hi).
  - destruct H as (-> & k & value & Hk & Hshort). split; [reflexivity|].
    intros Hall. destruct (Hall k value Hk) as (doc & Hdoc & Hlen).
    specialize (Hshort doc Hdoc). lia.
Qed.

Lemma chunk_objects_built (docEmbeddings : list Embedding) (n j : nat)
  (embeddingDocs : list Document) (objs : list StoreObject) :
  chunk_objects uuidv4 n embeddingDocs j docEmbeddings = Ok objs ->
  map so_content objs =
    map data (take (length docEmbeddings) (drop j embeddingDocs)) /\
  map so_vector objs = map embedding docEmbeddings.
Proof.
  intros Hobjs.
  pose proof (chunk_objects_succeeds docEmbeddings n j embeddingDocs) as Hlen.
  rewrite Hobjs in Hlen. destruct Hlen as [->|Hlen].
  - simpl in Hobjs. injection Hobjs as <-. split; reflexivity.
  - destruct (chunk_objects_contents uuidv4 docEmbeddings n j embeddingDocs
                Hlen) as (objs' & Hobjs' & Hdata & Hvec).
    rewrite Hobjs in Hobjs'. injection Hobjs' as <-. split; assumption.
Qed.

Lemma chunk_objects_lookup (docEmbeddings : list Embedding) :
  forall (n j : nat) (embeddingDocs : list Document) (objs : list StoreObject),
    chunk_objects uuidv4 n embeddingDocs j docEmbeddings = Ok objs ->
    forall k docEmbedding embeddingDoc,
      docEmbeddings !! k = Some docEmbedding ->
      embeddingDocs !! (j + k) = Some embeddingDoc ->
      objs !! k =
        Some (store_object (uuidv4 (n + k)) embeddingDoc docEmbedding).
Proof.
  induction docEmbeddings as [|e es IH]; intros n j chunks objs Hobjs k ek c
    Hk Hc; [discriminate Hk|].
  simpl in Hobjs.
  destruct (chunks !! j) as [chunk|] eqn:Hchunk; [|discriminate Hobjs].
  destruct (chunk_objects uuidv4 (S n) chunks (S j) es) as [objs'|] eqn:Hrest;
    [|discriminate Hobjs].
  injection Hobjs as <-. destruct k as [|k].
  - injection Hk as <-. rewrite Nat.add_0_r in *.
    rewrite Hchunk in Hc. injection Hc as <-. reflexivity.
  - simpl. rewrite (IH _ _ _ _ Hrest k ek c Hk).
    + replace (n + S k) with (S n + k) by lia. reflexivity.
    + rewrite <- Hc. f_equal. lia.
Qed.

Lemma document_objects_lookup (embeddings : list (list Embedding)) :
  forall (n i : nat) (docs : list Document) (objss : list (list StoreObject)),
    document_objects getEmbeddingDocuments uuidv4 n docs i embeddings =
      Ok objss ->
    forall k doc value,
      docs !! (i + k) = Some doc -> embeddings !! k = Some value ->
      exists n' objs,
        objss !! k = Some objs /\
        chunk_objects uuidv4 n' (getEmbeddingDocuments doc value) 0 value =
          Ok objs.
Proof.
  induction embeddings as [|value rest IH]; intros n i docs objss Hobjss k doc'
    value' Hdoc' Hvalue'; [discriminate Hvalue'|].
  simpl in Hobjss.
  destruct (docs !! i) as [doc|] eqn:Hdoc; [|discriminate Hobjss].
  destruct (chunk_objects uuidv4 n (getEmbeddingDocuments doc value) 0 value)
    as [objs|] eqn:Hobjs; [|discriminate Hobjss].
  destruct (document_objects getEmbeddingDocuments uuidv4 (n + length value)
              docs (S i) rest) as [objss'|] eqn:Hrest; [|discriminate Hobjss].
  injection Hobjss as <-. destruct k as [|k].
  - rewrite Nat.add_0_r, Hdoc in Hdoc'. injection Hdoc' as <-.
    injection Hvalue' as <-. exists n, objs. split; [reflexivity | exact Hobjs].
  - apply (IH _ _ _ _ Hrest k doc' value'); [|exact Hvalue'].
    rewrite <- Hdoc'. f_equal. lia.
Qed.

(** The object written for a chunk is in the batch. *)
Lemma indexer_objects_lookup (docs : list Document)
  (embeddings : list (list Embedding)) (batch : list StoreObject)
  (i j : nat) (doc : Document) (value : list Embedding)
  (docEmbedding : Embedding) (chunk : Document) :
  indexer_objects getEmbeddingDocuments uuidv4 docs embeddings = Ok batch ->
  docs !! i = Some doc -> embeddings !! i = Some value ->
  value !! j = Some docEmbedding ->
  getEmbeddingDocuments doc value !! j = Some chunk ->
  exists id, In (store_object id chunk docEmbedding) batch.
Proof.
  intros Hbatch Hdoc Hvalue Hj Hchunk. unfold indexer_objects in Hbatch.
  destruct (document_objects getEmbeddingDocuments uuidv4 0 docs 0 embeddings)
    as [objss|] eqn:Hobjss; [|discriminate Hbatch].
  injection Hbatch as <-.
  destruct (document_objects_lookup _ _ _ _ _ Hobjss i doc value Hdoc Hvalue)
    as (n' & objs & Hobjs & Hchunks).
  pose proof (chunk_objects_lookup _ _ _ _ _ Hchunks j docEmbedding chunk Hj
                Hchunk) as Hobj.
  exists (uuidv4 (n' + j)). apply in_concat. exists objs. split.
  - apply list_elem_of_In, list_elem_of_lookup. eauto.
  - apply list_elem_of_In, list_elem_of_lookup. eauto.
Qed.

(** X19. Whenever the batch is built, Genkit had returned, for every
    document, at least as many chunks as the embedder returned
    embeddings, and the objects of a document are made from its first
    chunks, one per embedding and in order: chunks beyond the number of
    embeddings are left out without an error. *)
Theorem indexer_surplus_chunks (docs : list Document)
  (embeddings : list (list Embedding)) (batch : list StoreObject) :
  indexer_objects getEmbeddingDocuments uuidv4 docs embeddings = Ok batch ->
  enough_chunks getEmbeddingDocuments docs embeddings /\
  forall i doc value,
    docs !! i = Some doc -> embeddings !! i = Some value ->
    exists before objs after,
      batch = before ++ objs ++ after /\
      map so_content objs =
        map data (take (length value) (getEmbeddingDocuments doc value)) /\
      map so_vector objs = map embedding value.
Proof.
  intros Hbatch.
  pose proof (indexer_objects_cases docs embeddings) as Henough.
  rewrite Hbatch in Henough. split; [exact Henough|].
  intros i doc value Hdoc Hvalue. unfold indexer_objects in Hbatch.
  destruct (document_objects getEmbeddingDocuments uuidv4 0 docs 0 embeddings)
    as [objss|] eqn:Hobjss; [|discriminate Hbatch].
  injection Hbatch as <-.
  destruct (document_objects_lookup _ _ _ _ _ Hobjss i doc value Hdoc Hvalue)
    as (n' & objs & Hobjs & Hchunks).
  destruct (chunk_objects_built _ _ _ _ _ Hchunks) as [Hdata Hvec].
  rewrite drop_0 in Hdata.
  exists (concat (take i objss)), objs, (concat (drop (S i) objss)).
  split; [|split; assumption].
  rewrite <- (take_drop_middle objss i objs Hobjs) at 1.
  rewrite concat_app. reflexivity.
Qed.

End Batches.

Lemma indexer_surplus_chunks_witness :
  enough_chunks surplus_chunks [docs_chunk] [[unit_vector 1]] /\
  forall i doc value,
    [docs_chunk] !! i = Some doc -> [[unit_vector 1]] !! i = Some value ->
    exists before objs after,
      [store_object (codec := reference_codec) "a" docs_chunk
         (unit_vector 1)] = before ++ objs ++ after /\
      map so_content objs =
        map data (take (length value) (surplus_chunks doc value)) /\
      map so_vector objs = map embedding value.
Proof.
  exact (indexer_surplus_chunks (codec := reference_codec) surplus_chunks
           sequential_ids [docs_chunk] [[unit_vector 1]]
           [store_object (codec := reference_codec) "a" docs_chunk
              (unit_vector 1)] eq_refl).
Defined.

Lemma indexer_fresh_ids_witness :
  length example_batch = 4 /\
  map so_id example_batch = [Some "a"; Some "b"; Some "c"; Some "d"] /\
  ((forall a b, sequential_ids a = sequential_ids b -> a = b) ->
   List.NoDup (map so_id example_batch)) /\
  ((forall k, sequential_ids k <> EmptyString) ->
   map io_id (map insert_payload example_batch) =
   [Some "a"; Some "b"; Some "c"; Some "d"]).
Proof.
  exact (indexer_fresh_ids (codec := reference_codec) numbered_chunks
           sequential_ids example_docs example_embeddings example_batch
           eq_refl).
Defined.

(** ** The indexer, run *)

Lemma exec_provision_requests (env : Env) (init : Result WeaviateClient)
  (collectionName : string) (options : option WeaviateIndexerOptions)
  (n : nat) :
  Forall (fun q => is_insert q = false /\ is_embed q = false)
    (fst (exec env init (provision collectionName options) n)).
Proof.
  unfold provision. destruct (creation_enabled options); [|constructor].
  destruct init as [client|e]; [|constructor].
  rewrite exec_createCollection.
  destruct (env n string _); repeat constructor.
Qed.

Lemma embed_requests_not_insert (e : EmbedderArgument) (eo : option object)
  (docs : list Document) :
  Forall (fun q => is_insert q = false)
    (map (fun doc => Req (Embed e doc eo)) docs).
Proof. induction docs; constructor; [reflexivity | assumption]. Qed.

Lemma exec_embed_all_any (env : Env) (init : Result WeaviateClient)
  (e : EmbedderArgument) (eo : option object) (docs : list Document) :
  forall n,
    Forall (fun q => is_insert q = false)
      (fst (exec env init (embed_all e eo docs) n)) /\
    match snd (exec env init (embed_all e eo docs) n) with
    | Ok embeddings =>
        fst (exec env init (embed_all e eo docs) n) =
          map (fun doc => Req (Embed e doc eo)) docs /\
        embedder_answers env n e eo docs embeddings
    | Err failure =>
        exists k doc, docs !! k = Some doc /\
          env (n + k) _ (Embed e doc eo) = Err failure
    end.
Proof.
  intros n. rewrite exec_embed_all_settlements. cbn [fst snd].
  split; [apply embed_requests_not_insert|].
  destruct (all_fulfilled (embed_settlements env n e eo docs))
    as [embeddings|failure] eqn:Hall.
  - split; [reflexivity|]. apply all_fulfilled_answers. exact Hall.
  - apply all_fulfilled_rejected. exact Hall.
Qed.

Section IndexerRuns.

Context {codec : JSONCodec}.
Variable getEmbeddingDocuments : Document -> list Embedding -> list Document.
Variable uuidv4 : nat -> string.

(** The handler, step by step: provisioning, the embeddings, the batch,
    the insertion. *)
Lemma exec_weaviateIndexer (env : Env) (init : Result WeaviateClient)
  (collectionName : string) (e : EmbedderArgument) (eo : option object)
  (docs : list Document) (options : option WeaviateIndexerOptions) (n : nat) :
  exec env init
    (weaviateIndexer getEmbeddingDocuments uuidv4 collectionName e eo docs
       options) n =
  match exec env init (provision collectionName options) n with
  | (reqs, Err failure) => (reqs, Err failure)
  | (reqs, Ok _) =>
      match exec env init (embed_all e eo docs) (n + length reqs) with
      | (embeds, Err failure) => (reqs ++ embeds, Err failure)
      | (embeds, Ok embeddings) =>
          match indexer_objects getEmbeddingDocuments uuidv4 docs embeddings
          with
          | Err failure => (reqs ++ embeds, Err failure)
          | Ok batch =>
              match init with
              | Err failure => (reqs ++ embeds, Err failure)
              | Ok client =>
                  let insert :=
                    InsertMany client collectionName
                      (map insert_payload batch) in
                  (reqs ++ embeds ++ [Req insert],
                   env (n + length reqs + length embeds) _ insert)
              end
          end
      end
  end.
Proof.
  unfold weaviateIndexer. fold (provision collectionName options).
  rewrite exec_bind.
  destruct (exec env init (provision collectionName options) n)
    as [reqs [[]|failure]]; [|reflexivity].
  rewrite exec_bind.
  destruct (exec env init (embed_all e eo docs) (n + length reqs))
    as [embeds [embeddings|failure]]; [|reflexivity].
  destruct (indexer_objects getEmbeddingDocuments uuidv4 docs embeddings)
    as [batch|failure]; [|simpl; rewrite app_nil_r; reflexivity].
  destruct init as [client|failure]; [|simpl; rewrite app_nil_r; reflexivity].
  unfold insertObjects. simpl.
  destruct (env _ unit _) as [[]|failure]; reflexivity.
Qed.

(** X20. An indexing call writes at most once, and last. Whatever the
    store and the embedder answer, no [insertMany] is among its requests
    except possibly the last one; that one is there only when the
    connection is up, every document was embedded and the whole batch was
    built, and it carries the whole batch. In every other case the call
    is rejected and nothing was written: no partial batch is ever
    sent. *)
Theorem indexer_inserts_last (env : Env) (init : Result WeaviateClient)
  (collectionName : string) (e : EmbedderArgument) (eo : option object)
  (docs : list Document) (options : option WeaviateIndexerOptions) (n : nat) :
  exists before tail,
    fst (exec env init
           (weaviateIndexer getEmbeddingDocuments uuidv4 collectionName e eo
              docs options) n) = before ++ tail /\
    Forall (fun q => is_insert q = false) before /\
    (tail = [] /\
     (exists failure,
        snd (exec env init
               (weaviateIndexer getEmbeddingDocuments uuidv4 collectionName e
                  eo docs options) n) = Err failure) \/
     exists client reqs embeddings batch,
       init = Ok client /\
       before = reqs ++ map (fun doc => Req (Embed e doc eo)) docs /\
       embedder_answers env (n + length reqs) e eo docs embeddings /\
       indexer_objects getEmbeddingDocuments uuidv4 docs embeddings =
         Ok batch /\
       tail = [Req (InsertMany client collectionName
                      (map insert_payload batch))]).
Proof.
  rewrite exec_weaviateIndexer.
  pose proof (exec_provision_requests env init collectionName options n)
    as Hprov.
  destruct (exec env init (provision collectionName options) n)
    as [reqs [[]|failure]]; cbn [fst] in Hprov.
  2:{ exists reqs, []. rewrite app_nil_r. split; [reflexivity|]. split.
      - eapply Forall_impl; [exact Hprov|]. intros q [Hq _]. exact Hq.
      - left. eauto. }
  assert (Hreqs : Forall (fun q => is_insert q = false) reqs)
    by (eapply Forall_impl; [exact Hprov|]; intros q [Hq _]; exact Hq).
  destruct (exec_embed_all_any env init e eo docs (n + length reqs))
    as [Hembeds Hres].
  destruct (exec env init (embed_all e eo docs) (n + length reqs))
    as [embeds [embeddings|failure]]; cbn [fst snd] in *.
  2:{ exists (reqs ++ embeds), []. rewrite app_nil_r. split; [reflexivity|].
      split; [apply Forall_app; split; assumption|]. left. eauto. }
  destruct Hres as [Hsent Hans].
  destruct (indexer_objects getEmbeddingDocuments uuidv4 docs embeddings)
    as [batch|failure] eqn:Hbatch.
  2:{ exists (reqs ++ embeds), []. rewrite app_nil_r. split; [reflexivity|].
      split; [apply Forall_app; split; assumption|]. left. eauto. }
  destruct init as [client|failure].
  2:{ exists (reqs ++ embeds), []. rewrite app_nil_r. split; [reflexivity|].
      split; [apply Forall_app; split; assumption|]. left. eauto. }
  exists (reqs ++ embeds), [Req (InsertMany client collectionName
                                   (map insert_payload batch))].
  cbn [fst]. split; [rewrite app_assoc; reflexivity|].
  split; [apply Forall_app; split; assumption|].
  right. exists client, reqs, embeddings, batch. rewrite Hsent. auto.
Qed.

(** X21. With [createCollectionIfMissing: false] the indexer neither
    looks the collection up nor creates it: its requests are the embed
    requests, one per document in order, and the one [insertMany], and it
    settles as the [insertMany] does. *)
Theorem indexer_without_creation (env : Env) (client : WeaviateClient)
  (collectionName : string) (e : EmbedderArgument) (eo : option object)
  (docs : list Document) (options : WeaviateIndexerOptions)
  (embeddings : list (list Embedding)) (batch : list StoreObject) (n : nat) :
  createCollectionIfMissing options = Some false ->
  embedder_answers env n e eo docs embeddings ->
  indexer_objects getEmbeddingDocuments uuidv4 docs embeddings = Ok batch ->
  exec env (Ok client)
    (weaviateIndexer getEmbeddingDocuments uuidv4 collectionName e eo docs
       (Some options)) n =
  (map (fun doc => Req (Embed e doc eo)) docs ++
   [Req (InsertMany client collectionName (map insert_payload batch))],
   env (n + length docs) _
     (InsertMany client collectionName (map insert_payload batch))).
Proof.
  intros Hflag Hans Hbatch. rewrite exec_weaviateIndexer.
  unfold provision, creation_enabled. rewrite Hflag. cbn [exec length].
  rewrite Nat.add_0_r, (exec_embed_all env _ e eo docs n embeddings Hans).
  rewrite Hbatch, length_map. reflexivity.
Qed.

(** X22. When the provisioning step fails (the connection attempt had
    failed, or the creation of the missing collection is rejected), the
    indexing call is rejected with that failure right there: no document
    is embedded and nothing is inserted. *)
Theorem indexer_provision_failure (env : Env) (init : Result WeaviateClient)
  (collectionName : string) (e : EmbedderArgument) (eo : option object)
  (docs : list Document) (options : option WeaviateIndexerOptions) (n : nat)
  (failure : exn) :
  snd (exec env init (provision collectionName options) n) = Err failure ->
  exec env init
    (weaviateIndexer getEmbeddingDocuments uuidv4 collectionName e eo docs
       options) n =
    (fst (exec env init (provision collectionName options) n), Err failure) /\
  Forall (fun q => is_embed q = false /\ is_insert q = false)
    (fst (exec env init
            (weaviateIndexer getEmbeddingDocuments uuidv4 collectionName e eo
               docs options) n)).
Proof.
  intros Hfail. rewrite exec_weaviateIndexer.
  pose proof (exec_provision_requests env init collectionName options n)
    as Hprov.
  destruct (exec env init (provision collectionName options) n)
    as [reqs [[]|failure']]; cbn [fst snd] in *; [discriminate Hfail|].
  injection Hfail as ->. split; [reflexivity|].
  eapply Forall_impl; [exact Hprov|]. intros q [Hi He]. split; assumption.
Qed.

(** X23. When the embedder rejects one of the documents, the indexing
    call is rejected and nothing is inserted, also when every other
    document was embedded: the embed requests of all the documents have
    gone out by then, and they are the last requests of the call. *)
Theorem indexer_embed_failure (env : Env) (init : Result WeaviateClient)
  (collectionName : string) (e : EmbedderArgument) (eo : option object)
  (docs : list Document) (options : option WeaviateIndexerOptions) (n k : nat)
  (reqs : list Request) (doc : Document) (failure : exn) :
  exec env init (provision collectionName options) n = (reqs, Ok tt) ->
  docs !! k = Some doc ->
  env (n + length reqs + k) _ (Embed e doc eo) = Err failure ->
  (exists failure',
     snd (exec env init
            (weaviateIndexer getEmbeddingDocuments uuidv4 collectionName e eo
               docs options) n) = Err failure') /\
  Forall (fun q => is_insert q = false)
    (fst (exec env init
            (weaviateIndexer getEmbeddingDocuments uuidv4 collectionName e eo
               docs options) n)) /\
  fst (exec env init
         (weaviateIndexer getEmbeddingDocuments uuidv4 collectionName e eo
            docs options) n) =
    reqs ++ map (fun doc => Req (Embed e doc eo)) docs.
Proof.
  intros Hprov Hdoc Hfail. rewrite exec_weaviateIndexer.
  pose proof (exec_provision_requests env init collectionName options n)
    as Hreqs.
  rewrite Hprov in *. cbn [fst] in Hreqs.
  assert (Hreqs' : Forall (fun q => is_insert q = false) reqs)
    by (eapply Forall_impl; [exact Hreqs|]; intros q [Hq _]; exact Hq).
  rewrite exec_embed_all_settlements.
  destruct (all_fulfilled (embed_settlements env (n + length reqs) e eo docs))
    as [embeddings|failure'] eqn:Hall.
  - apply all_fulfilled_answers in Hall as [Hlen Hans].
    destruct (lookup_lt_is_Some_2 embeddings k) as [value Hvalue].
    { rewrite Hlen. eapply lookup_lt_Some, Hdoc. }
    rewrite (Hans k doc value Hdoc Hvalue) in Hfail. discriminate Hfail.
  - cbn [fst snd]. split; [eauto|]. split; [|reflexivity].
    apply Forall_app. split; [exact Hreqs' | apply embed_requests_not_insert].
Qed.

(** X24. When Genkit returns fewer chunks than embeddings for some
    document, the indexing call is rejected with a [TypeError] after all
    the embed requests and nothing is inserted, not even the objects of
    the documents that were complete. *)
Theorem indexer_all_or_nothing (env : Env) (init : Result WeaviateClient)
  (collectionName : string) (e : EmbedderArgument) (eo : option object)
  (docs : list Document) (options : option WeaviateIndexerOptions) (n : nat)
  (reqs : list Request) (embeddings : list (list Embedding)) :
  exec env init (provision collectionName options) n = (reqs, Ok tt) ->
  embedder_answers env (n + length reqs) e eo docs embeddings ->
  ~ enough_chunks getEmbeddingDocuments docs embeddings ->
  exists message,
    exec env init
      (weaviateIndexer getEmbeddingDocuments uuidv4 collectionName e eo docs
         options) n =
    (reqs ++ map (fun doc => Req (Embed e doc eo)) docs,
     Err (TypeError message)).
Proof.
  intros Hprov Hans Hshort. rewrite exec_weaviateIndexer, Hprov.
  rewrite (exec_embed_all env _ e eo docs _ embeddings Hans).
  pose proof (indexer_objects_cases getEmbeddingDocuments uuidv4 docs
                embeddings) as Hcases.
  destruct (indexer_objects getEmbeddingDocuments uuidv4 docs embeddings)
    as [batch|failure]; [contradiction|].
  destruct Hcases as [-> _]. eexists. reflexivity.
Qed.

(** X25. Indexing an empty array of documents embeds nothing and still
    sends an [insertMany], with an empty array, once the provisioning
    step went through. *)
Theorem indexer_empty_input (env : Env) (client : WeaviateClient)
  (collectionName : string) (e : EmbedderArgument) (eo : option object)
  (options : option WeaviateIndexerOptions) (n : nat) (reqs : list Request) :
  exec env (Ok client) (provision collectionName options) n = (reqs, Ok tt) ->
  exec env (Ok client)
    (weaviateIndexer getEmbeddingDocuments uuidv4 collectionName e eo []
       options) n =
  (reqs ++ [Req (InsertMany client collectionName [])],
   env (n + length reqs) _ (InsertMany client collectionName [])).
Proof.
  intros Hprov. rewrite exec_weaviateIndexer, Hprov. simpl.
  rewrite Nat.add_0_r. reflexivity.
Qed.

(** X8. The [properties] of a collection configuration never reach the
    store: [createCollection] does not read them, so two indexing calls
    whose options differ only in [collectionConfig.properties] are the
    same program and send the same creation request, with the two fixed
    properties. *)
Theorem custom_properties_ignored (collectionName : string)
  (e : EmbedderArgument) (eo : option object) (docs : list Document)
  (o1 o2 : WeaviateIndexerOptions) :
  createCollectionIfMissing o1 = createCollectionIfMissing o2 ->
  description (indexer_collection_config collectionName (Some o1)) =
  description (indexer_collection_config collectionName (Some o2)) ->
  weaviateIndexer getEmbeddingDocuments uuidv4 collectionName e eo docs
    (Some o1) =
  weaviateIndexer getEmbeddingDocuments uuidv4 collectionName e eo docs
    (Some o2) /\
  create_request (indexer_collection_config collectionName (Some o1)) =
  create_request (indexer_collection_config collectionName (Some o2)).
Proof.
  intros Hflag Hd. split.
  - unfold weaviateIndexer, creation_enabled. rewrite Hflag.
    rewrite (createCollection_properties_unused
               (indexer_collection_config collectionName (Some o1))
               (indexer_collection_config collectionName (Some o2))
               eq_refl Hd).
    reflexivity.
  - unfold create_request. rewrite Hd. reflexivity.
Qed.

End IndexerRuns.

Lemma populated_store_embeds (n : nat) (e : EmbedderArgument)
  (eo : option object) (doc : Document) :
  embedder_answers populated_store n e eo [doc]
    [[ {| embedding := [1%Q; 0%Q] |} ]].
Proof.
  split; [reflexivity|].
  intros [|k] d value Hd Hv; [|discriminate Hd].
  injection Hv as <-. reflexivity.
Defined.

Lemma indexer_without_creation_witness :
  exec populated_store (Ok (ClientHandle 0))
    (weaviateIndexer (codec := reference_codec) whole_document sequential_ids
       "Documents" (EmbedderName "e") None [bare_chunk] (Some no_creation)) 0 =
  ([Req (Embed (EmbedderName "e") bare_chunk None);
    Req (InsertMany (ClientHandle 0) "Documents"
           [ {| io_id := Some "a";
                io_properties :=
                  [("content", "Genkit is an AI framework");
                   ("contentType", EmptyString);
                   ("metadata", "{}")];
                io_vectors := [1%Q; 0%Q] |} ])],
   Ok tt).
Proof.
  exact (indexer_without_creation (codec := reference_codec) whole_document
           sequential_ids populated_store (ClientHandle 0) "Documents"
           (EmbedderName "e") None [bare_chunk] no_creation
           [[ {| embedding := [1%Q; 0%Q] |} ]]
           [store_object (codec := reference_codec) "a" bare_chunk
              {| embedding := [1%Q; 0%Q] |}]
           0 eq_refl
           (populated_store_embeds 0 (EmbedderName "e") None bare_chunk)
           eq_refl).
Defined.

Lemma indexer_provision_failure_witness :
  exec read_only_store (Ok (ClientHandle 0))
    (weaviateIndexer (codec := reference_codec) whole_document sequential_ids
       "Documents" (EmbedderName "e") None [bare_chunk] None) 0 =
    ([Req (ConfigGet (ClientHandle 0) "Documents");
      Req (CollectionsCreate (ClientHandle 0)
             (create_request documents_config))],
     Err (Rejection "read only")) /\
  Forall (fun q => is_embed q = false /\ is_insert q = false)
    (fst (exec read_only_store (Ok (ClientHandle 0))
            (weaviateIndexer (codec := reference_codec) whole_document
               sequential_ids "Documents" (EmbedderName "e") None [bare_chunk]
               None) 0)).
Proof.
  exact (indexer_provision_failure (codec := reference_codec) whole_document
           sequential_ids read_only_store (Ok (ClientHandle 0)) "Documents"
           (EmbedderName "e") None [bare_chunk] None 0
           (Rejection "read only") eq_refl).
Defined.

Lemma indexer_embed_failure_witness :
  (exists failure',
     snd (exec embedder_down (Ok (ClientHandle 0))
            (weaviateIndexer (codec := reference_codec) whole_document
               sequential_ids "Documents" (EmbedderName "e") None
               [docs_chunk; bare_chunk] (Some no_creation)) 0) =
       Err failure') /\
  Forall (fun q => is_insert q = false)
    (fst (exec embedder_down (Ok (ClientHandle 0))
            (weaviateIndexer (codec := reference_codec) whole_document
               sequential_ids "Documents" (EmbedderName "e") None
               [docs_chunk; bare_chunk] (Some no_creation)) 0)) /\
  fst (exec embedder_down (Ok (ClientHandle 0))
         (weaviateIndexer (codec := reference_codec) whole_document
            sequential_ids "Documents" (EmbedderName "e") None
            [docs_chunk; bare_chunk] (Some no_creation)) 0) =
    [Req (Embed (EmbedderName "e") docs_chunk None);
     Req (Embed (EmbedderName "e") bare_chunk None)].
Proof.
  exact (indexer_embed_failure (codec := reference_codec) whole_document
           sequential_ids embedder_down (Ok (ClientHandle 0)) "Documents"
           (EmbedderName "e") None [docs_chunk; bare_chunk]
           (Some no_creation) 0 0 [] docs_chunk
           (Rejection "embedder unavailable") eq_refl eq_refl eq_refl).
Defined.

Lemma indexer_all_or_nothing_witness :
  exists message,
    exec populated_store (Ok (ClientHandle 0))
      (weaviateIndexer (codec := reference_codec) no_chunks sequential_ids
         "Documents" (EmbedderName "e") None [bare_chunk] (Some no_creation))
      0 =
    ([Req (Embed (EmbedderName "e") bare_chunk None)],
     Err (TypeError message)).
Proof.
  apply (indexer_all_or_nothing (codec := reference_codec) no_chunks
           sequential_ids populated_store (Ok (ClientHandle 0)) "Documents"
           (EmbedderName "e") None [bare_chunk] (Some no_creation) 0 []
           [[ {| embedding := [1%Q; 0%Q] |} ]]).
  - reflexivity.
  - exact (populated_store_embeds 0 (EmbedderName "e") None bare_chunk).
  - intros Hall. destruct (Hall 0 _ eq_refl) as (doc & _ & Hlen).
    simpl in Hlen. lia.
Defined.

Lemma indexer_empty_input_witness :
  exec populated_store (Ok (ClientHandle 0))
    (weaviateIndexer (codec := reference_codec) whole_document sequential_ids
       "Documents" (EmbedderName "e") None [] None) 0 =
  ([Req (ConfigGet (ClientHandle 0) "Documents");
    Req (InsertMany (ClientHandle 0) "Documents" [])],
   Ok tt).
Proof.
  exact (indexer_empty_input (codec := reference_codec) whole_document
           sequential_ids populated_store (ClientHandle 0) "Documents"
           (EmbedderName "e") None None 0
           [Req (ConfigGet (ClientHandle 0) "Documents")] eq_refl).
Defined.

Lemma custom_properties_ignored_witness :
  weaviateIndexer (codec := reference_codec) whole_document sequential_ids
    "Articles" (EmbedderName "e") None [bare_chunk] (Some titled_options) =
  weaviateIndexer (codec := reference_codec) whole_document sequential_ids
    "Articles" (EmbedderName "e") None [bare_chunk] (Some untitled_options) /\
  create_request (indexer_collection_config "Articles" (Some titled_options)) =
  create_request (indexer_collection_config "Articles" (Some untitled_options)).
Proof.
  exact (custom_properties_ignored (codec := reference_codec) whole_document
           sequential_ids "Articles" (EmbedderName "e") None [bare_chunk]
           titled_options untitled_options eq_refl eq_refl).
Defined.

(** ** The plugin and the references *)

Lemma configure_Ok (cs : list WeaviateCollectionParams) :
  forall registry,
    snd (configure cs registry) = Ok tt ->
    Forall (fun x => usable_embedder (embedder x) <> None) cs.
Proof.
  induction cs as [|c cs IH]; intros registry Hok; [constructor|].
  simpl in Hok. destruct (usable_embedder (embedder c)) as [e|] eqn:He;
    [|discriminate Hok].
  constructor; [congruence | exact (IH _ Hok)].
Qed.

Lemma configure_all (cs : list WeaviateCollectionParams)
  (registry : list Action) :
  Forall (fun x => usable_embedder (embedder x) <> None) cs ->
  configure cs registry = (registry ++ flat_map registered_for cs, Ok tt).
Proof.
  intros Hall.
  rewrite <- (app_nil_r cs) at 1.
  rewrite (configure_app cs [] registry Hall). reflexivity.
Qed.

Lemma weaviate_Ok (params : WeaviatePluginParams) (registry : list Action) :
  snd (weaviate params registry) = Ok tt ->
  Forall (fun x => usable_embedder (embedder x) <> None) (collections params).
Proof.
  unfold weaviate. intros Hok. apply (configure_Ok _ registry).
  destruct (configure (collections params) registry). exact Hok.
Qed.

(** X26. Setup succeeds exactly when every entry of [collections] has a
    usable embedder. It then leaves one wrapper, constructed from
    [clientParams] with its connection request out, and the registry
    extended by a retriever and an indexer per entry, in the order of the
    entries, both named [weaviate/<collectionName>] and carrying the
    embedder and embedder options of the entry. With no entry at all
    setup succeeds and still constructs the wrapper. *)
Theorem setup_registers_all (params : WeaviatePluginParams)
  (registry : list Action) :
  (snd (weaviate params registry) = Ok tt <->
   Forall (fun x => usable_embedder (embedder x) <> None)
     (collections params)) /\
  (snd (weaviate params registry) = Ok tt ->
   fst (weaviate params registry) =
   {| plugin_client := construct (clientParams params);
      plugin_registry :=
        registry ++ flat_map registered_for (collections params) |}).
Proof.
  assert (Hall : Forall (fun x => usable_embedder (embedder x) <> None)
                   (collections params) ->
                 weaviate params registry =
                 ({| plugin_client := construct (clientParams params);
                     plugin_registry :=
                       registry ++
                       flat_map registered_for (collections params) |},
                  Ok tt)).
  { intros Hall. unfold weaviate.
    rewrite (configure_all _ registry Hall). reflexivity. }
  split; [split|].
  - apply weaviate_Ok.
  - intros H. rewrite (Hall H). reflexivity.
  - intros Hok. rewrite (Hall (weaviate_Ok params registry Hok)). reflexivity.
Qed.

Lemma setup_registers_all_witness :
  fst (weaviate two_collections []) =
  {| plugin_client := construct local_params;
     plugin_registry :=
       [ RetrieverAction "weaviate/Articles"
           (EmbedderName "googleai/text-embedding-004") None;
         IndexerAction "weaviate/Articles"
           (EmbedderName "googleai/text-embedding-004") None;
         RetrieverAction "weaviate/Books"
           (EmbedderName "googleai/text-embedding-004") None;
         IndexerAction "weaviate/Books"
           (EmbedderName "googleai/text-embedding-004") None ] |}.
Proof.
  exact (proj2 (setup_registers_all two_collections []) eq_refl).
Defined.

Lemma last_match_app {A : Type} (f : A -> bool) (l l' : list A) :
  last_match f (l ++ l') =
  match last_match f l' with
  | Some b => Some b
  | None => last_match f l
  end.
Proof.
  induction l as [|a l IH]; simpl.
  - destruct (last_match f l'); reflexivity.
  - rewrite IH. destruct (last_match f l'); reflexivity.
Qed.

Lemma last_match_none {A : Type} (f : A -> bool) (l : list A) :
  Forall (fun a => f a = false) l -> last_match f l = None.
Proof.
  induction 1 as [|a l Ha _ IH]; simpl; [reflexivity|].
  rewrite IH, Ha. reflexivity.
Qed.

(** The last entry of [collections] that has a given name. *)
Lemma last_entry_named (n : string) (cs : list WeaviateCollectionParams) :
  (exists y, In y cs /\ collectionName y = n) ->
  exists before last after,
    cs = before ++ last :: after /\
    collectionName last = n /\
    Forall (fun x => collectionName x <> n) after.
Proof.
  induction cs as [|x cs IH]; intros (y & Hy & Hname); [destruct Hy|].
  destruct (List.Exists_dec (fun z => collectionName z = n) cs
              (fun z => string_dec (collectionName z) n))
    as [Hlater|Hnone].
  - apply List.Exists_exists in Hlater.
    destruct (IH Hlater) as (before & last & after & -> & Hl & Hafter).
    exists (x :: before), last, after. repeat split; assumption.
  - assert (Hafter : Forall (fun z => collectionName z <> n) cs).
    { apply List.Forall_forall. intros w Hw Hwn. apply Hnone.
      apply List.Exists_exists. eauto. }
    destruct Hy as [->|Hy].
    + exists [], y, cs. repeat split; assumption.
    + exfalso. apply Hnone. apply List.Exists_exists. eauto.
Qed.

Lemma registered_for_other_name (n : string)
  (cs : list WeaviateCollectionParams) :
  Forall (fun x => collectionName x <> n) cs ->
  Forall (fun a => is_retriever_named ("weaviate/" ++ n) a = false /\
                   is_indexer_named ("weaviate/" ++ n) a = false)
    (flat_map registered_for cs).
Proof.
  induction 1 as [|x cs Hx _ IH]; simpl; [constructor|].
  apply Forall_app. split; [|exact IH].
  assert (Hneq : String.eqb ("weaviate/" ++ n)
                   ("weaviate/" ++ collectionName x) = false).
  { apply String.eqb_neq. intros Heq. simpl in Heq.
    injection Heq as Heq. congruence. }
  unfold registered_for. destruct (usable_embedder (embedder x));
    repeat constructor; simpl; exact Hneq.
Qed.

Lemma NoDup_map_eq {A B : Type} (f : A -> B) (l : list A) (a b : A) :
  List.NoDup (map f l) -> In a l -> In b l -> f a = f b -> a = b.
Proof.
  induction l as [|x l IH]; intros Hnd Ha Hb Hab; [destruct Ha|].
  simpl in Hnd. inversion Hnd as [|y ys Hx Hnd']; subst.
  destruct Ha as [->|Ha], Hb as [->|Hb].
  - reflexivity.
  - exfalso. apply Hx. rewrite Hab. apply List.in_map. exact Hb.
  - exfalso. apply Hx. rewrite <- Hab. apply List.in_map. exact Ha.
  - exact (IH Hnd' Ha Hb Hab).
Qed.

(** X27. After a successful setup, the references of every configured
    collection resolve, whatever display name they were given and
    whatever was in the registry before: the retriever reference
    resolves to the retriever, the indexer reference to the indexer,
    that setup defined for the last entry of [collections] with that
    collection name, carrying the embedder and embedder options of that
    entry. When the collection names are pairwise different this is the
    entry itself; an entry repeating the name of an earlier one shadows
    it. *)
Theorem references_resolve (params : WeaviatePluginParams)
  (registry : list Action) (collection : WeaviateCollectionParams)
  (label : option string) :
  snd (weaviate params registry) = Ok tt ->
  In collection (collections params) ->
  let reference :=
    {| rp_collectionName := collectionName collection;
       rp_displayName := label |} in
  exists before last after e,
    collections params = before ++ last :: after /\
    collectionName last = collectionName collection /\
    Forall (fun x => collectionName x <> collectionName collection) after /\
    usable_embedder (embedder last) = Some e /\
    resolve_retriever (weaviateRetrieverRef reference)
      (plugin_registry (fst (weaviate params registry))) =
      Some (RetrieverAction ("weaviate/" ++ collectionName collection) e
              (embedderOptions last)) /\
    resolve_indexer (weaviateIndexerRef reference)
      (plugin_registry (fst (weaviate params registry))) =
      Some (IndexerAction ("weaviate/" ++ collectionName collection) e
              (embedderOptions last)) /\
    (List.NoDup (map collectionName (collections params)) ->
     last = collection).
Proof.
  intros Hok Hin reference.
  pose proof (weaviate_Ok params registry Hok) as Hall.
  destruct (last_entry_named (collectionName collection) (collections params)
              (ex_intro _ collection (conj Hin eq_refl)))
    as (before & last & after & Hcs & Hname & Hafter).
  assert (Hlast : In last (collections params))
    by (rewrite Hcs; apply in_or_app; right; left; reflexivity).
  pose proof (proj1 (List.Forall_forall _ _) Hall last Hlast) as Hc.
  destruct (usable_embedder (embedder last)) as [e|] eqn:He; [|congruence].
  exists before, last, after, e.
  split; [exact Hcs|]. split; [exact Hname|]. split; [exact Hafter|].
  split; [exact He|].
  pose proof (registered_for_other_name (collectionName collection) after
                Hafter) as Hothers.
  assert (Hregistry :
            plugin_registry (fst (weaviate params registry)) =
            (registry ++ flat_map registered_for before) ++
            [ RetrieverAction ("weaviate/" ++ collectionName collection) e
                (embedderOptions last);
              IndexerAction ("weaviate/" ++ collectionName collection) e
                (embedderOptions last) ] ++
            flat_map registered_for after).
  { unfold weaviate. rewrite (configure_all _ registry Hall).
    cbn [fst plugin_registry]. rewrite Hcs, flat_map_app. simpl.
    unfold registered_for at 2. rewrite He, Hname, <- app_assoc.
    reflexivity. }
  split; [|split].
  - unfold resolve_retriever. rewrite Hregistry, !last_match_app.
    rewrite last_match_none
      by (eapply Forall_impl; [exact Hothers|]; intros a [Ha _]; exact Ha).
    simpl. rewrite String.eqb_refl. reflexivity.
  - unfold resolve_indexer. rewrite Hregistry, !last_match_app.
    rewrite last_match_none
      by (eapply Forall_impl; [exact Hothers|]; intros a [_ Ha]; exact Ha).
    simpl. rewrite String.eqb_refl. reflexivity.
  - intros Hnd.
    exact (NoDup_map_eq collectionName _ last collection Hnd Hlast Hin Hname).
Qed.

Lemma references_resolve_witness :
  exists before last after e,
    collections two_collections = before ++ last :: after /\
    collectionName last = "Books" /\
    Forall (fun x => collectionName x <> "Books") after /\
    usable_embedder (embedder last) = Some e /\
    resolve_retriever
      (weaviateRetrieverRef
         {| rp_collectionName := "Books"; rp_displayName := None |})
      (plugin_registry (fst (weaviate two_collections []))) =
      Some (RetrieverAction "weaviate/Books" e (embedderOptions last)) /\
    resolve_indexer
      (weaviateIndexerRef
         {| rp_collectionName := "Books"; rp_displayName := None |})
      (plugin_registry (fst (weaviate two_collections []))) =
      Some (IndexerAction "weaviate/Books" e (embedderOptions last)) /\
    (List.NoDup (map collectionName (collections two_collections)) ->
     last = with_embedder "Books").
Proof.
  exact (references_resolve two_collections [] (with_embedder "Books") None
           eq_refl (or_intror (or_introl eq_refl))).
Defined.

(** X28. The name of a reference is made from the collection name alone:
    the retriever and the indexer of a collection share it, the display
    name does not enter it, and the references of two collections have
    the same name only when the collections have the same name. *)
Theorem reference_names (p q : RefParams) :
  ref_name (weaviateRetrieverRef p) = ref_name (weaviateIndexerRef p) /\
  (ref_name (weaviateRetrieverRef p) = ref_name (weaviateRetrieverRef q) <->
   rp_collectionName p = rp_collectionName q) /\
  (ref_name (weaviateIndexerRef p) = ref_name (weaviateIndexerRef q) <->
   rp_collectionName p = rp_collectionName q).
Proof.
  split; [reflexivity|].
  split; (split; [intros H; simpl in H; injection H as H; exact H
                 | intros H; simpl; rewrite H; reflexivity]).
Qed.

Lemma configure_read_by_setup (cs : list WeaviateCollectionParams) :
  forall registry,
    configure (map read_by_setup cs) registry = configure cs registry.
Proof.
  induction cs as [|c cs IH]; intros registry; [reflexivity|].
  simpl. destruct (usable_embedder (embedder c)); [apply IH | reflexivity].
Qed.

(** X29. The fields [createCollectionIfMissing] and [collectionConfig]
    of an entry of [collections] are never read by setup: with or without
    them the plugin leaves the same wrapper and the same registry, and
    fails or succeeds alike. *)
Theorem collection_options_unread (params : WeaviatePluginParams)
  (registry : list Action) :
  weaviate {| clientParams := clientParams params;
              collections := map read_by_setup (collections params) |}
    registry =
  weaviate params registry.
Proof.
  unfold weaviate. simpl. rewrite configure_read_by_setup. reflexivity.
Qed.

(** * Indexing, then retrieving *)

Lemma map_result_all {A B : Type} (f : A -> Result B) (xs : list A) :
  Forall (fun x => exists y, f x = Ok y) xs ->
  exists ys, map_result f xs = Ok ys.
Proof.
  induction 1 as [|x xs [y Hy] _ [ys IH]]; simpl; [eauto|].
  rewrite Hy, IH. eauto.
Qed.

Section IndexThenRetrieve.

Context {codec : JSONCodec} {laws : JSONLaws codec}.
Variable getEmbeddingDocuments : Document -> list Embedding -> list Document.
Variable uuidv4 : nat -> string.

(** An object the indexer wrote is always mapped to a document. *)
Lemma indexer_written_mapped (obj : WeaviateObject) :
  indexer_written obj -> exists document, to_document obj = Ok document.
Proof.
  intros (id & chunk & e & Hret).
  destruct (store_object_metadata id chunk e) as (_ & _ & _ & _ & _ & _ & H).
  destruct (H obj Hret) as (document & _ & Hdoc & _). eauto.
Qed.

(** C3, as the code has it. An indexing call whose batch is built sends
    one [insertMany] with the batch, and the object sent for a chunk that
    Genkit made of a document (an element of
    [doc.getEmbeddingDocuments(embeddings)]) carries the content of the
    chunk, the vector of its embedding, and as [metadata] the JSON text
    of the metadata [m] of the chunk. A retrieval on a collection filled
    by the indexer that gets this object back returns for it a document
    with the content and type of the chunk and metadata [m], with
    [_distance] set when the store reports a distance: equal to [m] up
    to the key [_distance]. The metadata written is that of the chunk:
    it is the metadata of the document given to the indexer only where
    Genkit hands it on to the chunk unchanged. *)
Theorem metadata_round_trip (env : Env) (client : WeaviateClient)
  (collectionName : string) (e : EmbedderArgument) (eo : option object)
  (docs : list Document) (options : option WeaviateIndexerOptions) (n : nat)
  (reqs : list Request) (embeddings : list (list Embedding))
  (batch : list StoreObject) (i j : nat) (doc : Document)
  (value : list Embedding) (docEmbedding : Embedding) (chunk : Document)
  (m : object) :
  exec env (Ok client) (provision collectionName options) n = (reqs, Ok tt) ->
  embedder_answers env (n + length reqs) e eo docs embeddings ->
  indexer_objects getEmbeddingDocuments uuidv4 docs embeddings = Ok batch ->
  docs !! i = Some doc -> embeddings !! i = Some value ->
  value !! j = Some docEmbedding ->
  getEmbeddingDocuments doc value !! j = Some chunk ->
  metadata chunk = Some m -> serializable (JObj m) ->
  exists sent,
    fst (exec env (Ok client)
           (weaviateIndexer getEmbeddingDocuments uuidv4 collectionName e eo
              docs options) n) =
      reqs ++ map (fun doc => Req (Embed e doc eo)) docs ++
      [Req (InsertMany client collectionName (map insert_payload batch))] /\
    In sent (map insert_payload batch) /\
    obj_get "content" (io_properties sent) = Some (data chunk) /\
    io_vectors sent = embedding docEmbedding /\
    obj_get "metadata" (io_properties sent) = Some (JSON_stringify (JObj m)) /\
    forall (env' : Env) client' content given n' first others objs k obj,
      env' n' _ (Embed e content eo) = Ok (first :: others) ->
      env' (S n') _ (retriever_query client' collectionName given first) =
        Ok objs ->
      Forall indexer_written objs ->
      objs !! k = Some obj ->
      wo_properties obj = io_properties sent ->
      exists documents m',
        exec env' (Ok client')
          (weaviateRetriever collectionName e eo content (Some given)) n' =
          ([Req (Embed e content eo);
            Req (retriever_query client' collectionName given first)],
           Ok documents) /\
        documents !! k =
          Some {| fd_data := data chunk;
                  fd_dataType := or_empty (dataType chunk);
                  fd_metadata := Some (JObj m') |} /\
        obj_remove "_distance" m' = obj_remove "_distance" m /\
        match reported_distance obj with
        | Some d => m' = obj_set "_distance" (JNum d) m
        | None => m' = m
        end.
Proof.
  intros Hprov Hans Hbatch Hdoc Hvalue Hj Hchunk Hm Hser.
  destruct (indexer_objects_lookup getEmbeddingDocuments uuidv4 docs
              embeddings batch i j doc value docEmbedding chunk Hbatch Hdoc
              Hvalue Hj Hchunk) as [id Hin].
  destruct (chunk_round_trip id chunk docEmbedding m Hm Hser)
    as [Hwritten Hback].
  exists (insert_payload (store_object id chunk docEmbedding)).
  split.
  { exact (weaviateIndexer_requests getEmbeddingDocuments uuidv4 env client
             collectionName e eo docs options embeddings batch n reqs Hprov
             Hans Hbatch). }
  split; [apply List.in_map; exact Hin|].
  split; [reflexivity|]. split; [reflexivity|]. split; [exact Hwritten|].
  intros env' client' content given n' first others objs k obj Hembed Hquery
    Hall Hk Hprops.
  rewrite (weaviateRetriever_outcome env' client' collectionName e eo
             content given n' first others objs Hembed Hquery).
  destruct (map_result_all to_document objs) as [documents Hmap].
  { eapply Forall_impl; [exact Hall|]. apply indexer_written_mapped. }
  rewrite Hmap. apply map_result_Ok in Hmap.
  destruct (Forall2_lookup_l _ _ _ _ _ Hmap Hk) as (document & Hdocument & Hto).
  destruct (Hback obj Hprops) as (m' & Hto' & Hup & Hd).
  rewrite Hto' in Hto. injection Hto as <-.
  exists documents, m'. split; [reflexivity|].
  split; [exact Hdocument|]. split; [exact Hup | exact Hd].
Qed.

End IndexThenRetrieve.

Lemma metadata_round_trip_witness :
  exists sent,
    fst (exec populated_store (Ok (ClientHandle 0))
           (weaviateIndexer (codec := reference_codec) whole_document
              sequential_ids "Documents" (EmbedderName "e") None [docs_chunk]
              (Some no_creation)) 0) =
      [Req (Embed (EmbedderName "e") docs_chunk None);
       Req (InsertMany (ClientHandle 0) "Documents"
              [insert_payload
                 (store_object (codec := reference_codec) "a" docs_chunk
                    {| embedding := [1%Q; 0%Q] |})])] /\
    In sent
      [insert_payload
         (store_object (codec := reference_codec) "a" docs_chunk
            {| embedding := [1%Q; 0%Q] |})] /\
    obj_get "content" (io_properties sent) =
      Some "Weaviate is a vector database" /\
    io_vectors sent = [1%Q; 0%Q] /\
    obj_get "metadata" (io_properties sent) =
      Some (ref_stringify (JObj [("source", JStr "docs")])) /\
    forall (env' : Env) client' content given n' first others objs k obj,
      env' n' _ (Embed (EmbedderName "e") content None) =
        Ok (first :: others) ->
      env' (S n') _ (retriever_query client' "Documents" given first) =
        Ok objs ->
      Forall (indexer_written (codec := reference_codec)) objs ->
      objs !! k = Some obj ->
      wo_properties obj = io_properties sent ->
      exists documents m',
        exec env' (Ok client')
          (weaviateRetriever (codec := reference_codec) "Documents"
             (EmbedderName "e") None content (Some given)) n' =
          ([Req (Embed (EmbedderName "e") content None);
            Req (retriever_query client' "Documents" given first)],
           Ok documents) /\
        documents !! k =
          Some {| fd_data := "Weaviate is a vector database";
                  fd_dataType := "text";
                  fd_metadata := Some (JObj m') |} /\
        obj_remove "_distance" m' = [("source", JStr "docs")] /\
        match reported_distance obj with
        | Some d => m' = [("source", JStr "docs"); ("_distance", JNum d)]
        | None => m' = [("source", JStr "docs")]
        end.
Proof.
  exact (metadata_round_trip (codec := reference_codec)
           (laws := reference_codec_laws) whole_document sequential_ids
           populated_store (ClientHandle 0) "Documents" (EmbedderName "e")
           None [docs_chunk] (Some no_creation) 0 []
           [[ {| embedding := [1%Q; 0%Q] |} ]]
           [store_object (codec := reference_codec) "a" docs_chunk
              {| embedding := [1%Q; 0%Q] |}]
           0 0 docs_chunk [ {| embedding := [1%Q; 0%Q] |} ]
           {| embedding := [1%Q; 0%Q] |} docs_chunk [("source", JStr "docs")]
           eq_refl
           (populated_store_embeds 0 (EmbedderName "e") None docs_chunk)
           eq_refl eq_refl eq_refl eq_refl eq_refl eq_refl eq_refl).
Defined.

(** C3, as stated, fails. The document given to the indexer has the
    metadata [{source: "docs"}]; Genkit makes two chunks of it, each with
    an entry [embedMetadata] added to that metadata. The objects sent to
    the store carry the JSON text of the metadata of the chunks, not of
    the metadata of the document, and the document retrieved from the
    first of them has the added entry in its metadata, which no
    [_distance] accounts for. *)
Lemma chunk_metadata_written :
  metadata docs_chunk = Some [("source", JStr "docs")] /\
  exists sent1 sent2 document m',
    fst (exec tagged_store (Ok (ClientHandle 0))
           (weaviateIndexer (codec := reference_codec) tagged_chunks
              sequential_ids "Documents" (EmbedderName "e") None [docs_chunk]
              (Some no_creation)) 0) =
      [Req (Embed (EmbedderName "e") docs_chunk None);
       Req (InsertMany (ClientHandle 0) "Documents" [sent1; sent2])] /\
    obj_get "metadata" (io_properties sent1) =
      Some (ref_stringify
              (JObj [("source", JStr "docs"); ("embedMetadata", JStr "x")])) /\
    obj_get "metadata" (io_properties sent1) <>
      Some (ref_stringify (JObj [("source", JStr "docs")])) /\
    snd (exec tagged_store (Ok (ClientHandle 0))
           (weaviateRetriever (codec := reference_codec) "Documents"
              (EmbedderName "e") None bare_chunk (Some retrieve_all)) 0) =
      Ok [document] /\
    fd_metadata document = Some (JObj m') /\
    m' = [("source", JStr "docs"); ("embedMetadata", JStr "x")] /\
    obj_remove "_distance" m' <>
      obj_remove "_distance" [("source", JStr "docs")].
Proof.
  split; [reflexivity|].
  eexists _, _, _, _. split; [vm_compute; reflexivity|].
  split; [vm_compute; reflexivity|].
  split; [vm_compute; discriminate|].
  split; [vm_compute; reflexivity|].
  split; [reflexivity|]. split; [reflexivity|].
  vm_compute. discriminate.
Qed.
